(** * The index subsystem of dgit: a shallow embedding and its properties

    The development follows [git/index.go] (the index record format, its
    reader and writer, and the in-memory mutations), [git/symbolicref.go]
    and the [--stage=all] path of checkout-index.

    Conventions of the embedding:
    - a Go [uintN] is a [Z] kept in range by an explicit [mod 2^N];
    - a Go [string] (a byte sequence) is a Rocq [string]; file contents are
      [list byte];
    - a [*IndexEntry] is an [option IndexEntry], [None] being the nil
      pointer; dereferencing nil is the [Panic] outcome;
    - the operating system (stat, temp files, the object store) is a record
      of functions the operations are parameterised by. *)

From Stdlib Require Import ZArith Lia List Bool Sorted.
From Stdlib.Strings Require Import String Ascii Byte.
From stdpp Require Import base option list gmap strings.

Import ListNotations.
Local Open Scope string_scope.
Local Open Scope list_scope.
Local Open Scope Z_scope.

(** ** Outcomes: a Go call either returns or panics *)

Inductive Outcome (A : Type) : Type :=
| Ret (a : A)
| Panic.
Arguments Ret {A} a.
Arguments Panic {A}.

Definition obind {A B} (m : Outcome A) (k : A -> Outcome B) : Outcome B :=
  match m with
  | Ret a => k a
  | Panic => Panic
  end.

Notation "'do' x <- m ; k" := (obind m (fun x => k))
  (at level 10, x name, m at level 100, k at level 200).
Notation "'do' ' p <- m ; k" := (obind m (fun x => let 'p := x in k))
  (at level 10, p strict pattern, m at level 100, k at level 200).

(** Go [error] values that the modelled code produces. *)
Inductive error : Type :=
| InvalidIndex
| EOF
| ErrUnexpectedEOF
| Errorf (msg : string)
| OSError (msg : string).

(** ** Bytes and fixed-width big-endian integers ([encoding/binary]) *)

Definition byte_to_Z (b : byte) : Z := Z.of_N (Byte.to_N b).

Definition byte_of_Z (z : Z) : byte :=
  match Byte.of_N (Z.to_N (z mod 256)) with
  | Some b => b
  | None => x00
  end.

(** [be_encode n z]: the low [n] bytes of [z], most significant first. *)
Fixpoint be_encode (n : nat) (z : Z) : list byte :=
  match n with
  | O => []
  | S m => byte_of_Z (Z.shiftr z (8 * Z.of_nat m)) :: be_encode m z
  end.

Definition be_decode (bs : list byte) : Z :=
  fold_left (fun acc b => acc * 256 + byte_to_Z b) bs 0.

(** A two's complement reading of a 64-bit pattern ([int64]). *)
Definition to_int64 (z : Z) : Z :=
  if z <? 2 ^ 63 then z else z - 2 ^ 64.

Fixpoint bytes_eqb (a b : list byte) : bool :=
  match a, b with
  | [], [] => true
  | x :: a', y :: b' => Byte.eqb x y && bytes_eqb a' b'
  | _, _ => false
  end.

Definition bytes_of_string (s : string) : list byte := list_byte_of_string s.
Definition string_of_bytes (bs : list byte) : string := string_of_list_byte bs.

(** ** SHA-1 ([crypto/sha1]), on 32-bit words held in [Z] *)

Module SHA1.

Definition w32 (x : Z) : Z := x mod 2 ^ 32.
Definition rotl (n x : Z) : Z :=
  w32 (Z.lor (Z.shiftl x n) (Z.shiftr x (32 - n))).
Definition not32 (x : Z) : Z := Z.lxor x 4294967295.

Definition pad (msg : list byte) : list byte :=
  let len := Z.of_nat (length msg) in
  let zeros := Z.to_nat ((55 - len) mod 64) in
  msg ++ [x80] ++ repeat x00 zeros ++ be_encode 8 (8 * len).

Fixpoint words (n : nat) (bs : list byte) : list Z :=
  match n with
  | O => []
  | S m => be_decode (firstn 4 bs) :: words m (skipn 4 bs)
  end.

(** The message schedule, newest word first. *)
Fixpoint expand (k : nat) (rws : list Z) : list Z :=
  match k with
  | O => rws
  | S k' =>
      let w := rotl 1 (Z.lxor (Z.lxor (nth 2 rws 0) (nth 7 rws 0))
                              (Z.lxor (nth 13 rws 0) (nth 15 rws 0))) in
      expand k' (w :: rws)
  end.

Definition state : Type := Z * Z * Z * Z * Z.

Definition round (i : Z) (st : state) (w : Z) : state :=
  let '(a, b, c, d, e) := st in
  let '(f, k) :=
    if i <? 20 then (Z.lor (Z.land b c) (Z.land (not32 b) d), 1518500249)
    else if i <? 40 then (Z.lxor (Z.lxor b c) d, 1859775393)
    else if i <? 60 then
      (Z.lor (Z.lor (Z.land b c) (Z.land b d)) (Z.land c d), 2400959708)
    else (Z.lxor (Z.lxor b c) d, 3395469782) in
  let t := w32 (rotl 5 a + f + e + k + w) in
  (t, a, rotl 30 b, c, d).

Fixpoint rounds (i : Z) (ws : list Z) (st : state) : state :=
  match ws with
  | [] => st
  | w :: ws' => rounds (i + 1) ws' (round i st w)
  end.

Definition block (st : state) (bs : list byte) : state :=
  let ws := rev (expand 64 (rev (words 16 bs))) in
  let '(a, b, c, d, e) := st in
  let '(a', b', c', d', e') := rounds 0 ws st in
  (w32 (a + a'), w32 (b + b'), w32 (c + c'), w32 (d + d'), w32 (e + e')).

Fixpoint blocks (n : nat) (st : state) (bs : list byte) : state :=
  match n with
  | O => st
  | S m => blocks m (block st (firstn 64 bs)) (skipn 64 bs)
  end.

Definition init : state :=
  (1732584193, 4023233417, 2562383102, 271733878, 3285377520).

Definition sum (msg : list byte) : list byte :=
  let p := pad msg in
  let '(a, b, c, d, e) := blocks (length p / 64)%nat init p in
  be_encode 4 a ++ be_encode 4 b ++ be_encode 4 c ++ be_encode 4 d
    ++ be_encode 4 e.

End SHA1.

(** Known answers: the digests of the empty message and of "abc". *)
Example sha1_empty :
  SHA1.sum [] =
  [xda; x39; xa3; xee; x5e; x6b; x4b; x0d; x32; x55;
   xbf; xef; x95; x60; x18; x90; xaf; xd8; x07; x09].
Proof. vm_compute. reflexivity. Qed.

Example sha1_abc :
  SHA1.sum (bytes_of_string "abc") =
  [xa9; x99; x3e; x36; x47; x06; x81; x6a; xba; x3e;
   x25; x71; x78; x50; xc2; x6c; x9c; xd0; xd8; x9d].
Proof. vm_compute. reflexivity. Qed.

(** ** The data model of [git/index.go] *)

(** [FixedIndexEntry]: the 62 bytes at the head of every entry record.
    [EntryMode] is a 32-bit word and [Sha1] a 20-byte array, as the offsets
    noted beside the fields in the source say. *)
Record FixedIndexEntry : Type := mkFixed {
  Ctime : Z;       (* uint32 *)
  Ctimenano : Z;   (* uint32 *)
  Mtime : Z;       (* int64 *)
  Dev : Z;         (* uint32 *)
  Ino : Z;         (* uint32 *)
  Mode : Z;        (* EntryMode, uint32 *)
  Uid : Z;         (* uint32 *)
  Gid : Z;         (* uint32 *)
  Fsize : Z;       (* uint32 *)
  Sha1 : list byte;  (* [20]byte *)
  Flags : Z        (* uint16 *)
}.

Record V3IndexExtensions : Type := mkV3 {
  ExtFlags : Z     (* uint16, the field [Flags] of V3IndexExtensions *)
}.

Record IndexEntry : Type := mkEntry {
  Fixed : FixedIndexEntry;
  V3 : option V3IndexExtensions;   (* *V3IndexExtensions, None = nil *)
  PathName : string
}.

(** [fixedGitIndex] and [Index].  [Objects] is a slice of pointers: [None]
    is a nil pointer, which [ReadIndex] leaves at an entry it could not
    read. *)
Record Index : Type := mkIndex {
  Signature : list byte;           (* [4]byte *)
  Version : Z;                     (* uint32 *)
  NumberIndexEntries : Z;          (* uint32 *)
  Objects : list (option IndexEntry)
}.

Definition DIRC : list byte := [x44; x49; x52; x43].

(** Merge stages: [Stage] is a [uint8]; four constants are declared. *)
Definition Stage0 : Z := 0.
Definition Stage1 : Z := 1.
Definition Stage2 : Z := 2.
Definition Stage3 : Z := 3.

Definition set_Flags (f : FixedIndexEntry) (v : Z) : FixedIndexEntry :=
  mkFixed (Ctime f) (Ctimenano f) (Mtime f) (Dev f) (Ino f) (Mode f)
          (Uid f) (Gid f) (Fsize f) (Sha1 f) v.

Definition set_Objects (g : Index) (objs : list (option IndexEntry)) : Index :=
  mkIndex (Signature g) (Version g) (NumberIndexEntries g) objs.

Definition set_NumberIndexEntries (g : Index) (n : Z) : Index :=
  mkIndex (Signature g) (Version g) n (Objects g).

Definition set_Version (g : Index) (v : Z) : Index :=
  mkIndex (Signature g) v (NumberIndexEntries g) (Objects g).

(** [FixedIndexEntry.ExtendedFlag]: bit 14 of [Flags]. *)
Definition FixedExtendedFlag (f : FixedIndexEntry) : bool :=
  Z.land (Z.shiftr (Flags f) 14) 1 =? 1.

Definition ExtendedFlag (ie : IndexEntry) : bool := FixedExtendedFlag (Fixed ie).

(** [FixedIndexEntry.SetExtendedFlag]: [|=] and [&^=] with [0x1 << 14]. *)
Definition SetExtendedFlag (f : FixedIndexEntry) (val : bool) : FixedIndexEntry :=
  if val then set_Flags f (Z.lor (Flags f) 16384)
  else set_Flags f (Z.ldiff (Flags f) 16384).

(** [IndexEntry.Stage]: bits 13-12 of [Flags]. *)
Definition Stage (ie : IndexEntry) : Z :=
  Z.land (Z.shiftr (Flags (Fixed ie)) 12) 3.

Definition SkipWorktree (ie : IndexEntry) : bool :=
  match V3 ie with
  | Some v => if negb (ExtendedFlag ie) then false
              else Z.land (Z.shiftr (ExtFlags v) 14) 1 =? 1
  | None => false
  end.

(** [IndexEntry.SetSkipWorktree]. *)
Definition EntrySetSkipWorktree (ie : IndexEntry) (value : bool) : IndexEntry :=
  let fixed := if value then SetExtendedFlag (Fixed ie) true else Fixed ie in
  let v3 := match V3 ie with Some v => v | None => mkV3 0 end in
  let v3' := if value then mkV3 (Z.lor (ExtFlags v3) 16384)
             else mkV3 (Z.ldiff (ExtFlags v3) 16384) in
  mkEntry fixed (Some v3') (PathName ie).

Definition NewIndex : Index := mkIndex DIRC 2 0 [].

(** ** The working tree, as the index operations see it

    [IndexPath.FilePath], [File.Exists], [File.Lstat], [File.MTime],
    [File.CTime] and [File.INode] read the file system; none of the index
    operations writes to it. *)
Record FileSystem : Type := mkFS {
  FilePath : string -> error + string;
  Exists : string -> bool;
  LstatSize : string -> error + Z;     (* Lstat, then [Size()] of the result *)
  MTime : string -> error + Z;
  CTime : string -> Z * Z;
  INode : string -> Z
}.

(** [FixedIndexEntry.RefreshStat]. *)
Definition FixedRefreshStat (fs : FileSystem) (i : FixedIndexEntry) (f : string)
  : FixedIndexEntry * option error :=
  match LstatSize fs f with
  | inl err => (i, Some err)
  | inr size =>
      match MTime fs f with
      | inl err => (i, Some err)
      | inr fmtime =>
          let '(csec, cnano) := CTime fs f in
          (mkFixed csec cnano fmtime (Dev i) (INode fs f) (Mode i) (Uid i)
                   (Gid i) (size mod 2 ^ 32) (Sha1 i) (Flags i), None)
      end
  end.

(** [IndexEntry.RefreshStat]. *)
Definition RefreshStat (fs : FileSystem) (ie : IndexEntry)
  : IndexEntry * option error :=
  match FilePath fs (PathName ie) with
  | inl err => (ie, Some err)
  | inr f =>
      let '(fixed, err) := FixedRefreshStat fs (Fixed ie) f in
      (mkEntry fixed (V3 ie) (PathName ie), err)
  end.

(** ** Sorting: [ByPath] and [sort.Sort] *)

Definition byte_lt (a b : ascii) : bool := (N_of_ascii a <? N_of_ascii b)%N.

(** The byte loop of [ByPath.Less], entered when the two paths differ. *)
Fixpoint bytes_less (i j : string) : bool :=
  match i with
  | EmptyString => true
  | String a i' =>
      match j with
      | EmptyString => false
      | String b j' =>
          if byte_lt a b then true
          else if byte_lt b a then false
          else bytes_less i' j'
      end
  end.

Definition Less (a b : IndexEntry) : bool :=
  if (PathName a =? PathName b)%string then Stage a <? Stage b
  else bytes_less (PathName a) (PathName b).

Fixpoint insert_sorted (x : IndexEntry) (l : list IndexEntry) : list IndexEntry :=
  match l with
  | [] => [x]
  | y :: l' => if Less x y then x :: y :: l' else y :: insert_sorted x l'
  end.

(** [sort.Sort] rearranges the slice in place by comparisons with [Less];
    it is modelled by insertion sort.  Go does not promise an order among
    entries that [Less] does not separate (same path and stage); for
    entries with pairwise different (path, stage) every sorting algorithm
    produces this list. *)
Definition sort_entries (l : list IndexEntry) : list IndexEntry :=
  fold_left (fun acc x => insert_sorted x acc) l [].

Fixpoint deref_all (objs : list (option IndexEntry)) : Outcome (list IndexEntry) :=
  match objs with
  | [] => Ret []
  | None :: _ => Panic
  | Some e :: rest => do es <- deref_all rest; Ret (e :: es)
  end.

(** [sort.Sort(ByPath(objs))]: with fewer than two elements nothing is
    compared; otherwise every element is compared at least once, and
    [Less] dereferences both of its arguments. *)
Definition SortByPath (objs : list (option IndexEntry))
  : Outcome (list (option IndexEntry)) :=
  match objs with
  | [] | [_] => Ret objs
  | _ => do es <- deref_all objs; Ret (map Some (sort_entries es))
  end.

(** ** In-memory operations on the index *)

Record UpdateIndexOptions : Type := mkOpts {
  Add : bool;
  Replace : bool
}.

(** [strings.HasPrefix s prefix]. *)
Definition HasPrefix (s pre : string) : bool := String.prefix pre s.

(** [Index.SetSkipWorktree]: the loop over [g.Objects]; the result is the
    slice after the loop together with the error returned from inside it. *)
Fixpoint SetSkipWorktree_loop (objs : list (option IndexEntry)) (path : string)
  (value : bool) : Outcome (list (option IndexEntry) * option error) :=
  match objs with
  | [] => Ret ([], None)
  | None :: _ => Panic
  | Some entry :: rest =>
      if (PathName entry =? path)%string then
        if negb (Stage entry =? Stage0) then
          Ret (objs, Some (Errorf "Can not set skip worktree on unmerged paths"))
        else Ret (Some (EntrySetSkipWorktree entry value) :: rest, None)
      else
        do '(rest', err) <- SetSkipWorktree_loop rest path value;
        Ret (Some entry :: rest', err)
  end.

Definition SetSkipWorktree (g : Index) (path : string) (value : bool)
  : Outcome (Index * option error) :=
  do '(objs, err) <- SetSkipWorktree_loop (Objects g) path value;
  match err with
  | Some e => Ret (g, Some e)
  | None =>
      let g1 := set_Objects g objs in
      if (Version g1 <=? 2) && value then Ret (set_Version g1 3, None)
      else Ret (g1, None)
  end.

(** [Index.RemoveUnmergedStages]. *)
Fixpoint RemoveUnmergedStages_loop (objs : list (option IndexEntry))
  (path : string) : Outcome (list (option IndexEntry)) :=
  match objs with
  | [] => Ret []
  | None :: _ => Panic
  | Some entry :: rest =>
      do newobjects <- RemoveUnmergedStages_loop rest path;
      let stage := Stage entry in
      if (PathName entry =? path)%string && (stage =? Stage0) then
        Ret (Some entry :: newobjects)
      else if (PathName entry =? path)%string && negb (stage =? Stage0) then
        Ret newobjects
      else Ret (Some entry :: newobjects)
  end.

Definition RemoveUnmergedStages (g : Index) (path : string)
  : Outcome (Index * option error) :=
  do newobjects <- RemoveUnmergedStages_loop (Objects g) path;
  Ret (mkIndex (Signature g) (Version g)
               (Z.of_nat (length newobjects) mod 2 ^ 32) newobjects, None).

(** [Index.RemoveFile]: the first entry named [file] is cut out of the
    slice and the count is decremented (a [uint32]). *)
Fixpoint RemoveFile_loop (objs : list (option IndexEntry)) (file : string)
  : Outcome (option (list (option IndexEntry))) :=
  match objs with
  | [] => Ret None
  | None :: _ => Panic
  | Some entry :: rest =>
      if (PathName entry =? file)%string then Ret (Some rest)
      else
        do r <- RemoveFile_loop rest file;
        Ret (option_map (cons (Some entry)) r)
  end.

Definition RemoveFile (g : Index) (file : string) : Outcome Index :=
  do r <- RemoveFile_loop (Objects g) file;
  match r with
  | Some objs =>
      Ret (mkIndex (Signature g) (Version g)
                   ((NumberIndexEntries g - 1) mod 2 ^ 32) objs)
  | None => Ret g
  end.

(** The closure [replaceEntriesCheck] of [AddStage]: its loop over
    [g.Objects].  [inl] is the error returned from inside the loop, [inr]
    the slice [newObjects] built by it. *)
Definition existing_file_msg (e path : string) : string :=
  "There is an existing file " +:+ e +:+ " under " +:+ path
    +:+ ", should it be replaced?".

Definition parent_file_msg (e path : string) : string :=
  "There is a parent file " +:+ e +:+ " above " +:+ path
    +:+ ", should it be replaced?".

Fixpoint replaceEntriesScan (path : string) (replace : bool)
  (objs : list (option IndexEntry))
  : Outcome (error + list (option IndexEntry)) :=
  match objs with
  | [] => Ret (inr [])
  | None :: _ => Panic
  | Some e :: rest =>
      if HasPrefix (PathName e) (path +:+ "/") then
        if negb replace then
          Ret (inl (Errorf (existing_file_msg (PathName e) path)))
        else replaceEntriesScan path replace rest
      else if HasPrefix path (PathName e +:+ "/") then
        if negb replace then
          Ret (inl (Errorf (parent_file_msg (PathName e) path)))
        else replaceEntriesScan path replace rest
      else
        do r <- replaceEntriesScan path replace rest;
        Ret (match r with
             | inl err => inl err
             | inr newObjects => inr (Some e :: newObjects)
             end)
  end.

Definition replaceEntriesCheck (g : Index) (path : string) (stage : Z)
  (opts : UpdateIndexOptions) : Outcome (Index * option error) :=
  if negb (stage =? Stage0) then Ret (g, None)
  else
    do r <- replaceEntriesScan path (Replace opts) (Objects g);
    match r with
    | inl err => Ret (g, Some err)
    | inr newObjects => Ret (set_Objects g newObjects, None)
    end.

Definition same_stage (entry : IndexEntry) (path : string) (stage : Z) : bool :=
  (PathName entry =? path)%string && (Stage entry =? stage).

(** The search of [AddStage] for an entry with this path and stage. *)
Fixpoint find_stage (objs : list (option IndexEntry)) (path : string)
  (stage : Z) : Outcome (option IndexEntry) :=
  match objs with
  | [] => Ret None
  | None :: _ => Panic
  | Some entry :: rest =>
      if same_stage entry path stage then Ret (Some entry)
      else find_stage rest path stage
  end.

(** Writing through the pointer found by [find_stage]: the first entry
    with that path and stage takes the new contents. *)
Fixpoint update_entry (objs : list (option IndexEntry)) (path : string)
  (stage : Z) (new : IndexEntry) : list (option IndexEntry) :=
  match objs with
  | [] => []
  | None :: rest => None :: update_entry rest path stage new
  | Some entry :: rest =>
      if same_stage entry path stage then Some new :: rest
      else Some entry :: update_entry rest path stage new
  end.

Definition overwrite (entry : IndexEntry) (s : list byte) (mtime size : Z)
  : IndexEntry :=
  let f := Fixed entry in
  mkEntry (mkFixed (Ctime f) (Ctimenano f) mtime (Dev f) (Ino f) (Mode f)
                   (Uid f) (Gid f) size s (Flags f))
          (V3 entry) (PathName entry).

(** The flags of a new entry: [uint16(stage) << 12], then the name length
    clamped to [0x0FFF]. *)
Definition new_flags (path : string) (stage : Z) : Z :=
  let flags := Z.shiftl stage 12 mod 2 ^ 16 in
  let len := Z.of_nat (String.length path) in
  if 4095 <=? len then Z.lor flags 4095
  else Z.lor flags (Z.land (len mod 2 ^ 16) 4095).

Definition not_found_msg (path : string) : string := path +:+ " not found in index".

(** [AddStage] up to its return, the deferred call left out. *)
Definition AddStage_body (fs : FileSystem) (g : Index) (path : string)
  (mode : Z) (s : list byte) (stage : Z) (size mtime : Z)
  (opts : UpdateIndexOptions) : Outcome (Index * option error) :=
  do found <- find_stage (Objects g) path stage;
  match found with
  | Some entry =>
      do '(g1, err) <- replaceEntriesCheck g path stage opts;
      match err with
      | Some e => Ret (g1, Some e)
      | None =>
          let file := match FilePath fs path with
                      | inr f => f
                      | inl _ => ""
                      end in
          let '(entry1, err1) :=
            if Exists fs file && (stage =? Stage0) then RefreshStat fs entry
            else (entry, None) in
          match err1 with
          | Some e => Ret (g1, Some e)
          | None =>
              Ret (set_Objects g1
                     (update_entry (Objects g1) path stage
                                   (overwrite entry1 s mtime size)), None)
          end
      end
  | None =>
      if negb (Add opts) then Ret (g, Some (Errorf (not_found_msg path)))
      else
        let flags := new_flags path stage in
        do '(g1, err) <- replaceEntriesCheck g path stage opts;
        match err with
        | Some e => Ret (g1, Some e)
        | None =>
            let newentry :=
              mkEntry (mkFixed 0 0 mtime 0 0 mode 0 0 size s flags)
                      (Some (mkV3 0)) path in
            let '(newentry1, _) := RefreshStat fs newentry in
            do sorted <- SortByPath (Objects g1 ++ [Some newentry1]);
            Ret (mkIndex (Signature g1) (Version g1)
                         ((NumberIndexEntries g1 + 1) mod 2 ^ 32) sorted, None)
        end
  end.

(** [Index.AddStage].  The call to [RemoveUnmergedStages] is deferred at
    entry when [stage == Stage0], so it runs on every way out of the
    function, with whatever error the body returns. *)
Definition AddStage (fs : FileSystem) (g : Index) (path : string)
  (mode : Z) (s : list byte) (stage : Z) (size mtime : Z)
  (opts : UpdateIndexOptions) : Outcome (Index * option error) :=
  do '(g1, err) <- AddStage_body fs g path mode s stage size mtime opts;
  if stage =? Stage0 then
    do '(g2, _) <- RemoveUnmergedStages g1 path;
    Ret (g2, err)
  else Ret (g1, err).

(** A working tree in which nothing exists, for the examples. *)
Definition empty_fs : FileSystem :=
  mkFS (fun p => inr p) (fun _ => false)
       (fun _ => inl (OSError "no such file or directory"))
       (fun _ => inl (OSError "no such file or directory"))
       (fun _ => (0, 0)) (fun _ => 0).

Definition zero_sha : list byte := repeat x00 20.

(** An entry as [AddStage] creates it in an empty working tree. *)
Definition plain_entry (path : string) (stage : Z) : IndexEntry :=
  mkEntry (mkFixed 0 0 0 0 0 33188 0 0 0 zero_sha (new_flags path stage))
          (Some (mkV3 0)) path.

(** ** The codec: [WriteIndex] *)

(** [binary.Write] of a [FixedIndexEntry]: its fields in order, big-endian,
    62 bytes in all. *)
Definition encode_fixed (f : FixedIndexEntry) : list byte :=
  be_encode 4 (Ctime f) ++ be_encode 4 (Ctimenano f) ++ be_encode 8 (Mtime f)
    ++ be_encode 4 (Dev f) ++ be_encode 4 (Ino f) ++ be_encode 4 (Mode f)
    ++ be_encode 4 (Uid f) ++ be_encode 4 (Gid f) ++ be_encode 4 (Fsize f)
    ++ Sha1 f ++ be_encode 2 (Flags f).

(** [binary.Write] of the 12-byte [fixedGitIndex]. *)
Definition encode_header (sig : list byte) (version count : Z) : list byte :=
  sig ++ be_encode 4 version ++ be_encode 4 count.

(** The padding computed by [WriteIndex] (in [int]). *)
Definition write_padding (entry : IndexEntry) : Z :=
  let sz := if ExtendedFlag entry then 82 + 2 else 82 in
  8 - ((sz + Z.of_nat (String.length (PathName entry)) + 4) mod 8).

(** The loop of [WriteIndex]: the bytes written so far and the error, if
    any, that ended it. *)
Fixpoint write_entries (version : Z) (objs : list (option IndexEntry))
  : Outcome (list byte * option error) :=
  match objs with
  | [] => Ret ([], None)
  | None :: _ => Panic
  | Some entry :: rest =>
      let fixed := encode_fixed (Fixed entry) in
      let ext : error + list byte :=
        if ExtendedFlag entry then
          match V3 entry with
          | None => inl InvalidIndex
          | Some v => if version =? 2 then inl InvalidIndex
                      else inr (be_encode 2 (ExtFlags v))
          end
        else inr [] in
      match ext with
      | inl err => Ret (fixed, Some err)
      | inr extbytes =>
          let p := repeat x00 (Z.to_nat (write_padding entry)) in
          do '(more, err) <- write_entries version rest;
          Ret (fixed ++ extbytes ++ bytes_of_string (PathName entry) ++ p
                 ++ more, err)
      end
  end.

(** [Index.WriteIndex]: the bytes that reach the writer and the returned
    error; the writer itself is taken not to fail.  The receiver is a copy
    of the index, but its [Objects] share their array with the caller's,
    which is therefore sorted too. *)
Definition WriteIndex (g : Index) : Outcome (list byte * option error) :=
  do sorted <- SortByPath (Objects g);
  let count := Z.of_nat (length sorted) mod 2 ^ 32 in
  let header := encode_header (Signature g) (Version g) count in
  do '(body, err) <- write_entries (Version g) sorted;
  match err with
  | Some e => Ret (header ++ body, Some e)
  | None =>
      Ret (header ++ body ++ SHA1.sum (header ++ body), None)
  end.

(** ** The codec: [ReadIndex] and [ReadIndexEntry] *)

(** An open file read front to back: the offset reached and the bytes
    from there on.  The reader only ever seeks forward from the current
    position; a seek past the end leaves no bytes. *)
Record Reader : Type := mkReader {
  offset : Z;
  rest : list byte
}.

Definition advance (r : Reader) (n : nat) : Reader :=
  mkReader (offset r + Z.of_nat n) (skipn n (rest r)).

(** [file.Seek(k, io.SeekCurrent)]. *)
Definition seek_cur (r : Reader) (k : Z) : Reader :=
  mkReader (offset r + k) (skipn (Z.to_nat k) (rest r)).

(** [io.ReadFull] of [n] bytes, as [binary.Read] does it: what is there is
    consumed; fewer than [n] bytes is [io.EOF] when nothing was read and
    [io.ErrUnexpectedEOF] otherwise. *)
Definition read_full (n : nat) (r : Reader) : (error + list byte) * Reader :=
  let got := firstn n (rest r) in
  let r1 := advance r (length got) in
  if (length got =? n)%nat then (inr got, r1)
  else match got with
       | [] => (inl EOF, r1)
       | _ => (inl ErrUnexpectedEOF, r1)
       end.

(** One [file.Read] into a buffer of [n] bytes: the bytes obtained and the
    error. *)
Definition file_read (n : nat) (r : Reader) : list byte * option error * Reader :=
  match n, rest r with
  | O, _ => ([], None, r)
  | _, [] => ([], Some EOF, r)
  | _, _ => let got := firstn n (rest r) in
            (got, None, advance r (length got))
  end.

(** [binary.Read] into a [FixedIndexEntry], from its 62 bytes. *)
Definition decode_fixed (bs : list byte) : FixedIndexEntry :=
  mkFixed (be_decode (firstn 4 bs))
          (be_decode (firstn 4 (skipn 4 bs)))
          (to_int64 (be_decode (firstn 8 (skipn 8 bs))))
          (be_decode (firstn 4 (skipn 16 bs)))
          (be_decode (firstn 4 (skipn 20 bs)))
          (be_decode (firstn 4 (skipn 24 bs)))
          (be_decode (firstn 4 (skipn 28 bs)))
          (be_decode (firstn 4 (skipn 32 bs)))
          (be_decode (firstn 4 (skipn 36 bs)))
          (firstn 20 (skipn 40 bs))
          (be_decode (firstn 2 (skipn 60 bs))).

(** The padding skipped by [ReadIndexEntry] after a name shorter than
    [0xFFF] (in [uint16]). *)
Definition read_padding (f : FixedIndexEntry) : Z :=
  let nameLength := Z.land (Flags f) 4095 in
  let sz := if FixedExtendedFlag f then (82 + 2) mod 2 ^ 16 else 82 in
  (8 - ((sz + nameLength + 4) mod 2 ^ 16) mod 8) mod 2 ^ 16.

(** The byte-at-a-time loop for a long name.  [prev] is what the one-byte
    buffer holds before the [Read]; at the end of the file the buffer
    keeps it. *)
Fixpoint read_name (prev : byte) (bs : list byte)
  : (error + list byte) * list byte :=
  match bs with
  | [] => if Byte.eqb prev x00 then (inr [], []) else (inl EOF, [])
  | b :: bs' =>
      if Byte.eqb b x00 then (inr [], bs')
      else
        let '(r, remaining) := read_name b bs' in
        (match r with
         | inl err => inl err
         | inr name => inr (b :: name)
         end, remaining)
  end.

Definition ReadIndexEntry (file : Reader) (indexVersion : Z)
  : Outcome ((error + IndexEntry) * Reader) :=
  if (indexVersion <? 2) || (3 <? indexVersion) then
    Ret (inl (Errorf "Unsupported index version."), file)
  else
    let '(res, r1) := read_full 62 file in
    match res with
    | inl err => Ret (inl err, r1)
    | inr fixedbytes =>
        let f := decode_fixed fixedbytes in
        let ext : (error + option V3IndexExtensions) * Reader :=
          if FixedExtendedFlag f then
            if indexVersion <? 3 then (inl InvalidIndex, r1)
            else
              let '(res2, r2) := read_full 2 r1 in
              match res2 with
              | inl err => (inl err, r2)
              | inr bs => (inr (Some (mkV3 (be_decode bs))), r2)
              end
          else (inr None, r1) in
        match ext with
        | (inl err, r2) => Ret (inl err, r2)
        | (inr v3e, r2) =>
            let nameLength := Z.land (Flags f) 4095 in
            if negb (Z.land nameLength 4095 =? 4095) then
              let '(name, err, r3) := file_read (Z.to_nat nameLength) r2 in
              match err with
              | Some _ => Panic
              | None =>
                  if negb (Z.of_nat (length name) =? nameLength) then Panic
                  else
                    let expectedOffset := read_padding f in
                    Ret (inr (mkEntry f v3e (string_of_bytes name)),
                         seek_cur r3 expectedOffset)
              end
            else
              let '(res3, remaining) := read_name x00 (rest r2) in
              let r3 := mkReader (offset r2 + Z.of_nat (length (rest r2))
                                    - Z.of_nat (length remaining)) remaining in
              match res3 with
              | inl err => Ret (inl err, r3)
              | inr name =>
                  let off := offset r3 in
                  let padding := 8 - ((off + 4) mod 8) in
                  Ret (inr (mkEntry f v3e (string_of_bytes name)),
                       seek_cur r3 padding)
              end
        end
    end.

(** The loop of [ReadIndex]: a slot stays nil when its entry returns an
    error. *)
Fixpoint read_entries (n : nat) (file : Reader) (version : Z)
  : Outcome (list (option IndexEntry)) :=
  match n with
  | O => Ret []
  | S m =>
      do '(res, r1) <- ReadIndexEntry file version;
      do indexes <- read_entries m r1 version;
      Ret (match res with
           | inl _ => None
           | inr index => Some index
           end :: indexes)
  end.

(** What opening the index file gave. *)
Inductive OpenResult : Type :=
| NotExist
| OpenFailed (err : error)
| Opened (contents : list byte).

(** [binary.Read] into the [fixedGitIndex], its error ignored: when the
    file has fewer than 12 bytes the header stays zero. *)
Definition read_header (contents : list byte) : (list byte * Z * Z) * Reader :=
  let '(res, r) := read_full 12 (mkReader 0 contents) in
  (match res with
   | inr bs => (firstn 4 bs, be_decode (firstn 4 (skipn 4 bs)),
                be_decode (firstn 4 (skipn 8 bs)))
   | inl _ => (repeat x00 4, 0, 0)
   end, r).

Definition ReadIndex (file : OpenResult) : Outcome (option Index * option error) :=
  match file with
  | NotExist => Ret (Some (mkIndex DIRC 2 0 []), None)
  | OpenFailed err => Ret (None, Some err)
  | Opened contents =>
      let '(sig, version, count, r) := read_header contents in
      if negb (bytes_eqb sig DIRC) then Ret (None, Some InvalidIndex)
      else if (version <? 2) || (4 <? version) then Ret (None, Some InvalidIndex)
      else
        do indexes <- read_entries (Z.to_nat count) r version;
        Ret (Some (mkIndex sig version count indexes), None)
  end.


(** ** Symbolic refs: [SymbolicRefGet] of [git/symbolicref.go] *)

(** A byte slice: its backing array from the first element of the slice
    on, and its length.  The capacity is the length of [arr]. *)
Record GoSlice : Type := mkSlice {
  arr : list byte;
  len : nat
}.

(** [ioutil.ReadAll] collects the file into a buffer allocated with room
    for 512 bytes ([bytes.MinRead]) and grown when the file is longer; the
    bytes of the array past those read are zero.  The capacity is at least
    the one given here; only the first five bytes of the array are looked
    at below. *)
Definition ReadAll (contents : list byte) : GoSlice :=
  mkSlice (contents ++ repeat x00 (512 - length contents)) (length contents).

(** [s[0:hi]]: in Go the upper bound of a slice expression on a slice is
    its capacity, not its length; beyond the capacity the expression
    panics. *)
Definition slice_upto (s : GoSlice) (hi : nat) : Outcome (list byte) :=
  if (hi <=? length (arr s))%nat then Ret (firstn hi (arr s)) else Panic.

(** [s[lo:]]: the upper bound defaults to the length, and [lo] must not
    exceed it. *)
Definition slice_from (s : GoSlice) (lo : nat) : Outcome (list byte) :=
  if (lo <=? len s)%nat then Ret (skipn lo (firstn (len s) (arr s)))
  else Panic.

(** What [c.GitDir.Open] and [ioutil.ReadAll] gave for the ref file. *)
Inductive RefFile : Type :=
| RefOpenFailed
| RefReadFailed
| RefContents (value : list byte).

Section SymbolicRef.

(** [strings.TrimSpace], of the standard library. *)
Variable TrimSpace : string -> string.

Definition SymbolicRefGet (file : RefFile) : Outcome string :=
  match file with
  | RefOpenFailed => Ret ""
  | RefReadFailed => Ret ""
  | RefContents contents =>
      let value := ReadAll contents in
      do pre <- slice_upto value 5;
      if negb (String.eqb (string_of_bytes pre) "ref: ") then Ret ""
      else
        do tail <- slice_from value 5;
        Ret (TrimSpace (string_of_bytes tail))
  end.

End SymbolicRef.

(** ** checkout-index with [--stage=all] *)

Record CheckoutIndexOptions : Type := mkCheckoutOpts {
  OptUpdateStat : bool;
  OptQuiet : bool;
  OptForce : bool;
  OptAll : bool;
  OptNoCreate : bool;
  OptPrefix : string;
  OptStage : string;
  OptTemp : bool;
  OptNullTerminate : bool
}.

(** [Index.GetStageMap]: later entries overwrite earlier ones with the same
    path and stage. *)
Fixpoint GetStageMap_loop (objs : list (option IndexEntry))
  (r : gmap (string * Z) IndexEntry) : Outcome (gmap (string * Z) IndexEntry) :=
  match objs with
  | [] => Ret r
  | None :: _ => Panic
  | Some entry :: more =>
      GetStageMap_loop more (<[(PathName entry, Stage entry) := entry]> r)
  end.

Definition GetStageMap (i : Index) : Outcome (gmap (string * Z) IndexEntry) :=
  GetStageMap_loop (Objects i) ∅.

Definition error_string (e : error) : string :=
  match e with
  | InvalidIndex => "Invalid index"
  | EOF => "EOF"
  | ErrUnexpectedEOF => "unexpected EOF"
  | Errorf msg => msg
  | OSError msg => msg
  end.

Section Checkout.

(** The state of the file system and object store, and what the code
    asks of them. *)
Variable World : Type.

Record System : Type := mkSystem {
  sysFilePath : string -> error + string;        (* IndexPath.FilePath *)
  sysIndexPath : string -> error + string;       (* File.IndexPath *)
  sysLsFilesKilled : list string -> World -> error + list string;
  sysRemoveAll : string -> World -> option error * World;
  sysTempFile : World -> (error + string) * World;
  sysGetObject : list byte -> World -> error + list byte;
  sysWrite : string -> list byte -> World -> option error * World;
  sysChmod : string -> Z -> World -> World;
  sysCreateIndex : World -> option error * World;
  sysWriteIndexFile : list byte -> World -> World
}.

Variable sys : System.

(** The running process: the world, and what went to standard output and
    standard error. *)
Record Proc : Type := mkProc {
  world : World;
  stdout : string;
  stderr : string
}.

(** A computation returns or panics, and leaves a process state either
    way. *)
Definition M (A : Type) : Type := Proc -> Outcome A * Proc.

Definition ret {A} (a : A) : M A := fun p => (Ret a, p).
Definition panic {A} : M A := fun p => (Panic, p).
Definition bind {A B} (m : M A) (k : A -> M B) : M B :=
  fun p => match m p with
           | (Ret a, p1) => k a p1
           | (Panic, p1) => (Panic, p1)
           end.
Definition lift {A} (o : Outcome A) : M A := fun p => (o, p).
Definition print (s : string) : M unit :=
  fun p => (Ret tt, mkProc (world p) (stdout p +:+ s) (stderr p)).
Definition eprint (s : string) : M unit :=
  fun p => (Ret tt, mkProc (world p) (stdout p) (stderr p +:+ s)).
Definition with_world {A} (f : World -> A * World) : M A :=
  fun p => let '(a, w) := f (world p) in
           (Ret a, mkProc w (stdout p) (stderr p)).
Definition ask_world {A} (f : World -> A) : M A :=
  fun p => (Ret (f (world p)), p).

Notation "x <-- m ;; k" := (bind m (fun x => k))
  (at level 90, m at next level, right associativity).
Notation "m ;;; k" := (bind m (fun _ => k))
  (at level 90, right associativity).

Definition newline : string := String (ascii_of_nat 10) "".
Definition tab : string := String (ascii_of_nat 9) "".

(** [checkoutTemp]. *)
Definition checkoutTemp (entry : IndexEntry) : M (string * option error) :=
  t <-- with_world (sysTempFile sys) ;;
  match t with
  | inl err => ret ("", Some err)
  | inr name =>
      o <-- ask_world (sysGetObject sys (Sha1 (Fixed entry))) ;;
      match o with
      | inl err => ret ("", Some err)
      | inr content =>
          w <-- with_world (sysWrite sys name content) ;;
          match w with
          | Some err => ret ("", Some err)
          | None =>
              with_world (fun w => (tt, sysChmod sys name (Mode (Fixed entry)) w)) ;;;
              ret (name, None)
          end
      end
  end.

Definition report (err : option error) : M unit :=
  match err with
  | Some e => eprint (error_string e +:+ newline)
  | None => ret tt
  end.

(** The body of the loop over [files] when [opts.Stage == "all"], from
    the stage-0 test to the [continue] that ends it.  In the last
    [else] branch [stg3] is the nil pointer the map lookup gave, and the
    argument [stg3.PathName] dereferences it. *)
Definition checkout_stage_all (opts : CheckoutIndexOptions)
  (stageMap : gmap (string * Z) IndexEntry) (indexpath : string)
  (delim : string) : M unit :=
  match stageMap !! (indexpath, Stage0) with
  | Some _ =>
      if negb (OptQuiet opts) then
        eprint ("git checkout-index: " +:+ indexpath
                  +:+ " does not exist at stage 0" +:+ newline)
      else ret tt
  | None =>
      match stageMap !! (indexpath, Stage1) with
      | Some stg1 =>
          r <-- checkoutTemp stg1 ;;
          report (snd r) ;;; print (fst r +:+ " ")
      | None => print ". "
      end ;;;
      match stageMap !! (indexpath, Stage2) with
      | Some stg2 =>
          r <-- checkoutTemp stg2 ;;
          report (snd r) ;;; print (fst r +:+ " ")
      | None => print ". "
      end ;;;
      match stageMap !! (indexpath, Stage3) with
      | Some stg3 =>
          r <-- checkoutTemp stg3 ;;
          report (snd r) ;;;
          print (fst r +:+ tab +:+ PathName stg3 +:+ delim)
      | None => panic
      end
  end.

Fixpoint checkout_files (opts : CheckoutIndexOptions)
  (stageMap : gmap (string * Z) IndexEntry) (delim : string)
  (files : list string) : M unit :=
  match files with
  | [] => ret tt
  | file :: more =>
      match sysIndexPath sys file with
      | inl err =>
          (if negb (OptQuiet opts) then eprint (error_string err +:+ newline)
           else ret tt) ;;;
          checkout_files opts stageMap delim more
      | inr indexpath =>
          checkout_stage_all opts stageMap indexpath delim ;;;
          checkout_files opts stageMap delim more
      end
  end.

(** The file list taken from the index under [opts.All]. *)
Fixpoint all_files (objs : list (option IndexEntry))
  : Outcome (error + list string) :=
  match objs with
  | [] => Ret (inr [])
  | None :: _ => Panic
  | Some entry :: more =>
      match sysFilePath sys (PathName entry) with
      | inl err => Ret (inl err)
      | inr f =>
          do r <- all_files more;
          Ret (match r with
               | inl err => inl err
               | inr fs => inr (f :: fs)
               end)
      end
  end.

(** The message listing the killed files (without [--force]). *)
Fixpoint killed_msg (first : bool) (killed : list string) : error + string :=
  match killed with
  | [] => inr ""
  | path :: more =>
      match sysFilePath sys path with
      | inl err => inl err
      | inr f =>
          match killed_msg false more with
          | inl err => inl err
          | inr msg =>
              inr ((if first then "" else newline)
                     +:+ "fatal: cannot create directory at '" +:+ f
                     +:+ "': File exists" +:+ msg)
          end
      end
  end.

Fixpoint remove_killed (killed : list string) : M (option error) :=
  match killed with
  | [] => ret None
  | path :: more =>
      match sysFilePath sys path with
      | inl err => ret (Some err)
      | inr f =>
          r <-- with_world (sysRemoveAll sys f) ;;
          match r with
          | Some err => ret (Some err)
          | None => remove_killed more
          end
      end
  end.

(** [CheckoutIndexUncommited] for options with [opts.Stage == "all"]:
    every iteration of the loop over [files] then ends in the stage-all
    block. *)
Definition CheckoutIndexUncommited_stage_all (idx : Index)
  (opts : CheckoutIndexOptions) (files : list string) : M (option error) :=
  fl <-- (if OptAll opts then lift (all_files (Objects idx))
          else ret (inr files)) ;;
  match fl with
  | inl err => ret (Some err)
  | inr files =>
      k <-- ask_world (sysLsFilesKilled sys files) ;;
      match k with
      | inl err => ret (Some err)
      | inr killed =>
          e <-- match killed with
                | [] => ret None
                | _ =>
                    if negb (OptForce opts) then
                      ret (Some (match killed_msg true killed with
                                 | inl err => err
                                 | inr msg => Errorf msg
                                 end))
                    else remove_killed killed
                end ;;
          match e with
          | Some err => ret (Some err)
          | None =>
              stageMap <-- lift (GetStageMap idx) ;;
              let delim := if OptNullTerminate opts
                           then String (ascii_of_nat 0) "" else newline in
              checkout_files opts stageMap delim files ;;;
              if OptUpdateStat opts then
                c <-- with_world (sysCreateIndex sys) ;;
                match c with
                | Some err => ret (Some err)
                | None =>
                    w <-- lift (WriteIndex idx) ;;
                    with_world (fun wd => (tt, sysWriteIndexFile sys (fst w) wd)) ;;;
                    ret (snd w)
                end
              else ret None
          end
      end
  end.

End Checkout.

(** ** Notions used in the statements, and the inputs of the examples *)

(** The name-length part of the flags of a new entry. *)
Definition name_bits (path : string) : Z :=
  let len := Z.of_nat (String.length path) in
  if 4095 <=? len then 4095 else Z.land (len mod 2 ^ 16) 4095.

(** [path] and the path of [e] are parent and child, one way or the other. *)
Definition prefix_related (path : string) (e : IndexEntry) : bool :=
  HasPrefix (PathName e) (path +:+ "/") || HasPrefix path (PathName e +:+ "/").

(** Where the entries of the index come from once the body of [AddStage]
    has returned: from the index before, with path and flags as they
    were, or from the arguments. *)
Definition from_before (g : Index) (path : string) (stage : Z)
  (e' : IndexEntry) : Prop :=
  (exists e, In (Some e) (Objects g) /\ PathName e' = PathName e /\
             Flags (Fixed e') = Flags (Fixed e)) \/
  (PathName e' = path /\ Flags (Fixed e') = new_flags path stage).

(** An index in the middle of a merge: "f" at stages 1, 2 and 3. *)
Definition conflict_index : Index :=
  mkIndex DIRC 2 3
    [Some (plain_entry "f" 1); Some (plain_entry "f" 2); Some (plain_entry "f" 3)].

Definition has_extended (g : Index) : Prop :=
  exists e, In (Some e) (Objects g) /\ ExtendedFlag e = true.

(** The invariant in the words of the specification: the version is 3 if
    and only if some entry has its extended flag set. *)
Definition version_iff_extended (g : Index) : Prop :=
  Version g = 3 <-> has_extended g.

(** The invariant the operations keep: the version is 2 or 3, and it is 3
    if some entry has its extended flag set. *)
Definition version_covers_extended (g : Index) : Prop :=
  (Version g = 2 \/ Version g = 3) /\ (has_extended g -> Version g = 3).

(** An index with one file, at version 2. *)
Definition one_file_index : Index :=
  mkIndex DIRC 2 1 [Some (plain_entry "a.txt" 0)].



(** Scenarios 3 and 4 of the specification: [dir/a] is in the index and
    [dir] is added. *)
Definition dir_index : Index := mkIndex DIRC 2 1 [Some (plain_entry "dir/a" 0)].

(** A system for the examples: the world counts the temporary files made,
    every path is its own file, nothing is killed and every object exists
    and is empty. *)
Definition counting_system : System nat :=
  mkSystem nat
    (fun p => inr p) (fun f => inr f)
    (fun _ _ => inr [])
    (fun _ w => (None, w))
    (fun w => (inr (".merge_file_" +:+ String (ascii_of_nat (48 + w)) ""), S w))
    (fun _ _ => inr [])
    (fun _ _ w => (None, w))
    (fun _ _ w => w)
    (fun w => (None, w))
    (fun _ w => w).

Definition stage_all_opts : CheckoutIndexOptions :=
  mkCheckoutOpts false false false false false "" "all" false false.

(** "f" in conflict, deleted on their side: stages 1 and 2 only. *)
Definition deleted_by_them : Index :=
  mkIndex DIRC 2 2 [Some (plain_entry "f" 1); Some (plain_entry "f" 2)].

(** The number of padding bytes in the words of the specification, with
    62 for the fixed block. *)
Definition spec_padding (entry : IndexEntry) : Z :=
  8 - ((62 + (if ExtendedFlag entry then 2 else 0)
        + Z.of_nat (String.length (PathName entry)) + 4) mod 8).

(** The flags record the length of the name, which is below [0xFFF]. *)
Definition short_name (entry : IndexEntry) : Prop :=
  Z.of_nat (String.length (PathName entry)) < 4095 /\
  Z.land (Flags (Fixed entry)) 4095 = Z.of_nat (String.length (PathName entry)).

(** The file as the [k]-th call of [ReadIndexEntry] in the loop of
    [ReadIndex] finds it. *)
Fixpoint reader_at (k : nat) (file : Reader) (version : Z) : Outcome Reader :=
  match k with
  | O => Ret file
  | S k' =>
      do '(_, r1) <- ReadIndexEntry file version;
      reader_at k' r1 version
  end.

Definition slot (res : error + IndexEntry) : option IndexEntry :=
  match res with
  | inl _ => None
  | inr index => Some index
  end.

(** A version-2 file that declares one entry and ends ten bytes into it. *)
Definition cut_in_fixed_block : list byte :=
  encode_header DIRC 2 1 ++ firstn 10 (encode_fixed (Fixed (plain_entry "a.txt" 0))).

(** A version-2 file that declares one entry, "a.txt", and ends after the
    first two bytes of the name. *)
Definition cut_in_name : list byte :=
  encode_header DIRC 2 1 ++ encode_fixed (Fixed (plain_entry "a.txt" 0))
    ++ bytes_of_string "a.".

Definition uint16 (z : Z) : Prop := 0 <= z < 2 ^ 16.
Definition uint32 (z : Z) : Prop := 0 <= z < 2 ^ 32.
Definition int64 (z : Z) : Prop := - 2 ^ 63 <= z < 2 ^ 63.

(** The fields are values of their Go types. *)
Definition wf_fixed (f : FixedIndexEntry) : Prop :=
  uint32 (Ctime f) /\ uint32 (Ctimenano f) /\ int64 (Mtime f) /\
  uint32 (Dev f) /\ uint32 (Ino f) /\ uint32 (Mode f) /\ uint32 (Uid f) /\
  uint32 (Gid f) /\ uint32 (Fsize f) /\ length (Sha1 f) = 20%nat /\
  uint16 (Flags f).

(** An entry as [WriteIndex] can write it and [ReadIndexEntry] reads it:
    fields in the range of their types, a name shorter than [0xFFF] with
    its length in the flags, and the extended flag only in version 3 and
    with the extension present. *)
Definition wf_entry (version : Z) (e : IndexEntry) : Prop :=
  wf_fixed (Fixed e) /\ short_name e /\
  (ExtendedFlag e = true ->
   version <> 2 /\ exists v, V3 e = Some v /\ uint16 (ExtFlags v)).

(** The entry as it comes back: without the extension when the extended
    flag is clear (it is not written then). *)
Definition on_disk (e : IndexEntry) : IndexEntry :=
  mkEntry (Fixed e) (if ExtendedFlag e then V3 e else None) (PathName e).

Definition ext_bytes (e : IndexEntry) : list byte :=
  if ExtendedFlag e then
    match V3 e with
    | Some v => be_encode 2 (ExtFlags v)
    | None => []
    end
  else [].

(** The record of one entry. *)
Definition entry_bytes (e : IndexEntry) : list byte :=
  encode_fixed (Fixed e) ++ ext_bytes e ++ bytes_of_string (PathName e)
    ++ repeat x00 (Z.to_nat (write_padding e)).

(** An index that [WriteIndex] writes and [ReadIndex] reads back: no nil
    entries, the signature, version 2 or 3, entries as described by
    [wf_entry], and a count that fits 32 bits. *)
Definition wf_index (g : Index) (es : list IndexEntry) : Prop :=
  Objects g = map Some es /\ Signature g = DIRC /\
  (Version g = 2 \/ Version g = 3) /\
  Forall (wf_entry (Version g)) es /\
  Z.of_nat (length es) < 2 ^ 32.

(** The bytes before the trailer. *)
Definition index_body (g : Index) (sorted : list IndexEntry) : list byte :=
  encode_header (Signature g) (Version g) (Z.of_nat (length sorted))
    ++ concat (map entry_bytes sorted).


(** A path of 4097 bytes: its length does not fit the twelve bits of the
    flags, which hold [0xFFF], and 62 + 4097 is 7 modulo 8. *)
Definition long_path : string := string_of_list_ascii (repeat "a"%char 4097).

Definition long_name_index : Index :=
  mkIndex DIRC 2 2 [Some (plain_entry long_path 0); Some (plain_entry "b" 0)].

(** What [WriteIndex] sends to the writer. *)
Definition written (g : Index) : list byte :=
  match WriteIndex g with
  | Ret (bytes, _) => bytes
  | Panic => []
  end.

(** ** The order of the index *)

(** The sort key of an entry: [ByPath.Less] looks at nothing else. *)
Definition sort_key (e : IndexEntry) : string * Z := (PathName e, Stage e).

(** [a] does not come after [b]. *)
Definition not_after (a b : IndexEntry) : Prop := Less b a = false.

(** Strictly ascending under [ByPath.Less]: invariant 3 of the data model. *)
Definition ascending (es : list IndexEntry) : Prop :=
  StronglySorted (fun a b => Less a b = true) es.

(** An index without nil entries whose entries ascend strictly. *)
Definition index_sorted (g : Index) : Prop :=
  exists es, Objects g = map Some es /\ ascending es.

(** [l'] comes from [l] by dropping entries and by changing entries in
    place without touching their path and stage: what the loops of the
    operations do to the slice. *)
Inductive thinned : list IndexEntry -> list IndexEntry -> Prop :=
| thinned_nil : thinned [] []
| thinned_drop (x : IndexEntry) (l' l : list IndexEntry) :
    thinned l' l -> thinned l' (x :: l)
| thinned_keep (x' x : IndexEntry) (l' l : list IndexEntry) :
    sort_key x' = sort_key x -> thinned l' l -> thinned (x' :: l') (x :: l).

(** ** Lookups in the index *)

(** [Index.GetSha1]: the hash of the first entry with this path, the zero
    hash when there is none. *)
Fixpoint GetSha1_loop (objs : list (option IndexEntry)) (path : string)
  : Outcome (list byte) :=
  match objs with
  | [] => Ret (repeat x00 20)
  | None :: _ => Panic
  | Some entry :: rest =>
      if (PathName entry =? path)%string then Ret (Sha1 (Fixed entry))
      else GetSha1_loop rest path
  end.

Definition GetSha1 (g : Index) (path : string) : Outcome (list byte) :=
  GetSha1_loop (Objects g) path.

(** The test of the loops that look an entry up by its path. *)
Definition named (path : string) (e : IndexEntry) : bool :=
  (PathName e =? path)%string.

(** What [RemoveUnmergedStages] keeps. *)
Definition merged_or_other (path : string) (e : IndexEntry) : bool :=
  negb ((PathName e =? path)%string && negb (Stage e =? Stage0)).

(** ** What [WriteIndex] refuses *)


(** A file that holds nothing but the header of a version-4 index with one
    entry. *)
Definition version4_header : list byte := encode_header DIRC 4 1.

(** ** Views of the index: [GetMap], [Contains], [HasDir], [GetUnmerged] *)

(** [Index.GetMap]: a later entry with the same path overwrites an earlier
    one. *)
Fixpoint GetMap_loop (objs : list (option IndexEntry))
  (r : gmap string IndexEntry) : Outcome (gmap string IndexEntry) :=
  match objs with
  | [] => Ret r
  | None :: _ => Panic
  | Some entry :: more => GetMap_loop more (<[PathName entry := entry]> r)
  end.

Definition GetMap (i : Index) : Outcome (gmap string IndexEntry) :=
  GetMap_loop (Objects i) ∅.

(** [IndexMap.HasDir], for a map without nil values, as [GetMap] builds
    it.  Go ranges over a map in no fixed order; the loop only looks for
    one value that passes the test, so the order does not show. *)
Definition HasDir (im : gmap string IndexEntry) (path : string) : bool :=
  existsb (fun kv => HasPrefix (PathName (snd kv)) (path +:+ "/"))
          (map_to_list im).

(** [IndexMap.Contains]. *)
Definition Contains (im : gmap string IndexEntry) (path : string) : bool :=
  match im !! path with
  | Some _ => true
  | None => HasDir im path
  end.

(** [UnmergedPath]: three pointers, nil until set. *)
Record UnmergedPath : Type := mkUnmerged {
  UStage1 : option IndexEntry;
  UStage2 : option IndexEntry;
  UStage3 : option IndexEntry
}.

(** The [switch] of [GetUnmerged]. *)
Definition set_stage (e : UnmergedPath) (entry : IndexEntry) : UnmergedPath :=
  if Stage entry =? Stage1 then mkUnmerged (Some entry) (UStage2 e) (UStage3 e)
  else if Stage entry =? Stage2 then mkUnmerged (UStage1 e) (Some entry) (UStage3 e)
  else if Stage entry =? Stage3 then mkUnmerged (UStage1 e) (UStage2 e) (Some entry)
  else e.

(** [Index.GetUnmerged].  The map holds pointers to [UnmergedPath]; the
    assignment through the pointer is the insertion of the changed
    record. *)
Fixpoint GetUnmerged_loop (objs : list (option IndexEntry))
  (r : gmap string UnmergedPath) : Outcome (gmap string UnmergedPath) :=
  match objs with
  | [] => Ret r
  | None :: _ => Panic
  | Some entry :: more =>
      if negb (Stage entry =? Stage0) then
        let e := match r !! PathName entry with
                 | Some e => e
                 | None => mkUnmerged None None None
                 end in
        GetUnmerged_loop more (<[PathName entry := set_stage e entry]> r)
      else GetUnmerged_loop more r
  end.

Definition GetUnmerged (i : Index) : Outcome (gmap string UnmergedPath) :=
  GetUnmerged_loop (Objects i) ∅.
(** The map of [GetUnmerged] and the map of [GetStageMap] tell the same
    about the stages 1 to 3 of every path, and the first has a path only
    when one of these stages is there. *)
Definition unmerged_agree (r : gmap string UnmergedPath)
  (sm : gmap (string * Z) IndexEntry) : Prop :=
  forall path,
    match r !! path with
    | Some u =>
        UStage1 u = sm !! (path, Stage1) /\
        UStage2 u = sm !! (path, Stage2) /\
        UStage3 u = sm !! (path, Stage3) /\
        (is_Some (sm !! (path, Stage1)) \/ is_Some (sm !! (path, Stage2)) \/
         is_Some (sm !! (path, Stage3)))
    | None =>
        sm !! (path, Stage1) = None /\ sm !! (path, Stage2) = None /\
        sm !! (path, Stage3) = None
    end.

(** ** Symbolic refs: [SymbolicRefUpdate] of [git/symbolicref.go] *)

(** The files below [GitDir] are a map from names to contents.
    [c.GitDir.Open] followed by [ioutil.ReadAll], which is taken not to
    fail on a file that could be opened. *)
Definition open_ref (files : gmap string (list byte)) (symname : string) : RefFile :=
  match files !! symname with
  | Some contents => RefContents contents
  | None => RefOpenFailed
  end.

Section SymbolicRefUpdate.

(** [RefSpec.String], of [git/refspec.go]. *)
Variable RefSpecString : string -> string.

(** What the verb [%s] of [fmt] prints for a [RefSpec]. *)
Variable format_s : string -> string.

(** [fmt.Fprintf] with a format and no operand. *)
Variable format_plain : string -> string.

(** Whether [GitDir.Create] ([os.Create]) gets the file. *)
Variable creatable : string -> bool.

(** [SymbolicRefUpdate]: the value returned, the files afterwards and
    what went to standard error.  [os.Create] truncates the file; the
    write to it is taken not to fail. *)
Definition SymbolicRefUpdate (files : gmap string (list byte))
  (reflogmessage symname refvalue : string) : string * gmap string (list byte) * string :=
  if negb (HasPrefix (RefSpecString refvalue) "refs/") then
    ("", files,
     format_plain ("fatal: Refusing to point " +:+ symname
                     +:+ " outside of refs/"))
  else if negb (creatable symname) then ("", files, "")
  else
    ("", <[symname := bytes_of_string ("ref: " +:+ format_s refvalue)]> files,
     "").

End SymbolicRefUpdate.

(** ** [FixedIndexEntry.CompareStat] *)

Section CompareStat.

(** [File.IsSymlink] and [os.Readlink], which [RefreshStat] has no use
    for. *)
Variable IsSymlink : string -> bool.
Variable Readlink : string -> error + string.

(** [FixedIndexEntry.CompareStat]: nil when the stat of the file is the
    one recorded.  [%v] prints a [File] as the string it is. *)
Definition CompareStat (fs : FileSystem) (i : FixedIndexEntry) (f : string)
  : option error :=
  match LstatSize fs f with
  | inl err => Some err
  | inr size =>
      match MTime fs f with
      | inl err => Some err
      | inr fmtime =>
          if negb (Mtime i =? fmtime) then
            Some (Errorf ("MTime does not match for " +:+ f))
          else
            let sizes : option error :=
              if IsSymlink f then
                match Readlink f with
                | inl err => Some err
                | inr dst =>
                    if negb (Fsize i =? Z.of_nat (String.length dst)) then
                      Some (Errorf ("Size does not match for symlink " +:+ f))
                    else None
                end
              else if negb (Fsize i =? size mod 2 ^ 32) then
                Some (Errorf ("Size does not match for " +:+ f))
              else None in
            match sizes with
            | Some err => Some err
            | None =>
                let '(ctime, ctimenano) := CTime fs f in
                if negb (Ctime i =? ctime) || negb (Ctimenano i =? ctimenano)
                then Some (Errorf ("CTime does not match for " +:+ f))
                else if negb (Ino i =? INode fs f) then
                  Some (Errorf ("INode does not match for " +:+ f))
                else None
            end
      end
  end.

End CompareStat.

(** A working tree with one regular file, "a.txt", of 7 bytes. *)
Definition one_file_fs : FileSystem :=
  mkFS (fun p => inr p) (fun p => (p =? "a.txt")%string)
       (fun p => if (p =? "a.txt")%string then inr 7
                 else inl (OSError "no such file or directory"))
       (fun p => if (p =? "a.txt")%string then inr 1500000000
                 else inl (OSError "no such file or directory"))
       (fun _ => (1500000000, 42)) (fun _ => 99).

(** ** [Client.GetHeadBranch] *)

(** [strings.Split(s, "/")]: the pieces between the slashes, one more than
    there are slashes. *)
Fixpoint split_slash (s : string) : list string :=
  match s with
  | EmptyString => [""]
  | String c s' =>
      if Ascii.eqb c "/" then "" :: split_slash s'
      else match split_slash s' with
           | [] => [String c ""]
           | piece :: more => String c piece :: more
           end
  end.

Section GetHeadBranch.

Variable TrimSpace : string -> string.

(** [GetHeadBranch], from the bytes [ioutil.ReadAll] returned for HEAD.
    The errors of [Open] and [ReadAll] are dropped: a HEAD that could not
    be opened is read as no bytes at all. *)
Definition GetHeadBranch (contents : list byte) : Outcome string :=
  let value := ReadAll contents in
  do pre <- slice_upto value 5;
  if negb (String.eqb (string_of_bytes pre) "ref: ") then Panic
  else
    do tail <- slice_from value 5;
    match split_slash (string_of_bytes tail) with
    | [r0; r1; r2] =>
        if negb (String.eqb r0 "refs") || negb (String.eqb r1 "heads")
        then Panic
        else Ret (TrimSpace r2)
    | _ => Panic
    end.

End GetHeadBranch.

(** No byte of the string is a slash. *)
Fixpoint no_slash (s : string) : bool :=
  match s with
  | EmptyString => true
  | String c s' => negb (Ascii.eqb c "/") && no_slash s'
  end.

(** [strings.Join(pieces, "/")]. *)
Fixpoint join_slash (pieces : list string) : string :=
  match pieces with
  | [] => ""
  | [piece] => piece
  | piece :: more => piece +:+ String "/" (join_slash more)
  end.

(** ** checkout-index [--stdin]: [CheckoutIndexFromReaderUncommited] *)

(** The successive results of [reader.ReadString(delim)] that come with a
    nil error, each without its delimiter ([strings.TrimSuffix]), and what
    is left of the input after the last delimiter: [ReadString] returns
    that piece together with [io.EOF]. *)
Fixpoint read_strings (delim : ascii) (input : string) : list string * string :=
  match input with
  | EmptyString => ([], "")
  | String c rest =>
      let '(pieces, remaining) := read_strings delim rest in
      if Ascii.eqb c delim then ("" :: pieces, remaining)
      else match pieces with
           | [] => ([], String c remaining)
           | piece :: more => (String c piece :: more, remaining)
           end
  end.

Section FromReader.

Variable World : Type.

(** [CheckoutIndexUncommited] with the client, the index and the options
    of the call, as a function of the files. *)
Variable CheckoutIndexUncommited : list string -> M World (option error).

(** The body of the loop, for the names read in turn. *)
Fixpoint checkout_each (names : list string) : M World unit :=
  match names with
  | [] => ret World tt
  | f :: more =>
      bind World (CheckoutIndexUncommited [f])
        (fun e => bind World (report World e)
                    (fun _ => checkout_each more))
  end.

(** [CheckoutIndexFromReaderUncommited]; [stdin] is what [opts.Stdin]
    delivers, [None] for a nil reader. *)
Definition CheckoutIndexFromReaderUncommited (stdin : option string)
  (nullTerminate : bool) : M World (option error) :=
  match stdin with
  | None => ret World (Some (Errorf "Invalid Reader for opts.Stdin"))
  | Some input =>
      let delim := if nullTerminate then ascii_of_nat 0 else ascii_of_nat 10 in
      bind World (checkout_each (fst (read_strings delim input)))
        (fun _ => ret World None)
  end.

End FromReader.

(** No byte of the string is [c]. *)
Fixpoint lacks (c : ascii) (s : string) : bool :=
  match s with
  | EmptyString => true
  | String x s' => negb (Ascii.eqb x c) && lacks c s'
  end.

(** The names, each followed by the delimiter. *)
Fixpoint terminated (delim : ascii) (names : list string) : string :=
  match names with
  | [] => ""
  | name :: more => name +:+ String delim (terminated delim more)
  end.

(** ** [UpdateRef]: what is made of the arguments *)

(** The loop over [args]: [skipNext] is never set, so every "-m" counts,
    and [startAt] ends two past the last one. *)
Fixpoint startAt_loop (idx : nat) (args : list string) (startAt : nat) : nat :=
  match args with
  | [] => startAt
  | val :: more =>
      startAt_loop (S idx) more
        (if (val =? "-m")%string then (idx + 2)%nat else startAt)
  end.

(** [UpdateRef] up to the assignment of [newValue]: the argument naming
    the ref and the new value, or the panic.  [args[startAt:]] panics when
    [startAt] is beyond the length. *)
Definition UpdateRef_args (args : list string) : Outcome (string * string) :=
  let startAt := startAt_loop 0 args 0 in
  if (length args <? startAt)%nat then Panic
  else
    match skipn startAt args with
    | [] | [_] => Panic
    | [ref; newValue] => Ret (ref, newValue)
    | _ => Panic
    end.

Definition is_m (s : string) : bool := (s =? "-m")%string.

(** ** [findGitDir] *)

Section FindGitDir.

(** [os.Stat] of the path succeeds and [IsDir] holds of the result. *)
Variable isdir : string -> bool.

(** The loop of [findGitDir], [i] running down from the number of pieces
    to 1. *)
Fixpoint findGitDir_loop (pieces : list string) (i : nat) : string :=
  match i with
  | O => ""
  | S j =>
      let dir := join_slash (firstn i pieces) in
      if isdir (dir +:+ "/.git") then dir +:+ "/.git"
      else findGitDir_loop pieces j
  end.

(** [findGitDir], from what [os.Getwd] returned. *)
Definition findGitDir (getwd : error + string) : string :=
  match getwd with
  | inl _ => ""
  | inr startPath =>
      if isdir (startPath +:+ "/.git") then startPath +:+ "/.git"
      else
        let pieces := split_slash startPath in
        findGitDir_loop pieces (length pieces)
  end.

End FindGitDir.

(** The directory made of the first [i] pieces of the path. *)
Definition ancestor (startPath : string) (i : nat) : string :=
  join_slash (firstn i (split_slash startPath)).

(** * Properties *)

(** ** Bytes and strings *)

Lemma byte_eqb_eq (a b : byte) : Byte.eqb a b = true <-> a = b.
Proof.
  split.
  - intros H. apply Byte.byte_dec_bl. exact H.
  - intros ->. apply Byte.byte_dec_lb. reflexivity.
Qed.

Lemma bytes_eqb_eq (a b : list byte) : bytes_eqb a b = true <-> a = b.
Proof.
  revert b. induction a as [|x a IH]; intros [|y b]; simpl; split;
    try congruence; try reflexivity.
  - intros H. apply andb_true_iff in H as [Hx Hab].
    apply byte_eqb_eq in Hx. apply IH in Hab. congruence.
  - intros H. injection H as -> ->. apply andb_true_iff. split.
    + apply byte_eqb_eq. reflexivity.
    + apply IH. reflexivity.
Qed.

Lemma string_of_bytes_eqb (l : list byte) (s : string) :
  String.eqb (string_of_bytes l) s = bytes_eqb l (bytes_of_string s).
Proof.
  unfold string_of_bytes, bytes_of_string.
  destruct (bytes_eqb l (list_byte_of_string s)) eqn:E.
  - apply bytes_eqb_eq in E. subst l.
    rewrite string_of_list_byte_of_string. apply String.eqb_refl.
  - apply String.eqb_neq. intros H. subst s.
    rewrite list_byte_of_string_of_list_byte in E.
    assert (bytes_eqb l l = true) by (apply bytes_eqb_eq; reflexivity).
    congruence.
Qed.

(** ** Symbolic refs *)

Lemma ReadAll_capacity (contents : list byte) :
  (512 <= length (arr (ReadAll contents)))%nat.
Proof. unfold ReadAll. simpl. rewrite length_app, repeat_length. lia. Qed.

(** The first five bytes of the buffer are the magic only if the first five
    bytes of the file are: the zero fill never completes it. *)
Lemma ReadAll_prefix (contents : list byte) :
  bytes_eqb (firstn 5 (contents ++ repeat x00 (512 - length contents)))
            (bytes_of_string "ref: ")
  = bytes_eqb (firstn 5 contents) (bytes_of_string "ref: ").
Proof.
  destruct contents as [|b1 [|b2 [|b3 [|b4 [|b5 contents]]]]];
    try reflexivity; simpl;
    repeat (destruct (Byte.eqb _ _); simpl; try reflexivity).
Qed.

(** C9. For file contents of any length, also fewer than five bytes,
    [SymbolicRefGet] returns the trimmed remainder when the contents begin
    with the five bytes "ref: ", and the empty RefSpec otherwise. *)
Theorem SymbolicRefGet_prefix (TrimSpace : string -> string) (contents : list byte) :
  SymbolicRefGet TrimSpace (RefContents contents) =
  Ret (if bytes_eqb (firstn 5 contents) (bytes_of_string "ref: ")
       then TrimSpace (string_of_bytes (skipn 5 contents))
       else "").
Proof.
  unfold SymbolicRefGet, slice_upto.
  pose proof (ReadAll_capacity contents) as Hcap.
  destruct (5 <=? length (arr (ReadAll contents)))%nat eqn:E;
    [|apply Nat.leb_gt in E; lia].
  simpl obind. rewrite string_of_bytes_eqb, ReadAll_prefix.
  destruct (bytes_eqb (firstn 5 contents) (bytes_of_string "ref: ")) eqn:Hp;
    simpl; [|reflexivity].
  apply bytes_eqb_eq in Hp.
  assert (Hlen : (5 <= length contents)%nat).
  { apply (f_equal (@length byte)) in Hp. rewrite length_firstn in Hp.
    change (length (bytes_of_string "ref: ")) with 5%nat in Hp. lia. }
  unfold slice_from, ReadAll. simpl len. simpl arr.
  destruct (5 <=? length contents)%nat eqn:E5; [|apply Nat.leb_gt in E5; lia].
  simpl. rewrite firstn_app, Nat.sub_diag, firstn_all. simpl.
  rewrite app_nil_r. reflexivity.
Qed.

Example SymbolicRefGet_head :
  SymbolicRefGet (fun s => s) (RefContents (bytes_of_string "ref: refs/heads/master"))
  = Ret "refs/heads/master".
Proof. vm_compute. reflexivity. Qed.

Example SymbolicRefGet_short :
  SymbolicRefGet (fun s => s) (RefContents (bytes_of_string "ref")) = Ret "".
Proof. vm_compute. reflexivity. Qed.

(** ** Flags *)

Lemma FixedExtendedFlag_testbit (f : FixedIndexEntry) :
  FixedExtendedFlag f = Z.testbit (Flags f) 14.
Proof.
  unfold FixedExtendedFlag. rewrite Z.shiftr_div_pow2 by lia.
  change 1 with (Z.ones 1) at 1. rewrite Z.land_ones by lia.
  pose proof (Z.testbit_spec' (Flags f) 14 ltac:(lia)) as H.
  change (2 ^ 1) with 2. rewrite <- H.
  destruct (Z.testbit (Flags f) 14); reflexivity.
Qed.

Lemma name_bits_range (x : Z) : 0 <= Z.land x 4095 < 4096.
Proof.
  change 4095 with (Z.ones 12). rewrite Z.land_ones by lia.
  apply Z.mod_pos_bound. lia.
Qed.

Lemma name_bits_bound (path : string) : 0 <= name_bits path < 4096.
Proof.
  unfold name_bits. destruct (4095 <=? _); [lia | apply name_bits_range].
Qed.

Lemma new_flags_split (path : string) (stage : Z) :
  new_flags path stage = Z.lor (Z.shiftl stage 12 mod 2 ^ 16) (name_bits path).
Proof. unfold new_flags, name_bits. destruct (4095 <=? _); reflexivity. Qed.

Lemma testbit_small (x n : Z) : 0 <= x < 2 ^ n -> 0 <= n -> Z.testbit x n = false.
Proof.
  intros Hx Hn. apply Z.testbit_false; [lia|].
  rewrite Z.div_small by lia. reflexivity.
Qed.

(** For a merge stage (0 to 3) the new entry has the stage in bits 13-12
    and the extended bit clear. *)
Lemma new_flags_stage (path : string) (stage : Z) :
  0 <= stage <= 3 ->
  Z.land (Z.shiftr (new_flags path stage) 12) 3 = stage /\
  Z.testbit (new_flags path stage) 14 = false.
Proof.
  intros Hs. rewrite new_flags_split.
  pose proof (name_bits_bound path) as Hb.
  assert (Hst : stage = 0 \/ stage = 1 \/ stage = 2 \/ stage = 3) by lia.
  split.
  - rewrite Z.shiftr_lor.
    rewrite (Z.shiftr_div_pow2 (name_bits path)) by lia.
    rewrite (Z.div_small (name_bits path)) by lia.
    rewrite Z.lor_0_r.
    destruct Hst as [-> | [-> | [-> | ->]]]; reflexivity.
  - rewrite Z.lor_spec. rewrite (testbit_small (name_bits path)) by lia.
    destruct Hst as [-> | [-> | [-> | ->]]]; reflexivity.
Qed.

(** ** Paths *)

Lemma prefix_length (a b : string) :
  String.prefix a b = true -> (String.length a <= String.length b)%nat.
Proof.
  revert b. induction a as [|c a IH]; intros b H; [simpl; lia|].
  destruct b as [|d b]; simpl in H; [discriminate|].
  destruct (ascii_dec c d); [|discriminate].
  apply IH in H. simpl. lia.
Qed.

Lemma length_append (a b : string) :
  String.length (a +:+ b) = (String.length a + String.length b)%nat.
Proof.
  induction a as [|c a IH]; simpl; [reflexivity | rewrite IH; reflexivity].
Qed.

(** A path is not under itself. *)
Lemma HasPrefix_self_slash (p : string) : HasPrefix p (p +:+ "/") = false.
Proof.
  unfold HasPrefix. destruct (String.prefix (p +:+ "/") p) eqn:E; [|reflexivity].
  apply prefix_length in E. rewrite length_append in E. simpl in E. lia.
Qed.

Lemma prefix_related_self (path : string) (e : IndexEntry) :
  PathName e = path -> prefix_related path e = false.
Proof.
  intros <-. unfold prefix_related. rewrite HasPrefix_self_slash. reflexivity.
Qed.

(** ** Sorting permutes *)

Lemma insert_sorted_perm (x : IndexEntry) (l : list IndexEntry) :
  Permutation (insert_sorted x l) (x :: l).
Proof.
  induction l as [|y l IH]; simpl; [reflexivity|].
  destruct (Less x y); [reflexivity|].
  rewrite IH. apply perm_swap.
Qed.

Lemma sort_entries_perm (l : list IndexEntry) : Permutation (sort_entries l) l.
Proof.
  unfold sort_entries.
  assert (H : forall acc, Permutation
            (fold_left (fun acc x => insert_sorted x acc) l acc) (l ++ acc)).
  { induction l as [|x l IH]; intros acc; simpl; [reflexivity|].
    rewrite IH, insert_sorted_perm. symmetry. apply Permutation_middle. }
  rewrite H, app_nil_r. reflexivity.
Qed.

Lemma deref_all_Ret (objs : list (option IndexEntry)) (es : list IndexEntry) :
  deref_all objs = Ret es -> objs = map Some es.
Proof.
  revert es. induction objs as [|[e|] objs IH]; intros es H; simpl in H.
  - injection H as <-. reflexivity.
  - destruct (deref_all objs) as [es'|]; simpl in H; [|discriminate].
    injection H as <-. simpl. f_equal. apply IH. reflexivity.
  - discriminate.
Qed.

Lemma SortByPath_perm (objs sorted : list (option IndexEntry)) :
  SortByPath objs = Ret sorted -> Permutation sorted objs.
Proof.
  unfold SortByPath. intros H.
  destruct objs as [|a [|b objs]]; try (injection H as <-; reflexivity).
  destruct (deref_all (a :: b :: objs)) as [es|] eqn:E; simpl in H; [|discriminate].
  injection H as <-. apply deref_all_Ret in E. rewrite E.
  apply Permutation_map, sort_entries_perm.
Qed.

(** ** What the loops keep *)

Tactic Notation "outcome_inv" hyp(H) "as" ident(p) :=
  match type of H with
  | obind ?m _ = Ret _ =>
      let E := fresh "E" in
      destruct m as [p|] eqn:E; simpl in H; [|discriminate H]
  end.

Lemma replaceEntriesScan_kept (path : string) (replace : bool)
  (objs newObjects : list (option IndexEntry)) :
  replaceEntriesScan path replace objs = Ret (inr newObjects) ->
  (forall x, In x newObjects -> In x objs) /\
  (forall e, In (Some e) objs -> prefix_related path e = false ->
             In (Some e) newObjects) /\
  (forall x, In x newObjects ->
             exists e, x = Some e /\ prefix_related path e = false).
Proof.
  revert newObjects.
  induction objs as [|[e|] objs IH]; intros newObjects H; simpl in H.
  - injection H as <-. repeat split; simpl; intros; tauto.
  - unfold prefix_related.
    destruct (HasPrefix (PathName e) (path +:+ "/")) eqn:E1.
    { destruct replace; simpl in H; [|discriminate].
      destruct (IH _ H) as (A & B & C). repeat split.
      - intros x Hx. right. auto.
      - intros e' [He|He] Hr; [|auto].
        injection He as <-. rewrite E1 in Hr. discriminate.
      - exact C. }
    destruct (HasPrefix path (PathName e +:+ "/")) eqn:E2.
    { destruct replace; simpl in H; [|discriminate].
      destruct (IH _ H) as (A & B & C). repeat split.
      - intros x Hx. right. auto.
      - intros e' [He|He] Hr; [|auto].
        injection He as <-. rewrite E1, E2 in Hr. discriminate.
      - exact C. }
    outcome_inv H as r. destruct r as [err|l]; [discriminate|].
    injection H as <-. destruct (IH _ eq_refl) as (A & B & C). repeat split.
    + intros x [<-|Hx]; [left; reflexivity | right; auto].
    + intros e' [He|He] Hr; [left; exact He | right; auto].
    + intros x [<-|Hx]; [|auto].
      exists e. split; [reflexivity|]. rewrite E1, E2. reflexivity.
  - discriminate.
Qed.

Lemma RemoveUnmergedStages_loop_kept (objs newobjects : list (option IndexEntry))
  (path : string) :
  RemoveUnmergedStages_loop objs path = Ret newobjects ->
  forall x, In x newobjects <->
            In x objs /\ exists e, x = Some e /\
                                   (PathName e = path -> Stage e = 0).
Proof.
  revert newobjects.
  induction objs as [|[e|] objs IH]; intros newobjects H; simpl in H.
  - injection H as <-. simpl. intros x. split; [tauto | intros [[] _]].
  - outcome_inv H as l. specialize (IH _ eq_refl).
    destruct (PathName e =? path)%string eqn:Ep;
      destruct (Stage e =? Stage0) eqn:Es; simpl in H; injection H as <-;
      intros x; simpl; rewrite ?IH.
    + apply Z.eqb_eq in Es. split.
      * intros [<-|[Hx Hm]]; [|tauto]. split; [tauto|]. eauto.
      * intros [[<-|Hx] Hm]; tauto.
    + apply Z.eqb_neq in Es. apply String.eqb_eq in Ep. split.
      * intros [Hx Hm]. tauto.
      * intros [[<-|Hx] Hm]; [|tauto].
        destruct Hm as (e' & He' & Hm). injection He' as <-.
        exfalso. apply Es. exact (Hm Ep).
    + apply String.eqb_neq in Ep. split.
      * intros [<-|[Hx Hm]]; [|tauto]. split; [tauto|].
        exists e. split; [reflexivity | intros; contradiction].
      * intros [[<-|Hx] Hm]; tauto.
    + apply String.eqb_neq in Ep. split.
      * intros [<-|[Hx Hm]]; [|tauto]. split; [tauto|].
        exists e. split; [reflexivity | intros; contradiction].
      * intros [[<-|Hx] Hm]; tauto.
  - discriminate.
Qed.

Lemma find_stage_found (objs : list (option IndexEntry)) (path : string)
  (stage : Z) (entry : IndexEntry) :
  find_stage objs path stage = Ret (Some entry) ->
  In (Some entry) objs /\ same_stage entry path stage = true.
Proof.
  induction objs as [|[e|] objs IH]; simpl; intros H; try discriminate.
  destruct (same_stage e path stage) eqn:E.
  - injection H as <-. split; [left; reflexivity | exact E].
  - destruct (IH H). split; [right|]; assumption.
Qed.

Lemma update_entry_origin (objs : list (option IndexEntry)) (path : string)
  (stage : Z) (new : IndexEntry) (x : option IndexEntry) :
  In x (update_entry objs path stage new) -> In x objs \/ x = Some new.
Proof.
  induction objs as [|[e|] objs IH]; simpl; [tauto| |].
  - destruct (same_stage e path stage); simpl.
    + intros [<-|Hx]; tauto.
    + intros [<-|Hx]; [tauto|]. destruct (IH Hx); tauto.
  - intros [<-|Hx]; [tauto|]. destruct (IH Hx); tauto.
Qed.

Lemma update_entry_written (objs : list (option IndexEntry)) (path : string)
  (stage : Z) (new e : IndexEntry) :
  In (Some e) objs -> same_stage e path stage = true ->
  In (Some new) (update_entry objs path stage new).
Proof.
  induction objs as [|[e'|] objs IH]; simpl; [tauto| |].
  - intros [He|He] Hs.
    + injection He as ->. rewrite Hs. left. reflexivity.
    + destruct (same_stage e' path stage); [left; reflexivity | right; auto].
  - intros [He|He] Hs; [discriminate | right; auto].
Qed.

Lemma RefreshStat_key (fs : FileSystem) (ie : IndexEntry) :
  PathName (fst (RefreshStat fs ie)) = PathName ie /\
  Flags (Fixed (fst (RefreshStat fs ie))) = Flags (Fixed ie).
Proof.
  unfold RefreshStat, FixedRefreshStat.
  destruct (FilePath fs (PathName ie)) as [err|f]; [split; reflexivity|].
  destruct (LstatSize fs f) as [err|size]; [split; reflexivity|].
  destruct (MTime fs f) as [err|m]; [split; reflexivity|].
  destruct (CTime fs f) as [csec cnano]. split; reflexivity.
Qed.

Lemma RemoveFile_loop_origin (objs objs' : list (option IndexEntry))
  (file : string) :
  RemoveFile_loop objs file = Ret (Some objs') ->
  forall x, In x objs' -> In x objs.
Proof.
  revert objs'. induction objs as [|[e|] objs IH]; intros objs' H; simpl in H;
    try discriminate.
  destruct (PathName e =? file)%string.
  - injection H as <-. intros x Hx. right. exact Hx.
  - outcome_inv H as r. destruct r as [l|]; simpl in H; [|discriminate].
    injection H as <-. intros x [<-|Hx]; [left; reflexivity|].
    right. exact (IH _ eq_refl x Hx).
Qed.

Lemma SetSkipWorktree_loop_origin (objs objs' : list (option IndexEntry))
  (path : string) (value : bool) (err : option error) :
  SetSkipWorktree_loop objs path value = Ret (objs', err) ->
  forall x, In x objs' ->
    In x objs \/
    exists e, In (Some e) objs /\ x = Some (EntrySetSkipWorktree e value)
              /\ err = None.
Proof.
  revert objs'. induction objs as [|[e|] objs IH]; intros objs' H; simpl in H;
    try discriminate.
  - injection H as <- <-. intros x [].
  - destruct (PathName e =? path)%string.
    + destruct (Stage e =? Stage0); simpl in H; injection H as <- <-.
      * intros x [<-|Hx]; [|left; right; exact Hx].
        right. exists e. repeat split. left. reflexivity.
      * intros x Hx. left. exact Hx.
    + outcome_inv H as r. destruct r as [rest' err']. injection H as <- <-.
      intros x [<-|Hx]; [left; left; reflexivity|].
      destruct (IH _ eq_refl x Hx) as [Hin|(e0 & Hin & Hx' & He)].
      * left. right. exact Hin.
      * right. exists e0. repeat split; [right; exact Hin | exact Hx' | exact He].
Qed.

(** ** [AddStage] *)

Lemma replaceEntriesCheck_kept (g g1 : Index) (path : string) (stage : Z)
  (opts : UpdateIndexOptions) (err : option error) :
  replaceEntriesCheck g path stage opts = Ret (g1, err) ->
  Version g1 = Version g /\
  (forall x, In x (Objects g1) -> In x (Objects g)) /\
  (err = None ->
   (forall e, In (Some e) (Objects g) -> prefix_related path e = false ->
              In (Some e) (Objects g1)) /\
   (stage = Stage0 ->
    forall x, In x (Objects g1) ->
              exists e, x = Some e /\ prefix_related path e = false)).
Proof.
  unfold replaceEntriesCheck. intros H.
  destruct (stage =? Stage0) eqn:Es; simpl in H.
  - outcome_inv H as r. destruct r as [e|newObjects]; injection H as <- <-.
    + repeat split; auto; discriminate.
    + destruct (replaceEntriesScan_kept _ _ _ _ E) as (A & B & C).
      simpl. repeat split; auto.
  - injection H as <- <-. apply Z.eqb_neq in Es.
    repeat split; auto. intros; contradiction.
Qed.

Lemma from_before_same (g : Index) (path : string) (stage : Z) (e : IndexEntry) :
  In (Some e) (Objects g) -> from_before g path stage e.
Proof. intros H. left. exists e. auto. Qed.

Lemma AddStage_body_failed (fs : FileSystem) (g g1 : Index) (path : string)
  (mode : Z) (s : list byte) (stage size mtime : Z)
  (opts : UpdateIndexOptions) (err : error) :
  AddStage_body fs g path mode s stage size mtime opts = Ret (g1, Some err) ->
  Version g1 = Version g /\
  forall x, In x (Objects g1) -> In x (Objects g).
Proof.
  unfold AddStage_body. intros H.
  outcome_inv H as found. destruct found as [entry|].
  - outcome_inv H as r. destruct r as [g' err'].
    destruct (replaceEntriesCheck_kept _ _ _ _ _ _ E0) as (A & B & _).
    destruct err' as [e'|]; [injection H as <- <-; auto|].
    destruct (if Exists fs _ && (stage =? Stage0) then RefreshStat fs entry
              else (entry, None)) as [entry1 [e1|]];
      [injection H as <- <-; auto | discriminate].
  - destruct (Add opts); simpl in H; [|injection H as <- <-; auto].
    outcome_inv H as r. destruct r as [g' err'].
    destruct (replaceEntriesCheck_kept _ _ _ _ _ _ E0) as (A & B & _).
    destruct err' as [e'|]; [injection H as <- <-; auto|].
    destruct (RefreshStat fs _) as [newentry1 ?].
    outcome_inv H as sorted. discriminate.
Qed.

Lemma overwrite_key (entry : IndexEntry) (s : list byte) (mtime size : Z) :
  PathName (overwrite entry s mtime size) = PathName entry /\
  Flags (Fixed (overwrite entry s mtime size)) = Flags (Fixed entry).
Proof. split; reflexivity. Qed.

Lemma AddStage_body_done (fs : FileSystem) (g g1 : Index) (path : string)
  (mode : Z) (s : list byte) (stage size mtime : Z)
  (opts : UpdateIndexOptions) :
  AddStage_body fs g path mode s stage size mtime opts = Ret (g1, None) ->
  Version g1 = Version g /\
  (forall e', In (Some e') (Objects g1) -> from_before g path stage e') /\
  (exists e, In (Some e) (Objects g1) /\ PathName e = path /\
             (Stage e = stage \/ Flags (Fixed e) = new_flags path stage)) /\
  (stage = Stage0 ->
   forall x, In x (Objects g1) ->
             exists e, x = Some e /\ prefix_related path e = false).
Proof.
  unfold AddStage_body. intros H.
  outcome_inv H as found. destruct found as [entry|].
  - (* an entry with this path and stage exists *)
    apply find_stage_found in E as [Hin Hsame].
    assert (Hkey : PathName entry = path /\ Stage entry = stage).
    { unfold same_stage in Hsame. apply andb_true_iff in Hsame as [Hp Hs].
      apply String.eqb_eq in Hp. apply Z.eqb_eq in Hs. auto. }
    destruct Hkey as [Hp Hs].
    outcome_inv H as r. destruct r as [g' err'].
    destruct (replaceEntriesCheck_kept _ _ _ _ _ _ E) as (A & B & C).
    destruct err' as [e'|]; [discriminate|].
    destruct (C eq_refl) as [Ckeep Cunrel]. clear C.
    set (refreshed := if Exists fs _ && (stage =? Stage0)
                      then RefreshStat fs entry else (entry, None)) in H.
    assert (Hr : PathName (fst refreshed) = PathName entry /\
                 Flags (Fixed (fst refreshed)) = Flags (Fixed entry)).
    { unfold refreshed. destruct (Exists fs _ && (stage =? Stage0));
        [apply RefreshStat_key | split; reflexivity]. }
    destruct refreshed as [entry1 [e1|]]; [discriminate|].
    simpl in Hr. destruct Hr as [Hr1 Hr2].
    injection H as <-. simpl.
    assert (Hin' : In (Some entry) (Objects g')).
    { apply Ckeep; [exact Hin | apply prefix_related_self; exact Hp]. }
    repeat split.
    + exact A.
    + intros e' He'. apply update_entry_origin in He' as [He'|He'].
      * apply from_before_same. auto.
      * injection He' as ->. left. exists entry. simpl. auto.
    + exists (overwrite entry1 s mtime size). split.
      * eapply update_entry_written; eauto.
      * simpl. split; [congruence|]. left. unfold Stage in *. simpl. congruence.
    + intros Hst x Hx. apply update_entry_origin in Hx as [Hx|Hx]; [auto|].
      exists (overwrite entry1 s mtime size). split; [exact Hx|].
      apply prefix_related_self. simpl. congruence.
  - (* a new entry is made *)
    destruct (Add opts); simpl in H; [|discriminate].
    outcome_inv H as r. destruct r as [g' err'].
    destruct (replaceEntriesCheck_kept _ _ _ _ _ _ E0) as (A & B & C).
    destruct err' as [e'|]; [discriminate|].
    destruct (C eq_refl) as [Ckeep Cunrel]. clear C.
    set (newentry := mkEntry _ _ path) in H.
    pose proof (RefreshStat_key fs newentry) as [Hr1 Hr2].
    destruct (RefreshStat fs newentry) as [newentry1 ignored].
    simpl in Hr1, Hr2.
    outcome_inv H as sorted. injection H as <-. simpl.
    apply SortByPath_perm in E1.
    assert (Hmem : forall x, In x sorted <-> In x (Objects g') \/ x = Some newentry1).
    { intros x. split.
      - intros Hx. eapply Permutation_in in Hx; [|exact E1].
        apply in_app_iff in Hx as [Hx|[Hx|[]]]; auto.
      - intros Hx. eapply Permutation_in; [symmetry; exact E1|].
        apply in_app_iff. destruct Hx as [Hx|Hx]; [left; auto | right; left; auto]. }
    repeat split.
    + exact A.
    + intros e' He'. apply Hmem in He' as [He'|He'].
      * apply from_before_same. auto.
      * injection He' as ->. right. auto.
    + exists newentry1. split; [apply Hmem; auto|]. split; [exact Hr1|].
      right. exact Hr2.
    + intros Hst x Hx. apply Hmem in Hx as [Hx|Hx]; [auto|].
      exists newentry1. split; [exact Hx|].
      apply prefix_related_self. exact Hr1.
Qed.

Lemma AddStage_inv (fs : FileSystem) (g g' : Index) (path : string)
  (mode : Z) (s : list byte) (stage size mtime : Z)
  (opts : UpdateIndexOptions) (err : option error) :
  AddStage fs g path mode s stage size mtime opts = Ret (g', err) ->
  exists g1,
    AddStage_body fs g path mode s stage size mtime opts = Ret (g1, err) /\
    Version g' = Version g1 /\
    (forall x, In x (Objects g') -> In x (Objects g1)) /\
    (stage = Stage0 ->
     forall x, In x (Objects g') <->
               In x (Objects g1) /\
               exists e, x = Some e /\ (PathName e = path -> Stage e = 0)).
Proof.
  unfold AddStage. intros H. outcome_inv H as r. destruct r as [g1 err1].
  exists g1. destruct (stage =? Stage0) eqn:Es.
  - outcome_inv H as r2. destruct r2 as [g2 ignored]. injection H as <- <-.
    unfold RemoveUnmergedStages in E0. outcome_inv E0 as newobjects.
    injection E0 as <- <-. simpl.
    pose proof (RemoveUnmergedStages_loop_kept _ _ _ E1) as K.
    split; [reflexivity|]. split; [reflexivity|]. split.
    + intros x Hx. apply K in Hx. tauto.
    + intros _. exact K.
  - injection H as <- <-. apply Z.eqb_neq in Es.
    repeat split; auto; intros; contradiction.
Qed.

(** C6. After [AddStage] with [Stage0] has returned without error, every
    entry for the path is at stage 0 (none is left at stage 1, 2 or 3), and
    there is a stage-0 entry for the path. *)
Theorem AddStage_stage0_clears_unmerged (fs : FileSystem) (g g' : Index)
  (path : string) (mode : Z) (s : list byte) (size mtime : Z)
  (opts : UpdateIndexOptions) :
  AddStage fs g path mode s Stage0 size mtime opts = Ret (g', None) ->
  (forall e, In (Some e) (Objects g') -> PathName e = path ->
             Stage e = Stage0 /\ Stage e <> Stage1 /\ Stage e <> Stage2
             /\ Stage e <> Stage3) /\
  (exists e, In (Some e) (Objects g') /\ PathName e = path /\ Stage e = Stage0).
Proof.
  intros H. apply AddStage_inv in H as (g1 & Hbody & _ & _ & K).
  specialize (K eq_refl).
  apply AddStage_body_done in Hbody as (_ & _ & (e & Hin & Hp & Hs) & _).
  assert (Hs0 : Stage e = Stage0).
  { destruct Hs as [Hs|Hs]; [exact Hs|].
    unfold Stage. rewrite Hs.
    apply (new_flags_stage path Stage0). unfold Stage0. lia. }
  split.
  - intros e' He' Hp'. apply K in He' as [_ (e0 & He0 & Hst)].
    injection He0 as <-. rewrite (Hst Hp').
    unfold Stage0, Stage1, Stage2, Stage3. lia.
  - exists e. repeat split; auto. apply K. split; [exact Hin|].
    exists e. split; [reflexivity | intros _; exact Hs0].
Qed.

Lemma AddStage_stage0_clears_unmerged_witness :
  AddStage empty_fs conflict_index "f" 33188 zero_sha Stage0 0 0
           (mkOpts true false)
  = Ret (mkIndex DIRC 2 1 [Some (plain_entry "f" 0)], None) /\
  (exists e, In (Some e) [Some (plain_entry "f" 0)] /\ PathName e = "f"
             /\ Stage e = Stage0).
Proof.
  assert (H : AddStage empty_fs conflict_index "f" 33188 zero_sha Stage0 0 0
                       (mkOpts true false)
              = Ret (mkIndex DIRC 2 1 [Some (plain_entry "f" 0)], None))
    by (vm_compute; reflexivity).
  split; [exact H|].
  exact (proj2 (AddStage_stage0_clears_unmerged _ _ _ _ _ _ _ _ _ H)).
Defined.

(** C3. [AddStage] on an index that holds "f" at stages 1, 2 and 3 only,
    with stage 0 and without [Add]: the call returns the error "f not found
    in index", and the index it leaves has lost its three entries and
    counts none. *)
Theorem AddStage_error_after_removal :
  AddStage empty_fs conflict_index "f" 33188 zero_sha Stage0 0 0
           (mkOpts false false)
  = Ret (mkIndex DIRC 2 0 [], Some (Errorf "f not found in index")).
Proof. vm_compute. reflexivity. Qed.

(** ** The version and the extended flag *)

Lemma ExtendedFlag_flags (e e' : IndexEntry) :
  Flags (Fixed e') = Flags (Fixed e) -> ExtendedFlag e' = ExtendedFlag e.
Proof.
  intros H. unfold ExtendedFlag. rewrite !FixedExtendedFlag_testbit, H.
  reflexivity.
Qed.

(** Entries of [g'] with the extended flag come from such entries of [g],
    and the version is the same: the invariant carries over. *)
Lemma version_covers_extended_sub (g g' : Index) :
  Version g' = Version g ->
  (forall e', In (Some e') (Objects g') -> ExtendedFlag e' = true ->
              has_extended g) ->
  version_covers_extended g -> version_covers_extended g'.
Proof.
  intros Hv Hsub [Hr Hc]. split; rewrite Hv; [exact Hr|].
  intros (e' & Hin & Hext). apply Hc. eauto.
Qed.

Lemma AddStage_version (fs : FileSystem) (g g' : Index) (path : string)
  (mode : Z) (s : list byte) (stage size mtime : Z)
  (opts : UpdateIndexOptions) (err : option error) :
  0 <= stage <= 3 ->
  version_covers_extended g ->
  AddStage fs g path mode s stage size mtime opts = Ret (g', err) ->
  version_covers_extended g'.
Proof.
  intros Hs Hinv H. apply AddStage_inv in H as (g1 & Hbody & Hv & Hsub & _).
  apply (version_covers_extended_sub g1); auto.
  { intros e' Hin Hext. exists e'. auto. }
  destruct err as [e|].
  - apply AddStage_body_failed in Hbody as [Hv1 Hsub1].
    apply (version_covers_extended_sub g); auto.
    intros e' Hin Hext. exists e'. auto.
  - apply AddStage_body_done in Hbody as (Hv1 & Horigin & _).
    apply (version_covers_extended_sub g); auto.
    intros e' Hin Hext.
    destruct (Horigin e' Hin) as [(e0 & Hin0 & _ & Hfl)|[_ Hfl]].
    + exists e0. split; [exact Hin0|].
      rewrite <- (ExtendedFlag_flags e0 e' Hfl). exact Hext.
    + unfold ExtendedFlag in Hext.
      rewrite FixedExtendedFlag_testbit, Hfl in Hext.
      rewrite (proj2 (new_flags_stage path stage Hs)) in Hext. discriminate.
Qed.

Lemma RemoveFile_version (g g' : Index) (file : string) :
  version_covers_extended g -> RemoveFile g file = Ret g' ->
  version_covers_extended g'.
Proof.
  unfold RemoveFile. intros Hinv H. outcome_inv H as r.
  destruct r as [objs|]; injection H as <-; [|exact Hinv].
  apply (version_covers_extended_sub g); auto.
  intros e' Hin Hext. exists e'. split; [|exact Hext].
  eapply RemoveFile_loop_origin; eauto.
Qed.

Lemma RemoveUnmergedStages_version (g g' : Index) (path : string)
  (err : option error) :
  version_covers_extended g -> RemoveUnmergedStages g path = Ret (g', err) ->
  version_covers_extended g'.
Proof.
  unfold RemoveUnmergedStages. intros Hinv H. outcome_inv H as newobjects.
  injection H as <- <-.
  apply (version_covers_extended_sub g); auto.
  intros e' Hin Hext. exists e'. split; [|exact Hext].
  apply (RemoveUnmergedStages_loop_kept _ _ _ E) in Hin. tauto.
Qed.

Lemma EntrySetSkipWorktree_extended (e : IndexEntry) (value : bool) :
  ExtendedFlag (EntrySetSkipWorktree e value) = value || ExtendedFlag e.
Proof.
  unfold ExtendedFlag, EntrySetSkipWorktree.
  destruct value; cbn [Fixed orb]; [|reflexivity].
  rewrite FixedExtendedFlag_testbit. unfold SetExtendedFlag, set_Flags.
  cbn [Flags]. rewrite Z.lor_spec. change (Z.testbit 16384 14) with true.
  apply orb_true_r.
Qed.

Lemma SetSkipWorktree_version (g g' : Index) (path : string) (value : bool)
  (err : option error) :
  version_covers_extended g -> SetSkipWorktree g path value = Ret (g', err) ->
  version_covers_extended g'.
Proof.
  unfold SetSkipWorktree. intros Hinv H. outcome_inv H as r.
  destruct r as [objs err0].
  destruct err0 as [e|]; [injection H as <- <-; exact Hinv|].
  pose proof (SetSkipWorktree_loop_origin _ _ _ _ _ E) as Horigin.
  destruct Hinv as [Hr Hc]. simpl in H.
  destruct value.
  - (* the bit is set: the version is, or becomes, 3 *)
    assert (Hv : Version g' = 3).
    { destruct (Version g <=? 2) eqn:Ev; simpl in H; injection H as <- <-; simpl;
        [reflexivity|]. apply Z.leb_gt in Ev. lia. }
    split; auto.
  - rewrite andb_false_r in H. injection H as <- <-.
    split; [exact Hr|]. simpl. intros (e' & Hin & Hext). apply Hc.
    destruct (Horigin _ Hin) as [Hin0|(e0 & Hin0 & He' & _)].
    + exists e'. auto.
    + injection He' as ->. rewrite EntrySetSkipWorktree_extended in Hext.
      exists e0. auto.
Qed.

(** C7 (as the code has it). The in-memory operations keep the version at
    2 or 3, and at 3 when some entry has its extended flag set: [NewIndex]
    establishes this, and [AddStage] (for a merge stage 0 to 3),
    [RemoveFile], [RemoveUnmergedStages] and [SetSkipWorktree] (for every
    path, in the index or not) preserve it whenever they return. *)
Theorem operations_keep_version_covers_extended :
  version_covers_extended NewIndex /\
  (forall fs g g' path mode s stage size mtime opts err,
      0 <= stage <= 3 -> version_covers_extended g ->
      AddStage fs g path mode s stage size mtime opts = Ret (g', err) ->
      version_covers_extended g') /\
  (forall g g' file,
      version_covers_extended g -> RemoveFile g file = Ret g' ->
      version_covers_extended g') /\
  (forall g g' path err,
      version_covers_extended g ->
      RemoveUnmergedStages g path = Ret (g', err) ->
      version_covers_extended g') /\
  (forall g g' path value err,
      version_covers_extended g ->
      SetSkipWorktree g path value = Ret (g', err) ->
      version_covers_extended g').
Proof.
  split; [|split; [|split; [|split]]].
  - split; [left; reflexivity|]. intros (e & [] & _).
  - intros. eapply AddStage_version; eauto.
  - intros. eapply RemoveFile_version; eauto.
  - intros. eapply RemoveUnmergedStages_version; eauto.
  - intros. eapply SetSkipWorktree_version; eauto.
Qed.

Lemma operations_keep_version_covers_extended_witness :
  version_covers_extended one_file_index /\
  SetSkipWorktree one_file_index "a.txt" true
  = Ret (mkIndex DIRC 3 1
           [Some (EntrySetSkipWorktree (plain_entry "a.txt" 0) true)], None) /\
  version_covers_extended
    (mkIndex DIRC 3 1 [Some (EntrySetSkipWorktree (plain_entry "a.txt" 0) true)]).
Proof.
  assert (Hinv : version_covers_extended one_file_index).
  { split; [left; reflexivity|].
    intros (e & [He|[]] & Hext). injection He as <-.
    vm_compute in Hext. discriminate. }
  assert (Hrun : SetSkipWorktree one_file_index "a.txt" true
                 = Ret (mkIndex DIRC 3 1
                          [Some (EntrySetSkipWorktree (plain_entry "a.txt" 0) true)],
                        None))
    by (vm_compute; reflexivity).
  split; [exact Hinv|]. split; [exact Hrun|].
  exact (proj2 (proj2 (proj2 (proj2 operations_keep_version_covers_extended)))
           _ _ _ _ _ Hinv Hrun).
Defined.

(** C7, as stated, fails: on the new, empty index [SetSkipWorktree] for a
    path that has no entry sets the version to 3 although no entry has the
    extended flag. *)
Lemma SetSkipWorktree_absent_path_sets_version :
  version_iff_extended NewIndex /\
  SetSkipWorktree NewIndex "absent" true = Ret (mkIndex DIRC 3 0 [], None) /\
  ~ version_iff_extended (mkIndex DIRC 3 0 []).
Proof.
  split; [|split].
  - split; [discriminate | intros (e & [] & _)].
  - reflexivity.
  - intros [H _]. destruct (H eq_refl) as (e & [] & _).
Qed.

(** The same for a removal: [RemoveFile] of the only entry with the
    extended flag leaves the version at 3. *)
Example RemoveFile_keeps_version :
  RemoveFile (mkIndex DIRC 3 1
                [Some (EntrySetSkipWorktree (plain_entry "a.txt" 0) true)])
             "a.txt"
  = Ret (mkIndex DIRC 3 0 []).
Proof. vm_compute. reflexivity. Qed.

(** ** Parent and child paths *)

(** On a slice without nil pointers the loops run to their end. *)
Lemma find_stage_total (es : list IndexEntry) (path : string) (stage : Z) :
  find_stage (map Some es) path stage
  = Ret (List.find (fun e => same_stage e path stage) es).
Proof.
  induction es as [|e es IH]; simpl; [reflexivity|].
  destruct (same_stage e path stage); [reflexivity | exact IH].
Qed.





Lemma deref_all_total (es : list IndexEntry) : deref_all (map Some es) = Ret es.
Proof.
  induction es as [|e es IH]; simpl; [reflexivity|]. rewrite IH. reflexivity.
Qed.

Lemma SortByPath_total (es : list IndexEntry) :
  exists es', SortByPath (map Some es) = Ret (map Some es').
Proof.
  destruct es as [|a [|b es]]; [exists [] | exists [a] |]; try reflexivity.
  exists (sort_entries (a :: b :: es)). unfold SortByPath.
  change (map Some (a :: b :: es)) with (Some a :: Some b :: map Some es).
  cbv iota beta.
  change (Some a :: Some b :: map Some es) with (map Some (a :: b :: es)).
  rewrite deref_all_total. reflexivity.
Qed.


Lemma same_stage_key (e : IndexEntry) (path : string) (stage : Z) :
  same_stage e path stage = true <-> PathName e = path /\ Stage e = stage.
Proof.
  unfold same_stage. rewrite andb_true_iff, String.eqb_eq, Z.eqb_eq. tauto.
Qed.





Example AddStage_dir_refused :
  AddStage empty_fs dir_index "dir" 33188 zero_sha Stage0 0 0 (mkOpts true false)
  = Ret (dir_index,
         Some (Errorf
           "There is an existing file dir/a under dir, should it be replaced?")).
Proof. vm_compute. reflexivity. Qed.

Example AddStage_dir_replaced :
  AddStage empty_fs dir_index "dir" 33188 zero_sha Stage0 0 0 (mkOpts true true)
  = Ret (mkIndex DIRC 2 1 [Some (plain_entry "dir" 0)], None).
Proof. vm_compute. reflexivity. Qed.


(** ** checkout-index with [--stage=all] *)

Lemma bind_then_panic (World A B : Type) (m : M World A)
  (k : A -> M World B) (p : Proc World) :
  (forall a p1, fst (k a p1) = Panic) -> fst (bind World m k p) = Panic.
Proof.
  intros H. unfold bind. destruct (m p) as [[a|] p1]; [apply H | reflexivity].
Qed.

(** When the path has no entry at stage 0 and none at stage 3, the block
    ends in the dereference of the nil [stg3], whatever the system does. *)
Lemma checkout_stage_all_no_stage3 (World : Type) (sys : System World)
  (opts : CheckoutIndexOptions) (stageMap : gmap (string * Z) IndexEntry)
  (indexpath delim : string) (p : Proc World) :
  stageMap !! (indexpath, Stage0) = None ->
  stageMap !! (indexpath, Stage3) = None ->
  fst (checkout_stage_all World sys opts stageMap indexpath delim p) = Panic.
Proof.
  intros H0 H3. unfold checkout_stage_all. rewrite H0, H3.
  apply bind_then_panic. intros _ p1.
  apply bind_then_panic. intros _ p2. reflexivity.
Qed.

(** C8. checkout-index --stage=all for a path that has stages 1 and 2 but
    no stage 3: the names for the two stages are printed, and the call
    panics before the rest of the line. *)
Theorem checkout_stage_all_missing_stage3 :
  CheckoutIndexUncommited_stage_all nat counting_system deleted_by_them
    stage_all_opts ["f"] (mkProc nat 0%nat "" "")
  = (Panic, mkProc nat 2%nat ".merge_file_0 .merge_file_1 " "").
Proof. vm_compute. reflexivity. Qed.

(** With stage 3 there the line is completed, "." standing for a missing
    stage. *)
Example checkout_stage_all_three_stages :
  CheckoutIndexUncommited_stage_all nat counting_system conflict_index
    stage_all_opts ["f"] (mkProc nat 0%nat "" "")
  = (Ret None,
     mkProc nat 3%nat
       (".merge_file_0 .merge_file_1 .merge_file_2" +:+ tab +:+ "f" +:+ newline)
       "").
Proof. vm_compute. reflexivity. Qed.

Example checkout_stage_all_added_by_them :
  CheckoutIndexUncommited_stage_all nat counting_system
    (mkIndex DIRC 2 1 [Some (plain_entry "f" 3)])
    stage_all_opts ["f"] (mkProc nat 0%nat "" "")
  = (Ret None,
     mkProc nat 1%nat (". . .merge_file_0" +:+ tab +:+ "f" +:+ newline) "").
Proof. vm_compute. reflexivity. Qed.

(** ** Big-endian integers *)

Lemma byte_to_Z_range (b : byte) : 0 <= byte_to_Z b < 256.
Proof.
  unfold byte_to_Z. pose proof (Byte.to_N_bounded b) as H.
  split; [apply N2Z.is_nonneg|].
  change 256 with (Z.of_N 256). apply N2Z.inj_lt. lia.
Qed.

Lemma byte_to_of_Z (z : Z) : byte_to_Z (byte_of_Z z) = z mod 256.
Proof.
  unfold byte_to_Z, byte_of_Z.
  pose proof (Z.mod_pos_bound z 256 ltac:(lia)) as Hz.
  destruct (Byte.of_N (Z.to_N (z mod 256))) as [b|] eqn:E.
  - apply Byte.to_of_N in E. rewrite E. rewrite Z2N.id by lia. reflexivity.
  - apply Byte.of_N_None_iff in E. lia.
Qed.

Lemma byte_of_to_Z (b : byte) : byte_of_Z (byte_to_Z b) = b.
Proof.
  unfold byte_of_Z. pose proof (byte_to_Z_range b) as H.
  rewrite Z.mod_small by exact H. unfold byte_to_Z. rewrite N2Z.id.
  rewrite Byte.of_to_N. reflexivity.
Qed.

Lemma length_be_encode (n : nat) (z : Z) : length (be_encode n z) = n.
Proof. induction n as [|n IH]; simpl; [reflexivity | rewrite IH; reflexivity]. Qed.

Lemma be_decode_cons (b : byte) (bs : list byte) :
  be_decode (b :: bs) = byte_to_Z b * 256 ^ Z.of_nat (length bs) + be_decode bs.
Proof.
  unfold be_decode. simpl fold_left.
  assert (H : forall l acc,
             fold_left (fun a c => a * 256 + byte_to_Z c) l acc
             = acc * 256 ^ Z.of_nat (length l)
               + fold_left (fun a c => a * 256 + byte_to_Z c) l 0).
  { induction l as [|c l IH]; intros acc; simpl fold_left.
    - simpl. lia.
    - rewrite (IH (acc * 256 + byte_to_Z c)), (IH (0 * 256 + byte_to_Z c)).
      change (length (c :: l)) with (S (length l)).
      rewrite Nat2Z.inj_succ, Z.pow_succ_r by lia. lia. }
  rewrite H. reflexivity.
Qed.

Lemma be_decode_encode (n : nat) (z : Z) :
  be_decode (be_encode n z) = z mod 2 ^ (8 * Z.of_nat n).
Proof.
  induction n as [|n IH].
  - simpl. rewrite Z.mod_1_r. reflexivity.
  - cbn [be_encode]. rewrite be_decode_cons, IH, length_be_encode, byte_to_of_Z.
    rewrite Z.shiftr_div_pow2 by lia.
    replace (8 * Z.of_nat (S n)) with (8 * Z.of_nat n + 8) by lia.
    rewrite Z.pow_add_r by lia. change (2 ^ 8) with 256.
    rewrite (Z.rem_mul_r z (2 ^ (8 * Z.of_nat n)) 256) by lia.
    replace (256 ^ Z.of_nat n) with (2 ^ (8 * Z.of_nat n)).
    + lia.
    + rewrite Z.pow_mul_r by lia. reflexivity.
Qed.

Lemma be_decode_encode_small (n : nat) (z : Z) :
  0 <= z < 2 ^ (8 * Z.of_nat n) -> be_decode (be_encode n z) = z.
Proof. intros H. rewrite be_decode_encode. apply Z.mod_small. exact H. Qed.

Lemma to_int64_encode (z : Z) :
  - 2 ^ 63 <= z < 2 ^ 63 -> to_int64 (be_decode (be_encode 8 z)) = z.
Proof.
  intros H. rewrite be_decode_encode. change (8 * Z.of_nat 8) with 64.
  unfold to_int64. destruct (Z_lt_le_dec z 0) as [Hneg|Hpos].
  - replace (z mod 2 ^ 64) with (z + 2 ^ 64).
    + destruct (z + 2 ^ 64 <? 2 ^ 63) eqn:E; [apply Z.ltb_lt in E|]; lia.
    + apply Z.mod_unique with (q := -1); lia.
  - rewrite Z.mod_small by lia.
    destruct (z <? 2 ^ 63) eqn:E; [reflexivity | apply Z.ltb_ge in E; lia].
Qed.

Lemma length_bytes_of_string (s : string) :
  length (bytes_of_string s) = String.length s.
Proof.
  unfold bytes_of_string, list_byte_of_string.
  rewrite length_map. induction s as [|c s IH]; simpl; congruence.
Qed.

Lemma string_of_bytes_of_string (s : string) :
  string_of_bytes (bytes_of_string s) = s.
Proof. apply string_of_list_byte_of_string. Qed.

(** ** Padding *)

Lemma pad_aligned (x y : Z) : y = x + 24 -> (x + (8 - y mod 8)) mod 8 = 0.
Proof. intros ->. Z.div_mod_to_equations. lia. Qed.

Lemma write_padding_range (entry : IndexEntry) : 1 <= write_padding entry <= 8.
Proof.
  unfold write_padding.
  set (n := (if ExtendedFlag entry then 82 + 2 else 82)
            + Z.of_nat (String.length (PathName entry)) + 4).
  pose proof (Z.mod_pos_bound n 8 ltac:(lia)). lia.
Qed.

(** In [uint16] the reader's sum does not wrap for a short name. *)
Lemma read_padding_short (entry : IndexEntry) :
  short_name entry -> read_padding (Fixed entry) = write_padding entry.
Proof.
  intros [Hlen Hbits].
  pose proof (write_padding_range entry) as Hrange. revert Hrange.
  unfold write_padding, read_padding.
  rewrite Hbits. fold (ExtendedFlag entry).
  set (len := Z.of_nat (String.length (PathName entry))) in *.
  assert (Hpos : 0 <= len) by (unfold len; lia).
  clearbody len. intros Hrange.
  destruct (ExtendedFlag entry).
  - change ((82 + 2) mod 2 ^ 16) with (82 + 2).
    rewrite (Z.mod_small (82 + 2 + len + 4) (2 ^ 16)) by lia.
    apply Z.mod_small. lia.
  - rewrite (Z.mod_small (82 + len + 4) (2 ^ 16)) by lia.
    apply Z.mod_small. lia.
Qed.

(** C2 (as the code has it). For an entry whose name is shorter than 0xFFF
    bytes, the writer and the reader compute the same number of padding
    bytes, namely 8 - ((82 + (2 if extended) + name_len + 4) mod 8); it is
    between 1 and 8 and brings the record, whose fixed block has 62 bytes,
    to a multiple of 8. *)
Theorem padding_writer_reader_agree (entry : IndexEntry) :
  short_name entry ->
  write_padding entry = read_padding (Fixed entry) /\
  write_padding entry
  = 8 - ((82 + (if ExtendedFlag entry then 2 else 0)
          + Z.of_nat (String.length (PathName entry)) + 4) mod 8) /\
  1 <= write_padding entry <= 8 /\
  (62 + (if ExtendedFlag entry then 2 else 0)
   + Z.of_nat (String.length (PathName entry)) + write_padding entry) mod 8 = 0.
Proof.
  intros Hshort.
  split; [symmetry; apply read_padding_short; exact Hshort|].
  assert (Hval : write_padding entry
                 = 8 - ((82 + (if ExtendedFlag entry then 2 else 0)
                         + Z.of_nat (String.length (PathName entry)) + 4) mod 8)).
  { unfold write_padding. destruct (ExtendedFlag entry);
      [reflexivity | rewrite Z.add_0_r; reflexivity]. }
  split; [exact Hval|]. split; [apply write_padding_range|].
  rewrite Hval. apply pad_aligned. lia.
Qed.

Lemma padding_writer_reader_agree_witness :
  short_name (plain_entry "a.txt" 0) /\
  write_padding (plain_entry "a.txt" 0) = read_padding (Fixed (plain_entry "a.txt" 0)) /\
  write_padding (plain_entry "a.txt" 0) = 5.
Proof.
  assert (H : short_name (plain_entry "a.txt" 0))
    by (split; vm_compute; reflexivity).
  split; [exact H|].
  destruct (padding_writer_reader_agree (plain_entry "a.txt" 0) H)
    as (Hrw & Hval & _).
  split; [exact Hrw|]. rewrite Hval. reflexivity.
Defined.

(** C2, as stated, fails: for the entry "a" the writer and the reader both
    pad with one byte (62 + 1 + 1 = 64), where the formula with 62 in the
    place of 82 gives five. *)
Lemma padding_differs_from_spec_formula :
  write_padding (plain_entry "a" 0) = 1 /\
  read_padding (Fixed (plain_entry "a" 0)) = 1 /\
  spec_padding (plain_entry "a" 0) = 5.
Proof. split; [|split]; vm_compute; reflexivity. Qed.

(** ** Entries that [ReadIndex] could not read *)

Lemma read_entries_slots (n : nat) (file : Reader) (version : Z)
  (indexes : list (option IndexEntry)) :
  read_entries n file version = Ret indexes ->
  length indexes = n /\
  forall k rk res rk',
    reader_at k file version = Ret rk -> (k < n)%nat ->
    ReadIndexEntry rk version = Ret (res, rk') ->
    nth_error indexes k = Some (slot res).
Proof.
  revert file indexes. induction n as [|n IH]; intros file indexes H; simpl in H.
  - injection H as <-. split; [reflexivity|]. intros; lia.
  - outcome_inv H as r. destruct r as [res0 r1].
    outcome_inv H as more. injection H as <-.
    destruct (IH _ _ E0) as [Hlen Hslots]. split; [simpl; congruence|].
    intros [|k] rk res rk' Hat Hk Hread; simpl in Hat.
    + injection Hat as <-. rewrite E in Hread. injection Hread as <- <-.
      reflexivity.
    + rewrite E in Hat. simpl in Hat. simpl.
      apply (Hslots k rk res rk' Hat); [lia | exact Hread].
Qed.

(** The ways [ReadIndexEntry] returns an error. *)
Lemma ReadIndexEntry_unsupported (file : Reader) (version : Z) :
  3 < version ->
  ReadIndexEntry file version
  = Ret (inl (Errorf "Unsupported index version."), file).
Proof.
  intros H. unfold ReadIndexEntry.
  destruct (3 <? version) eqn:E; [|apply Z.ltb_ge in E; lia].
  rewrite orb_true_r. reflexivity.
Qed.

Lemma ReadIndexEntry_truncated_fixed (file : Reader) (version : Z) :
  2 <= version <= 3 -> (length (rest file) < 62)%nat ->
  exists e r1, ReadIndexEntry file version = Ret (inl e, r1)
               /\ (e = EOF \/ e = ErrUnexpectedEOF).
Proof.
  intros Hv Hlen. unfold ReadIndexEntry.
  destruct (version <? 2) eqn:E1; [apply Z.ltb_lt in E1; lia|].
  destruct (3 <? version) eqn:E2; [apply Z.ltb_lt in E2; lia|].
  cbn [orb]. unfold read_full.
  assert (Hn : (length (firstn 62 (rest file)) =? 62)%nat = false).
  { apply Nat.eqb_neq. rewrite length_firstn. lia. }
  rewrite Hn. destruct (firstn 62 (rest file)); eauto.
Qed.

Lemma ReadIndexEntry_extended_in_v2 (file : Reader) :
  (62 <= length (rest file))%nat ->
  FixedExtendedFlag (decode_fixed (firstn 62 (rest file))) = true ->
  ReadIndexEntry file 2 = Ret (inl InvalidIndex, advance file 62).
Proof.
  intros Hlen Hext. unfold ReadIndexEntry. cbn [Z.ltb Z.compare orb].
  unfold read_full.
  assert (Hn : length (firstn 62 (rest file)) = 62%nat)
    by (rewrite length_firstn; lia).
  rewrite Hn, Nat.eqb_refl, Hext. reflexivity.
Qed.

(** A record cut short inside a name shorter than [0xFFF]: [file.Read]
    comes back with an error or with too few bytes, and [ReadIndexEntry]
    panics. *)
Lemma ReadIndexEntry_truncated_name (file : Reader) (version : Z) :
  2 <= version <= 3 ->
  (62 <= length (rest file))%nat ->
  let f := decode_fixed (firstn 62 (rest file)) in
  FixedExtendedFlag f = false ->
  Z.land (Flags f) 4095 <> 4095 ->
  Z.of_nat (length (rest file)) < 62 + Z.land (Flags f) 4095 ->
  ReadIndexEntry file version = Panic.
Proof.
  intros Hv Hlen f Hext Hshort Hcut. unfold ReadIndexEntry.
  destruct (version <? 2) eqn:E1; [apply Z.ltb_lt in E1; lia|].
  destruct (3 <? version) eqn:E2; [apply Z.ltb_lt in E2; lia|].
  cbn [orb]. unfold read_full.
  assert (Hn : length (firstn 62 (rest file)) = 62%nat)
    by (rewrite length_firstn; lia).
  rewrite Hn, Nat.eqb_refl. fold f. rewrite Hext.
  pose proof (name_bits_range (Flags f)) as Hr.
  set (nameLength := Z.land (Flags f) 4095) in *.
  assert (Hnn : Z.land nameLength 4095 = nameLength).
  { change 4095 with (Z.ones 12). rewrite Z.land_ones by lia.
    apply Z.mod_small. change (2 ^ 12) with 4096. lia. }
  rewrite Hnn.
  destruct (nameLength =? 4095) eqn:E3; [apply Z.eqb_eq in E3; contradiction|].
  cbn [negb]. unfold file_read, advance. cbn [rest offset].
  assert (Hskip : length (skipn 62 (rest file)) = (length (rest file) - 62)%nat)
    by apply length_skipn.
  destruct (Z.to_nat nameLength) as [|n] eqn:En; [lia|].
  destruct (skipn 62 (rest file)) as [|b bs] eqn:Es; [reflexivity|].
  cbn [negb].
  destruct (Z.of_nat (length (firstn (S n) (b :: bs))) =? nameLength) eqn:E4;
    [|reflexivity].
  apply Z.eqb_eq in E4. rewrite length_firstn in E4. lia.
Qed.

(** C10 (as the code has it). When [ReadIndex] returns an index, it returns
    no error, the header is kept as read (the count included), [Objects]
    has one slot for each declared entry, and the slot is nil for each
    entry for which [ReadIndexEntry] returned an error (an unsupported
    version, the extended flag in a version-2 file, a record that ends
    inside its fixed block or its extended flags). *)
Theorem ReadIndex_failed_entries_are_nil (contents : list byte) (g : Index)
  (err : option error) :
  ReadIndex (Opened contents) = Ret (Some g, err) ->
  err = None /\
  (Signature g, Version g, NumberIndexEntries g) = fst (read_header contents) /\
  length (Objects g) = Z.to_nat (NumberIndexEntries g) /\
  forall k rk e rk',
    (k < Z.to_nat (NumberIndexEntries g))%nat ->
    reader_at k (snd (read_header contents)) (Version g) = Ret rk ->
    ReadIndexEntry rk (Version g) = Ret (inl e, rk') ->
    nth_error (Objects g) k = Some None.
Proof.
  unfold ReadIndex. intros H.
  destruct (read_header contents) as [[[sig version] count] r].
  destruct (negb (bytes_eqb sig DIRC)); [discriminate|].
  destruct ((version <? 2) || (4 <? version)); [discriminate|].
  outcome_inv H as indexes. injection H as <- <-. cbn [fst snd].
  destruct (read_entries_slots _ _ _ _ E) as [Hlen Hslots].
  cbn [Signature Version NumberIndexEntries Objects].
  repeat split; auto.
  intros k rk e rk' Hk Hat Hread.
  exact (Hslots k rk (inl e) rk' Hat Hk Hread).
Qed.

Lemma ReadIndex_failed_entries_are_nil_witness :
  ReadIndex (Opened cut_in_fixed_block) = Ret (Some (mkIndex DIRC 2 1 [None]), None) /\
  nth_error (Objects (mkIndex DIRC 2 1 [None])) 0 = Some None.
Proof.
  assert (H : ReadIndex (Opened cut_in_fixed_block)
              = Ret (Some (mkIndex DIRC 2 1 [None]), None))
    by (vm_compute; reflexivity).
  split; [exact H|].
  destruct (ReadIndex_failed_entries_are_nil _ _ _ H) as (_ & _ & _ & Hslots).
  apply (Hslots 0%nat (mkReader 12 (firstn 10 (encode_fixed (Fixed (plain_entry "a.txt" 0)))))
           ErrUnexpectedEOF (mkReader 22 [])).
  - vm_compute. lia.
  - vm_compute. reflexivity.
  - vm_compute. reflexivity.
Defined.

(** A version-4 file: every entry is refused and every slot stays nil. *)
Example ReadIndex_version4 :
  ReadIndex (Opened (encode_header DIRC 4 2 ++ repeat x00 200))
  = Ret (Some (mkIndex DIRC 4 2 [None; None]), None).
Proof. vm_compute. reflexivity. Qed.

(** C10, as stated, fails for a record that ends inside its name:
    [ReadIndex] does not return. *)
Lemma ReadIndex_truncated_name_panics :
  ReadIndex (Opened cut_in_name) = Panic.
Proof. vm_compute. reflexivity. Qed.

(** ** Reading back what was written *)

Lemma firstn_app_exact {A} (a b : list A) (n : nat) :
  length a = n -> firstn n (a ++ b) = a.
Proof.
  intros <-. rewrite firstn_app, Nat.sub_diag, firstn_all. simpl.
  apply app_nil_r.
Qed.

Lemma skipn_app_exact {A} (a b : list A) (n : nat) :
  length a = n -> skipn n (a ++ b) = b.
Proof.
  intros <-. rewrite skipn_app, Nat.sub_diag, skipn_all. reflexivity.
Qed.

Lemma skipn_app_add {A} (a b : list A) (n m : nat) :
  length a = n -> skipn (n + m) (a ++ b) = skipn m b.
Proof.
  intros <-. rewrite skipn_app.
  rewrite skipn_all2 by lia.
  replace (length a + m - length a)%nat with m by lia. reflexivity.
Qed.

Lemma length_encode_fixed (f : FixedIndexEntry) :
  length (Sha1 f) = 20%nat -> length (encode_fixed f) = 62%nat.
Proof.
  intros H. unfold encode_fixed. rewrite !length_app, !length_be_encode, H.
  reflexivity.
Qed.

Lemma decode_encode_fixed (f : FixedIndexEntry) :
  wf_fixed f -> decode_fixed (encode_fixed f) = f.
Proof.
  intros (H1 & H2 & H3 & H4 & H5 & H6 & H7 & H8 & H9 & Hsha & H11).
  destruct f as [ctime ctimenano mtime dev ino mode uid gid fsize sha flags].
  cbn [Ctime Ctimenano Mtime Dev Ino Mode Uid Gid Fsize Sha1 Flags] in *.
  unfold decode_fixed, encode_fixed.
  cbn [Ctime Ctimenano Mtime Dev Ino Mode Uid Gid Fsize Sha1 Flags].
  assert (L4 : forall z, length (be_encode 4 z) = 4%nat)
    by (intros; apply length_be_encode).
  assert (L8 : forall z, length (be_encode 8 z) = 8%nat)
    by (intros; apply length_be_encode).
  f_equal.
  - rewrite firstn_app_exact by auto. apply be_decode_encode_small. exact H1.
  - rewrite skipn_app_exact, firstn_app_exact by auto.
    apply be_decode_encode_small. exact H2.
  - rewrite (skipn_app_add _ _ 4 4), skipn_app_exact, firstn_app_exact by auto.
    apply to_int64_encode. exact H3.
  - rewrite (skipn_app_add _ _ 4 12), (skipn_app_add _ _ 4 8), skipn_app_exact,
      firstn_app_exact by auto.
    apply be_decode_encode_small. exact H4.
  - rewrite (skipn_app_add _ _ 4 16), (skipn_app_add _ _ 4 12),
      (skipn_app_add _ _ 8 4), skipn_app_exact, firstn_app_exact by auto.
    apply be_decode_encode_small. exact H5.
  - rewrite (skipn_app_add _ _ 4 20), (skipn_app_add _ _ 4 16),
      (skipn_app_add _ _ 8 8), (skipn_app_add _ _ 4 4), skipn_app_exact,
      firstn_app_exact by auto.
    apply be_decode_encode_small. exact H6.
  - rewrite (skipn_app_add _ _ 4 24), (skipn_app_add _ _ 4 20),
      (skipn_app_add _ _ 8 12), (skipn_app_add _ _ 4 8),
      (skipn_app_add _ _ 4 4), skipn_app_exact, firstn_app_exact by auto.
    apply be_decode_encode_small. exact H7.
  - rewrite (skipn_app_add _ _ 4 28), (skipn_app_add _ _ 4 24),
      (skipn_app_add _ _ 8 16), (skipn_app_add _ _ 4 12),
      (skipn_app_add _ _ 4 8), (skipn_app_add _ _ 4 4), skipn_app_exact,
      firstn_app_exact by auto.
    apply be_decode_encode_small. exact H8.
  - rewrite (skipn_app_add _ _ 4 32), (skipn_app_add _ _ 4 28),
      (skipn_app_add _ _ 8 20), (skipn_app_add _ _ 4 16),
      (skipn_app_add _ _ 4 12), (skipn_app_add _ _ 4 8),
      (skipn_app_add _ _ 4 4), skipn_app_exact, firstn_app_exact by auto.
    apply be_decode_encode_small. exact H9.
  - rewrite (skipn_app_add _ _ 4 36), (skipn_app_add _ _ 4 32),
      (skipn_app_add _ _ 8 24), (skipn_app_add _ _ 4 20),
      (skipn_app_add _ _ 4 16), (skipn_app_add _ _ 4 12),
      (skipn_app_add _ _ 4 8), (skipn_app_add _ _ 4 4), skipn_app_exact,
      firstn_app_exact by auto.
    reflexivity.
  - rewrite (skipn_app_add _ _ 4 56), (skipn_app_add _ _ 4 52),
      (skipn_app_add _ _ 8 44), (skipn_app_add _ _ 4 40),
      (skipn_app_add _ _ 4 36), (skipn_app_add _ _ 4 32),
      (skipn_app_add _ _ 4 28), (skipn_app_add _ _ 4 24),
      (skipn_app_add _ _ 4 20), (skipn_app_exact _ _ 20) by auto.
    rewrite firstn_all2 by (rewrite length_be_encode; lia).
    apply be_decode_encode_small. exact H11.
Qed.

Lemma read_full_exact (a tl : list byte) (n : nat) (off : Z) :
  length a = n ->
  read_full n (mkReader off (a ++ tl)) = (inr a, mkReader (off + Z.of_nat n) tl).
Proof.
  intros H. unfold read_full, advance. cbn [rest offset].
  rewrite (firstn_app_exact a tl n H), H, Nat.eqb_refl.
  rewrite (skipn_app_exact a tl n H). reflexivity.
Qed.

Lemma file_read_exact (name tl : list byte) (off : Z) :
  file_read (length name) (mkReader off (name ++ tl))
  = (name, None, mkReader (off + Z.of_nat (length name)) tl).
Proof.
  destruct name as [|b name].
  - simpl. rewrite Z.add_0_r. reflexivity.
  - unfold file_read, advance. cbn [rest offset length app].
    change (b :: name ++ tl) with ((b :: name) ++ tl).
    rewrite (firstn_app_exact (b :: name) tl (S (length name)) eq_refl).
    rewrite (skipn_app_exact (b :: name) tl (length (b :: name)) eq_refl).
    reflexivity.
Qed.

Lemma seek_cur_exact (a tl : list byte) (k off : Z) :
  length a = Z.to_nat k ->
  seek_cur (mkReader off (a ++ tl)) k = mkReader (off + k) tl.
Proof.
  intros H. unfold seek_cur. cbn [rest offset].
  rewrite (skipn_app_exact a tl _ H). reflexivity.
Qed.

Lemma write_entries_wf (version : Z) (es : list IndexEntry) :
  Forall (wf_entry version) es ->
  write_entries version (map Some es)
  = Ret (concat (map entry_bytes es), None).
Proof.
  induction 1 as [|e es (Hf & Hs & He) Hes IH]; [reflexivity|].
  cbn [map write_entries concat]. rewrite IH. unfold entry_bytes, ext_bytes.
  destruct (ExtendedFlag e) eqn:Ee.
  - destruct (He eq_refl) as (Hv & v & Hv3 & _). rewrite Hv3.
    destruct (version =? 2) eqn:E2; [apply Z.eqb_eq in E2; contradiction|].
    cbn [obind]. rewrite <- !app_assoc. reflexivity.
  - cbn [obind]. rewrite <- !app_assoc. reflexivity.
Qed.

Lemma ReadIndexEntry_entry_bytes (version : Z) (e : IndexEntry) (off : Z)
  (tl : list byte) :
  version = 2 \/ version = 3 -> wf_entry version e ->
  ReadIndexEntry (mkReader off (entry_bytes e ++ tl)) version
  = Ret (inr (on_disk e),
         mkReader (off + Z.of_nat (length (entry_bytes e))) tl).
Proof.
  intros Hv (Hf & Hs & He).
  pose proof (eq_sym (read_padding_short e Hs)) as Hpad.
  pose proof (write_padding_range e) as Hrange.
  destruct Hs as [Hlen Hbits].
  assert (Hsha : length (Sha1 (Fixed e)) = 20%nat) by apply Hf.
  unfold ReadIndexEntry.
  destruct (version <? 2) eqn:E1; [apply Z.ltb_lt in E1; lia|].
  destruct (3 <? version) eqn:E2; [apply Z.ltb_lt in E2; lia|].
  cbn [orb]. unfold entry_bytes. rewrite <- !app_assoc.
  rewrite (read_full_exact _ _ 62 off (length_encode_fixed _ Hsha)).
  rewrite (decode_encode_fixed _ Hf).
  fold (ExtendedFlag e). unfold on_disk, ext_bytes.
  rewrite !length_app, (length_encode_fixed _ Hsha), length_bytes_of_string,
    repeat_length.
  set (len := Z.of_nat (String.length (PathName e))) in *.
  assert (Hnn : (Z.land (Z.land (Flags (Fixed e)) 4095) 4095 =? 4095) = false).
  { rewrite Hbits. apply Z.eqb_neq.
    change 4095 with (Z.ones 12) at 1. rewrite Z.land_ones by lia.
    rewrite Z.mod_small; [lia|]. change (2 ^ 12) with 4096. lia. }
  rewrite Hnn. cbn [negb]. rewrite Hbits. unfold len at 1. rewrite Nat2Z.id.
  rewrite <- (length_bytes_of_string (PathName e)).
  assert (Hname : (Z.of_nat (length (bytes_of_string (PathName e))) =? len) = true).
  { apply Z.eqb_eq. rewrite length_bytes_of_string. reflexivity. }
  destruct (ExtendedFlag e) eqn:Ee.
  - destruct (He eq_refl) as (Hv2 & v & Hv3 & Hu). rewrite Hv3.
    destruct (version <? 3) eqn:E3; [apply Z.ltb_lt in E3; lia|].
    rewrite (read_full_exact _ _ 2 _ (length_be_encode 2 _)).
    rewrite (be_decode_encode_small 2 _ Hu).
    rewrite (file_read_exact (bytes_of_string (PathName e))
               (repeat x00 (Z.to_nat (write_padding e)) ++ tl)), Hname.
    cbn [negb].
    rewrite string_of_bytes_of_string.
    rewrite seek_cur_exact
      by (rewrite repeat_length, Hpad; reflexivity).
    destruct v as [x]. cbn [ExtFlags]. do 3 f_equal.
    rewrite length_be_encode, length_bytes_of_string. fold len.
    rewrite <- Hpad. lia.
  - rewrite (file_read_exact (bytes_of_string (PathName e))
               (repeat x00 (Z.to_nat (write_padding e)) ++ tl)), Hname.
    cbn [negb].
    rewrite string_of_bytes_of_string.
    rewrite seek_cur_exact
      by (rewrite repeat_length, Hpad; reflexivity).
    do 3 f_equal. cbn [length]. rewrite length_bytes_of_string. fold len.
    rewrite <- Hpad. lia.
Qed.

Lemma read_entries_written (version : Z) (es : list IndexEntry) (off : Z)
  (tl : list byte) :
  version = 2 \/ version = 3 -> Forall (wf_entry version) es ->
  read_entries (length es)
    (mkReader off (concat (map entry_bytes es) ++ tl)) version
  = Ret (map (fun e => Some (on_disk e)) es).
Proof.
  intros Hv Hes. revert off.
  induction Hes as [|e es He Hes IH]; intros off; [reflexivity|].
  cbn [length map concat read_entries]. rewrite <- app_assoc.
  rewrite (ReadIndexEntry_entry_bytes version e off _ Hv He).
  cbn [obind]. rewrite IH. reflexivity.
Qed.

Lemma read_header_written (sig : list byte) (version count : Z)
  (tl : list byte) :
  length sig = 4%nat -> uint32 version -> uint32 count ->
  read_header (encode_header sig version count ++ tl)
  = (sig, version, count, mkReader 12 tl).
Proof.
  intros Hsig Hv Hc. unfold read_header, encode_header.
  assert (Hlen : length (sig ++ be_encode 4 version ++ be_encode 4 count)
                 = 12%nat)
    by (rewrite !length_app, !length_be_encode, Hsig; reflexivity).
  rewrite (read_full_exact _ tl 12 0 Hlen).
  rewrite (firstn_app_exact sig _ 4 Hsig).
  rewrite (skipn_app_exact sig _ 4 Hsig).
  rewrite (firstn_app_exact _ _ 4 (length_be_encode 4 version)).
  rewrite (skipn_app_add sig _ 4 4 Hsig).
  rewrite (skipn_app_exact _ _ 4 (length_be_encode 4 version)).
  rewrite firstn_all2 by (rewrite length_be_encode; lia).
  rewrite !be_decode_encode_small by assumption. reflexivity.
Qed.

Lemma WriteIndex_wf (g : Index) (es : list IndexEntry) :
  wf_index g es ->
  exists sorted,
    SortByPath (Objects g) = Ret (map Some sorted) /\
    Permutation sorted es /\
    WriteIndex g
    = Ret (index_body g sorted ++ SHA1.sum (index_body g sorted), None).
Proof.
  intros (Hobjs & Hsig & Hv & Hes & Hcount).
  destruct (SortByPath_total es) as [sorted Hsort].
  assert (Hperm : Permutation sorted es).
  { pose proof (SortByPath_perm _ _ Hsort) as Hp.
    apply (Permutation_map_inv) in Hp as (l & Hl & Hp).
    apply (f_equal (map (fun o => match o with Some e => [e] | None => [] end)))
      in Hl.
    rewrite !map_map in Hl. apply (f_equal (@concat _)) in Hl.
    assert (Hflat : forall l0 : list IndexEntry,
               concat (map (fun x => [x]) l0) = l0).
    { induction l0 as [|x l0 IHl]; simpl; congruence. }
    rewrite !Hflat in Hl. subst l. symmetry. exact Hp. }
  exists sorted. split; [rewrite Hobjs; exact Hsort|]. split; [exact Hperm|].
  unfold WriteIndex. rewrite Hobjs, Hsort. cbn [obind].
  assert (Hwf : Forall (wf_entry (Version g)) sorted).
  { eapply Permutation_Forall; [symmetry; exact Hperm | exact Hes]. }
  rewrite (write_entries_wf _ _ Hwf). cbn [obind].
  rewrite length_map.
  rewrite Z.mod_small
    by (rewrite (Permutation_length Hperm); lia).
  unfold index_body. rewrite <- !app_assoc. reflexivity.
Qed.

(** Reading the body back, whatever follows it. *)
Lemma ReadIndex_body (g : Index) (sorted : list IndexEntry) (tl : list byte) :
  Signature g = DIRC -> Version g = 2 \/ Version g = 3 ->
  Forall (wf_entry (Version g)) sorted ->
  Z.of_nat (length sorted) < 2 ^ 32 ->
  ReadIndex (Opened (index_body g sorted ++ tl))
  = Ret (Some (mkIndex DIRC (Version g) (Z.of_nat (length sorted))
                       (map (fun e => Some (on_disk e)) sorted)), None).
Proof.
  intros Hsig Hv Hes Hcount. unfold ReadIndex, index_body.
  rewrite <- app_assoc, Hsig.
  rewrite read_header_written;
    [|reflexivity | unfold uint32; lia | unfold uint32; lia].
  change (bytes_eqb DIRC DIRC) with true. cbn [negb].
  destruct (Version g <? 2) eqn:E1; [apply Z.ltb_lt in E1; lia|].
  destruct (4 <? Version g) eqn:E2; [apply Z.ltb_lt in E2; lia|].
  cbn [orb]. rewrite Nat2Z.id.
  rewrite (read_entries_written _ _ _ _ Hv Hes). reflexivity.
Qed.


(** When [ReadIndex] returns an error for a file it could open, the error
    is [InvalidIndex] and it comes from the signature or the version. *)
Lemma ReadIndex_error_from_header (contents : list byte) (r : option Index)
  (e : error) :
  ReadIndex (Opened contents) = Ret (r, Some e) ->
  e = InvalidIndex /\ r = None /\
  let '(sig, version, _) := fst (read_header contents) in
  sig <> DIRC \/ version < 2 \/ 4 < version.
Proof.
  unfold ReadIndex. intros H.
  destruct (read_header contents) as [[[sig version] count] rd]. cbn [fst].
  destruct (bytes_eqb sig DIRC) eqn:Es; cbn [negb] in H.
  - destruct (version <? 2) eqn:E1; cbn [orb] in H.
    + injection H as <- <-. apply Z.ltb_lt in E1. auto.
    + destruct (4 <? version) eqn:E2.
      * injection H as <- <-. apply Z.ltb_lt in E2. auto.
      * outcome_inv H as indexes. discriminate.
  - injection H as <- <-. repeat split; auto. left. intros ->.
    assert (bytes_eqb DIRC DIRC = true) by reflexivity. congruence.
Qed.


Lemma plain_entry_wf (version : Z) (path : string) :
  Z.of_nat (String.length path) < 4095 -> wf_entry version (plain_entry path 0).
Proof.
  intros Hlen.
  assert (Hflags : new_flags path 0 = Z.of_nat (String.length path)).
  { unfold new_flags. change (Z.shiftl 0 12 mod 2 ^ 16) with 0.
    destruct (4095 <=? _) eqn:E; [apply Z.leb_le in E; lia|].
    rewrite Z.lor_0_l.
    rewrite Z.mod_small by (change (2 ^ 16) with 65536; lia).
    change 4095 with (Z.ones 12). rewrite Z.land_ones by lia.
    apply Z.mod_small. change (2 ^ 12) with 4096. lia. }
  assert (Hne : ExtendedFlag (plain_entry path 0) = false).
  { unfold ExtendedFlag. rewrite FixedExtendedFlag_testbit.
    apply (new_flags_stage path 0). lia. }
  split; [|split].
  - unfold wf_fixed, plain_entry, uint32, uint16, int64.
    cbn [Fixed Ctime Ctimenano Mtime Dev Ino Mode Uid Gid Fsize Sha1 Flags].
    rewrite Hflags. change (2 ^ 16) with 65536. change (2 ^ 32) with 4294967296.
    change (2 ^ 63) with 9223372036854775808.
    repeat split; try lia. 
  - split; [exact Hlen|]. unfold plain_entry. cbn [Fixed Flags PathName].
    rewrite Hflags. change 4095 with (Z.ones 12). rewrite Z.land_ones by lia.
    apply Z.mod_small. change (2 ^ 12) with 4096. lia.
  - rewrite Hne. discriminate.
Qed.



(** The written index of scenario 1 of the specification: the header and
    its SHA-1. *)
Example WriteIndex_empty :
  WriteIndex NewIndex
  = Ret ([x44; x49; x52; x43; x00; x00; x00; x02; x00; x00; x00; x00;
          x39; xd8; x90; x13; x9e; xe5; x35; x6c; x7e; xf5;
          x72; x21; x6c; xeb; xcd; x27; xaa; x41; xf9; xdf], None).
Proof. vm_compute. reflexivity. Qed.


(** ** A long name *)

(** The index is the one [AddStage] builds from [NewIndex]. *)
Example long_name_index_built :
  (do '(g1, _) <- AddStage empty_fs NewIndex "b" 33188 zero_sha Stage0 0 0
                           (mkOpts true false);
   AddStage empty_fs g1 long_path 33188 zero_sha Stage0 0 0 (mkOpts true false))
  = Ret (long_name_index, None).
Proof. vm_compute. reflexivity. Qed.

(** The writer pads the long name with one byte; the reader, having
    consumed that byte as the end of the name, skips eight more. *)
Example long_name_padding :
  write_padding (plain_entry long_path 0) = 1 /\
  8 - ((12 + 62 + 4097 + 1 + 4) mod 8) = 8.
Proof. split; vm_compute; reflexivity. Qed.

(** C1. [WriteIndex] of the index with the long name and "b" succeeds and
    writes 4256 bytes; [ReadIndex] of these bytes returns no error, reads
    the first entry back, and has lost the second: its slot is nil. *)
Theorem WriteIndex_ReadIndex_long_name :
  WriteIndex long_name_index = Ret (written long_name_index, None) /\
  length (written long_name_index) = 4256%nat /\
  ReadIndex (Opened (written long_name_index))
  = Ret (Some (mkIndex DIRC 2 2
                 [Some (on_disk (plain_entry long_path 0)); None]), None).
Proof. split; [|split]; vm_compute; reflexivity. Qed.

(** ** Version 4 *)

Lemma read_entries_unsupported (n : nat) (file : Reader) (version : Z) :
  3 < version -> read_entries n file version = Ret (repeat None n).
Proof.
  intros H. induction n as [|n IH]; [reflexivity|].
  cbn [read_entries repeat]. rewrite (ReadIndexEntry_unsupported _ _ H).
  cbn [obind]. rewrite IH. reflexivity.
Qed.

(** A file with the signature and version 4 is accepted, and none of its
    entries is read: every slot is nil and the count is the header's. *)
Lemma ReadIndex_version4_all_nil (contents : list byte) (count : Z) (r : Reader) :
  read_header contents = (DIRC, 4, count, r) ->
  ReadIndex (Opened contents)
  = Ret (Some (mkIndex DIRC 4 count (repeat None (Z.to_nat count))), None).
Proof.
  intros H. unfold ReadIndex. rewrite H.
  change (bytes_eqb DIRC DIRC) with true. cbn [negb Z.ltb Z.compare orb].
  rewrite read_entries_unsupported by lia. reflexivity.
Qed.

(** ** [ByPath.Less] is a strict order on (path, stage) *)

Lemma byte_lt_irrefl (a : ascii) : byte_lt a a = false.
Proof. unfold byte_lt. apply N.ltb_irrefl. Qed.

Lemma byte_lt_trans (a b c : ascii) :
  byte_lt a b = true -> byte_lt b c = true -> byte_lt a c = true.
Proof. unfold byte_lt. rewrite !N.ltb_lt. lia. Qed.

Lemma byte_lt_asym (a b : ascii) : byte_lt a b = true -> byte_lt b a = false.
Proof. unfold byte_lt. rewrite N.ltb_lt, N.ltb_ge. lia. Qed.

Lemma byte_lt_connected (a b : ascii) :
  byte_lt a b = false -> byte_lt b a = false -> a = b.
Proof.
  unfold byte_lt. rewrite !N.ltb_ge. intros H1 H2.
  rewrite <- (ascii_N_embedding a), <- (ascii_N_embedding b).
  f_equal. lia.
Qed.

Lemma bytes_less_refl (s : string) : bytes_less s s = true.
Proof.
  induction s as [|c s IH]; simpl; [reflexivity|].
  rewrite byte_lt_irrefl. exact IH.
Qed.

Lemma bytes_less_antisym (a b : string) :
  bytes_less a b = true -> bytes_less b a = true -> a = b.
Proof.
  revert b. induction a as [|c a IH]; intros [|d b]; simpl; try congruence.
  destruct (byte_lt c d) eqn:Ecd.
  - rewrite (byte_lt_asym _ _ Ecd). discriminate.
  - destruct (byte_lt d c) eqn:Edc; [discriminate|].
    intros H1 H2. rewrite (byte_lt_connected c d Ecd Edc).
    f_equal. apply IH; assumption.
Qed.

Lemma bytes_less_trans (a b c : string) :
  bytes_less a b = true -> bytes_less b c = true -> bytes_less a c = true.
Proof.
  revert b c. induction a as [|x a IH]; intros [|y b] [|z c]; simpl;
    try congruence.
  destruct (byte_lt x y) eqn:Exy.
  - intros _. destruct (byte_lt y z) eqn:Eyz.
    + rewrite (byte_lt_trans _ _ _ Exy Eyz). reflexivity.
    + destruct (byte_lt z y) eqn:Ezy; [discriminate|].
      rewrite <- (byte_lt_connected y z Eyz Ezy), Exy. reflexivity.
  - destruct (byte_lt y x) eqn:Eyx; [discriminate|].
    rewrite (byte_lt_connected x y Exy Eyx).
    destruct (byte_lt y z); [reflexivity|].
    destruct (byte_lt z y); [congruence|]. apply IH.
Qed.

Lemma bytes_less_total (a b : string) :
  bytes_less a b = true \/ bytes_less b a = true.
Proof.
  revert b. induction a as [|x a IH]; intros [|y b]; simpl; auto.
  destruct (byte_lt x y) eqn:Exy; [auto|].
  destruct (byte_lt y x) eqn:Eyx; [auto|]. apply IH.
Qed.

(** A path sorts before every path it is a proper prefix of. *)
Lemma bytes_less_append (a suffix : string) : bytes_less a (a +:+ suffix) = true.
Proof.
  induction a as [|c a IH]; simpl; [reflexivity|].
  rewrite byte_lt_irrefl. exact IH.
Qed.

Lemma Less_irrefl (a : IndexEntry) : Less a a = false.
Proof. unfold Less. rewrite String.eqb_refl. apply Z.ltb_irrefl. Qed.

Lemma Less_trans (a b c : IndexEntry) :
  Less a b = true -> Less b c = true -> Less a c = true.
Proof.
  unfold Less.
  destruct (String.eqb_spec (PathName a) (PathName b)) as [Eab|Nab];
    destruct (String.eqb_spec (PathName b) (PathName c)) as [Ebc|Nbc];
    destruct (String.eqb_spec (PathName a) (PathName c)) as [Eac|Nac];
    try congruence.
  - rewrite !Z.ltb_lt. lia.
  - intros H1 H2. rewrite <- Eac in H2.
    exfalso. apply Nab. apply bytes_less_antisym; assumption.
  - apply bytes_less_trans.
Qed.

Lemma Less_connected (a b : IndexEntry) :
  Less a b = false -> Less b a = false -> sort_key a = sort_key b.
Proof.
  unfold Less, sort_key.
  destruct (String.eqb_spec (PathName a) (PathName b)) as [Eab|Nab].
  - rewrite Eab, String.eqb_refl, !Z.ltb_ge. intros H1 H2. f_equal. lia.
  - destruct (String.eqb_spec (PathName b) (PathName a)) as [Eba|Nba];
      [congruence|].
    intros H1 H2.
    destruct (bytes_less_total (PathName a) (PathName b)); congruence.
Qed.

Lemma Less_key_l (a a' b : IndexEntry) :
  sort_key a = sort_key a' -> Less a b = Less a' b.
Proof. unfold sort_key, Less. intros H. injection H as -> ->. reflexivity. Qed.

Lemma Less_key_r (a b b' : IndexEntry) :
  sort_key b = sort_key b' -> Less a b = Less a b'.
Proof. unfold sort_key, Less. intros H. injection H as -> ->. reflexivity. Qed.

Lemma Less_asym (a b : IndexEntry) : Less a b = true -> Less b a = false.
Proof.
  intros H. destruct (Less b a) eqn:E; [|reflexivity].
  pose proof (Less_trans _ _ _ H E) as Haa. rewrite Less_irrefl in Haa.
  discriminate.
Qed.

Lemma not_after_trans (a b c : IndexEntry) :
  not_after a b -> not_after b c -> not_after a c.
Proof.
  unfold not_after. intros Hba Hcb.
  destruct (Less c a) eqn:Hca; [|reflexivity].
  destruct (Less b c) eqn:Hbc.
  - rewrite (Less_trans _ _ _ Hbc Hca) in Hba. discriminate.
  - pose proof (Less_connected _ _ Hbc Hcb) as Hk.
    rewrite (Less_key_l b c a Hk), Hca in Hba. discriminate.
Qed.

(** X1. [ByPath.Less] is a strict order that separates any two entries
    differing in path or stage: it is irreflexive and transitive, two
    entries neither of which is less than the other have the same path and
    stage, and a path comes before every longer path it is a prefix of. *)
Theorem Less_strict_order :
  (forall a, Less a a = false) /\
  (forall a b c, Less a b = true -> Less b c = true -> Less a c = true) /\
  (forall a b, Less a b = false -> Less b a = false ->
               PathName a = PathName b /\ Stage a = Stage b) /\
  (forall a b suffix, suffix <> "" -> PathName b = PathName a +:+ suffix ->
                      Less a b = true).
Proof.
  split; [exact Less_irrefl|]. split; [exact Less_trans|]. split.
  - intros a b H1 H2. pose proof (Less_connected a b H1 H2) as Hk.
    unfold sort_key in Hk. injection Hk as Hp Hs. auto.
  - intros a b suffix Hne Hb. unfold Less.
    destruct (String.eqb_spec (PathName a) (PathName b)) as [E|N].
    + exfalso. rewrite Hb in E. apply Hne.
      apply (f_equal String.length) in E. rewrite length_append in E.
      destruct suffix; [reflexivity | simpl in E; lia].
    + rewrite Hb. apply bytes_less_append.
Qed.

Lemma Less_strict_order_witness :
  PathName (plain_entry "dir/a" 0) = PathName (plain_entry "dir" 0) +:+ "/a" /\
  Less (plain_entry "dir" 0) (plain_entry "dir/a" 0) = true.
Proof.
  split; [reflexivity|].
  apply (proj2 (proj2 (proj2 Less_strict_order)) _ _ "/a");
    [discriminate | reflexivity].
Defined.

(** ** The operations keep the entries in order *)

Lemma thinned_refl (l : list IndexEntry) : thinned l l.
Proof.
  induction l as [|x l IH];
    [apply thinned_nil | apply thinned_keep; [reflexivity | exact IH]].
Qed.

Lemma thinned_In (l' l : list IndexEntry) :
  thinned l' l ->
  forall x, In x l' -> exists y, In y l /\ sort_key x = sort_key y.
Proof.
  induction 1 as [|x l' l H IH|x' x l' l Hk H IH]; intros y Hy.
  - destruct Hy.
  - destruct (IH y Hy) as (z & Hz & Hkz). exists z. split; [right|]; auto.
  - destruct Hy as [<-|Hy].
    + exists x. split; [left; reflexivity | exact Hk].
    + destruct (IH y Hy) as (z & Hz & Hkz). exists z. split; [right|]; auto.
Qed.

Lemma thinned_ascending (l' l : list IndexEntry) :
  thinned l' l -> ascending l -> ascending l'.
Proof.
  unfold ascending.
  induction 1 as [|x l' l H IH|x' x l' l Hk H IH]; intros Hs.
  - constructor.
  - apply StronglySorted_inv in Hs as [Hs _]. auto.
  - apply StronglySorted_inv in Hs as [Hs Hall]. constructor; [auto|].
    rewrite List.Forall_forall in *. intros y Hy.
    destruct (thinned_In _ _ H y Hy) as (z & Hz & Hkz).
    rewrite (Less_key_l x' x y Hk), (Less_key_r x y z Hkz). auto.
Qed.

Lemma same_stage_sort_key (e : IndexEntry) (path : string) (stage : Z) :
  same_stage e path stage = true <-> sort_key e = (path, stage).
Proof.
  rewrite same_stage_key. unfold sort_key. split.
  - intros [-> ->]. reflexivity.
  - intros H. injection H as -> ->. auto.
Qed.

Lemma RemoveUnmergedStages_loop_thinned (es : list IndexEntry) (path : string) :
  exists es', RemoveUnmergedStages_loop (map Some es) path = Ret (map Some es')
              /\ thinned es' es.
Proof.
  induction es as [|e es (es' & IH & Ht)]; [exists []; split; [reflexivity | constructor]|].
  cbn [map RemoveUnmergedStages_loop]. rewrite IH. cbn [obind].
  destruct ((PathName e =? path)%string && (Stage e =? Stage0)).
  - exists (e :: es'). split; [reflexivity|].
      apply thinned_keep; [reflexivity | exact Ht].
  - destruct ((PathName e =? path)%string && negb (Stage e =? Stage0)).
    + exists es'. split; [reflexivity | apply thinned_drop; exact Ht].
    + exists (e :: es'). split; [reflexivity|].
      apply thinned_keep; [reflexivity | exact Ht].
Qed.

Lemma replaceEntriesScan_thinned (es : list IndexEntry) (path : string)
  (replace : bool) (newObjects : list (option IndexEntry)) :
  replaceEntriesScan path replace (map Some es) = Ret (inr newObjects) ->
  exists es', newObjects = map Some es' /\ thinned es' es.
Proof.
  revert newObjects. induction es as [|e es IH]; intros newObjects H.
  - injection H as <-. exists []. split; [reflexivity | constructor].
  - cbn [map replaceEntriesScan] in H.
    destruct (HasPrefix (PathName e) (path +:+ "/")).
    { destruct replace; cbn [negb] in H; [|discriminate].
      destruct (IH _ H) as (es' & -> & Ht). exists es'.
      split; [reflexivity | apply thinned_drop; exact Ht]. }
    destruct (HasPrefix path (PathName e +:+ "/")).
    { destruct replace; cbn [negb] in H; [|discriminate].
      destruct (IH _ H) as (es' & -> & Ht). exists es'.
      split; [reflexivity | apply thinned_drop; exact Ht]. }
    outcome_inv H as r. destruct r as [err|l]; [discriminate|].
    injection H as <-. destruct (IH _ eq_refl) as (es' & -> & Ht).
    exists (e :: es'). split; [reflexivity|].
      apply thinned_keep; [reflexivity | exact Ht].
Qed.

Lemma update_entry_thinned (es : list IndexEntry) (path : string) (stage : Z)
  (new : IndexEntry) :
  sort_key new = (path, stage) ->
  exists es', update_entry (map Some es) path stage new = map Some es'
              /\ thinned es' es.
Proof.
  intros Hk. induction es as [|e es (es' & IH & Ht)];
    [exists []; split; [reflexivity | constructor]|].
  cbn [map update_entry]. destruct (same_stage e path stage) eqn:E.
  - exists (new :: es). split; [reflexivity|].
    apply thinned_keep; [|apply thinned_refl].
    apply same_stage_sort_key in E. congruence.
  - exists (e :: es'). rewrite IH. split; [reflexivity|].
    apply thinned_keep; [reflexivity | exact Ht].
Qed.

Lemma RemoveFile_loop_thinned (es : list IndexEntry) (file : string)
  (objs : list (option IndexEntry)) :
  RemoveFile_loop (map Some es) file = Ret (Some objs) ->
  exists es', objs = map Some es' /\ thinned es' es.
Proof.
  revert objs. induction es as [|e es IH]; intros objs H; [discriminate|].
  cbn [map RemoveFile_loop] in H. destruct (PathName e =? file)%string.
  - injection H as <-. exists es. split; [reflexivity|].
    apply thinned_drop. apply thinned_refl.
  - outcome_inv H as r. destruct r as [l|]; simpl in H; [|discriminate].
    injection H as <-. destruct (IH _ eq_refl) as (es' & -> & Ht).
    exists (e :: es'). split; [reflexivity|].
      apply thinned_keep; [reflexivity | exact Ht].
Qed.

(** Setting or clearing the skip-worktree bit leaves the stage alone. *)
Lemma EntrySetSkipWorktree_key (e : IndexEntry) (value : bool) :
  sort_key (EntrySetSkipWorktree e value) = sort_key e.
Proof.
  unfold sort_key, Stage, EntrySetSkipWorktree. cbn [PathName Fixed].
  f_equal. destruct value; [|reflexivity].
  unfold SetExtendedFlag, set_Flags. cbn [Flags].
  rewrite Z.shiftr_lor. change (Z.shiftr 16384 12) with 4.
  rewrite Z.land_lor_distr_l. change (Z.land 4 3) with 0.
  apply Z.lor_0_r.
Qed.

Lemma SetSkipWorktree_loop_thinned (es : list IndexEntry) (path : string)
  (value : bool) (objs : list (option IndexEntry)) (err : option error) :
  SetSkipWorktree_loop (map Some es) path value = Ret (objs, err) ->
  exists es', objs = map Some es' /\ thinned es' es.
Proof.
  revert objs. induction es as [|e es IH]; intros objs H.
  - injection H as <- <-. exists []. split; [reflexivity | constructor].
  - cbn [map SetSkipWorktree_loop] in H.
    destruct (PathName e =? path)%string.
    + destruct (Stage e =? Stage0); cbn [negb] in H; injection H as <- <-.
      * exists (EntrySetSkipWorktree e value :: es). split; [reflexivity|].
        apply thinned_keep; [apply EntrySetSkipWorktree_key | apply thinned_refl].
      * exists (e :: es). split; [reflexivity | apply thinned_refl].
    + outcome_inv H as r. destruct r as [rest' err']. injection H as <- <-.
      destruct (IH _ eq_refl) as (es' & -> & Ht).
      exists (e :: es'). split; [reflexivity|].
      apply thinned_keep; [reflexivity | exact Ht].
Qed.

(** Insertion sort sorts, because [Less] is a strict weak order. *)
Lemma insert_sorted_sorted (x : IndexEntry) (l : list IndexEntry) :
  StronglySorted not_after l -> StronglySorted not_after (insert_sorted x l).
Proof.
  induction 1 as [|y l Hs IH Hall]; simpl; [repeat constructor|].
  destruct (Less x y) eqn:E.
  - constructor; [constructor; assumption|].
    assert (Hxy : not_after x y) by (apply Less_asym; exact E).
    constructor; [exact Hxy|].
    rewrite List.Forall_forall in *. intros z Hz.
    eapply not_after_trans; eauto.
  - constructor; [exact IH|].
    rewrite List.Forall_forall in *. intros z Hz.
    eapply Permutation_in in Hz; [|apply insert_sorted_perm].
    destruct Hz as [<-|Hz]; [exact E | auto].
Qed.

Lemma sort_entries_sorted (l : list IndexEntry) :
  StronglySorted not_after (sort_entries l).
Proof.
  unfold sort_entries.
  assert (H : forall acc, StronglySorted not_after acc ->
            StronglySorted not_after
              (fold_left (fun acc x => insert_sorted x acc) l acc)).
  { induction l as [|x l IH]; intros acc Hacc; simpl; [exact Hacc|].
    apply IH, insert_sorted_sorted, Hacc. }
  apply H. constructor.
Qed.

Lemma SortByPath_sort_entries (es : list IndexEntry) :
  SortByPath (map Some es) = Ret (map Some (sort_entries es)).
Proof.
  destruct es as [|a [|b es]]; try reflexivity.
  unfold SortByPath.
  change (map Some (a :: b :: es)) with (Some a :: Some b :: map Some es).
  cbv iota beta.
  change (Some a :: Some b :: map Some es) with (map Some (a :: b :: es)).
  rewrite deref_all_total. reflexivity.
Qed.

(** Sorted entries with pairwise different keys ascend strictly. *)
Lemma sorted_distinct_ascending (l : list IndexEntry) :
  StronglySorted not_after l -> List.NoDup (map sort_key l) -> ascending l.
Proof.
  unfold ascending. induction 1 as [|x l Hs IH Hall]; intros Hnd; [constructor|].
  cbn [map] in Hnd. apply List.NoDup_cons_iff in Hnd as [Hnotin Hnd].
  constructor; [auto|].
  rewrite List.Forall_forall in *. intros y Hy.
  destruct (Less x y) eqn:E; [reflexivity|]. exfalso. apply Hnotin.
  rewrite (Less_connected x y E (Hall y Hy)). apply in_map. exact Hy.
Qed.

Lemma ascending_distinct (l : list IndexEntry) :
  ascending l -> List.NoDup (map sort_key l).
Proof.
  unfold ascending. induction 1 as [|x l Hs IH Hall]; cbn [map]; constructor; auto.
  intros Hin. apply in_map_iff in Hin as (y & Hk & Hy).
  rewrite List.Forall_forall in Hall. specialize (Hall y Hy).
  rewrite (Less_key_r x y x Hk), Less_irrefl in Hall. discriminate.
Qed.

(** Appending an entry with a new key and sorting gives ascending entries. *)
Lemma sort_with_new_ascending (es : list IndexEntry) (new : IndexEntry) :
  ascending es -> ~ In (sort_key new) (map sort_key es) ->
  ascending (sort_entries (es ++ [new])).
Proof.
  intros Hes Hnew. apply sorted_distinct_ascending; [apply sort_entries_sorted|].
  eapply Permutation_NoDup.
  - symmetry. apply Permutation_map, sort_entries_perm.
  - rewrite map_app. cbn [map].
    eapply Permutation_NoDup; [apply Permutation_cons_append|].
    constructor; [exact Hnew | apply ascending_distinct; exact Hes].
Qed.

Lemma replaceEntriesCheck_thinned (g g1 : Index) (es : list IndexEntry)
  (path : string) (stage : Z) (opts : UpdateIndexOptions) (err : option error) :
  Objects g = map Some es ->
  replaceEntriesCheck g path stage opts = Ret (g1, err) ->
  exists es1, Objects g1 = map Some es1 /\ thinned es1 es.
Proof.
  intros Hobjs H. unfold replaceEntriesCheck in H.
  destruct (stage =? Stage0); cbn [negb] in H.
  - rewrite Hobjs in H. outcome_inv H as r.
    destruct r as [e|newObjects]; injection H as <- <-.
    + exists es. split; [exact Hobjs | apply thinned_refl].
    + apply replaceEntriesScan_thinned in E as (es1 & -> & Ht).
      exists es1. split; [reflexivity | exact Ht].
  - injection H as <- <-. exists es. split; [exact Hobjs | apply thinned_refl].
Qed.

Lemma new_entry_key (fs : FileSystem) (path : string) (stage : Z)
  (f : FixedIndexEntry) (v3 : option V3IndexExtensions) :
  0 <= stage <= 3 -> Flags f = new_flags path stage ->
  sort_key (fst (RefreshStat fs (mkEntry f v3 path))) = (path, stage).
Proof.
  intros Hs Hf. destruct (RefreshStat_key fs (mkEntry f v3 path)) as [Hp Hfl].
  unfold sort_key, Stage. rewrite Hp, Hfl. cbn [PathName Fixed]. rewrite Hf.
  rewrite (proj1 (new_flags_stage path stage Hs)). reflexivity.
Qed.

Lemma AddStage_body_order (fs : FileSystem) (g g1 : Index)
  (es : list IndexEntry) (path : string) (mode : Z) (s : list byte)
  (stage size mtime : Z) (opts : UpdateIndexOptions) (err : option error) :
  Objects g = map Some es -> ascending es -> 0 <= stage <= 3 ->
  AddStage_body fs g path mode s stage size mtime opts = Ret (g1, err) ->
  exists es1, Objects g1 = map Some es1 /\ ascending es1.
Proof.
  intros Hobjs Hasc Hs H. unfold AddStage_body in H.
  rewrite Hobjs, find_stage_total in H. cbn [obind] in H.
  destruct (List.find (fun e => same_stage e path stage) es)
    as [entry|] eqn:Ef.
  - apply find_some in Ef as [Hin Hsame].
    apply same_stage_sort_key in Hsame.
    outcome_inv H as r. destruct r as [g' err'].
    destruct (replaceEntriesCheck_thinned _ _ _ _ _ _ _ Hobjs E)
      as (es1 & Hobjs1 & Ht1).
    pose proof (thinned_ascending _ _ Ht1 Hasc) as Hasc1.
    destruct err' as [e'|]; [injection H as <- <-; eauto|].
    set (refreshed := if Exists fs _ && (stage =? Stage0)
                      then RefreshStat fs entry else (entry, None)) in H.
    assert (Hr : sort_key (fst refreshed) = sort_key entry).
    { unfold refreshed. destruct (Exists fs _ && (stage =? Stage0));
        [|reflexivity].
      destruct (RefreshStat_key fs entry) as [Hp Hfl].
      unfold sort_key, Stage. rewrite Hp, Hfl. reflexivity. }
    destruct refreshed as [entry1 [e1|]]; [injection H as <- <-; eauto|].
    cbn [fst] in Hr. injection H as <- <-. cbn [Objects set_Objects].
    rewrite Hobjs1.
    destruct (update_entry_thinned es1 path stage (overwrite entry1 s mtime size))
      as (es2 & Hup & Ht2).
    { transitivity (sort_key entry1); [reflexivity | congruence]. }
    exists es2. split; [exact Hup | eapply thinned_ascending; eauto].
  - destruct (Add opts); cbn [negb] in H; [|injection H as <- <-; eauto].
    outcome_inv H as r. destruct r as [g' err'].
    destruct (replaceEntriesCheck_thinned _ _ _ _ _ _ _ Hobjs E)
      as (es1 & Hobjs1 & Ht1).
    pose proof (thinned_ascending _ _ Ht1 Hasc) as Hasc1.
    destruct err' as [e'|]; [injection H as <- <-; eauto|].
    pose proof (new_entry_key fs path stage
                  (mkFixed 0 0 mtime 0 0 mode 0 0 size s (new_flags path stage))
                  (Some (mkV3 0)) Hs eq_refl) as Hkey.
    destruct (RefreshStat fs _) as [newentry1 ignored]. cbn [fst] in Hkey.
    rewrite Hobjs1 in H.
    change (map Some es1 ++ [Some newentry1])
      with (map Some es1 ++ map Some [newentry1]) in H.
    rewrite <- map_app, SortByPath_sort_entries in H. cbn [obind] in H.
    injection H as <- <-. cbn [Objects].
    exists (sort_entries (es1 ++ [newentry1])). split; [reflexivity|].
    apply sort_with_new_ascending; [exact Hasc1|].
    intros Hdup. apply in_map_iff in Hdup as (y & Hky & Hy).
    destruct (thinned_In _ _ Ht1 y Hy) as (z & Hz & Hkz).
    apply (find_none _ _ Ef) in Hz.
    assert (same_stage z path stage = true)
      by (apply same_stage_sort_key; congruence).
    congruence.
Qed.

Lemma RemoveUnmergedStages_order (g g' : Index) (es : list IndexEntry)
  (path : string) (err : option error) :
  Objects g = map Some es -> ascending es ->
  RemoveUnmergedStages g path = Ret (g', err) -> index_sorted g'.
Proof.
  intros Hobjs Hasc H. unfold RemoveUnmergedStages in H. rewrite Hobjs in H.
  destruct (RemoveUnmergedStages_loop_thinned es path) as (es' & Hl & Ht).
  rewrite Hl in H. cbn [obind] in H. injection H as <- <-.
  exists es'. split; [reflexivity | eapply thinned_ascending; eauto].
Qed.

(** X2. The in-memory operations keep an index free of nil entries and
    its entries strictly ascending in the order of [ByPath] (by path, then
    by stage, no two entries with the same path and stage): whenever they
    return, with or without an error, [AddStage] (for a merge stage 0 to
    3), [RemoveFile], [RemoveUnmergedStages] and [SetSkipWorktree] leave
    such an index such an index. *)
Theorem operations_keep_order :
  (forall fs g g' path mode s stage size mtime opts err,
      0 <= stage <= 3 -> index_sorted g ->
      AddStage fs g path mode s stage size mtime opts = Ret (g', err) ->
      index_sorted g') /\
  (forall g g' file,
      index_sorted g -> RemoveFile g file = Ret g' -> index_sorted g') /\
  (forall g g' path err,
      index_sorted g -> RemoveUnmergedStages g path = Ret (g', err) ->
      index_sorted g') /\
  (forall g g' path value err,
      index_sorted g -> SetSkipWorktree g path value = Ret (g', err) ->
      index_sorted g').
Proof.
  split; [|split; [|split]].
  - intros fs g g' path mode s stage size mtime opts err Hs (es & Hobjs & Hasc) H.
    unfold AddStage in H. outcome_inv H as r. destruct r as [g1 err1].
    destruct (AddStage_body_order _ _ _ _ _ _ _ _ _ _ _ _ Hobjs Hasc Hs E)
      as (es1 & Hobjs1 & Hasc1).
    destruct (stage =? Stage0).
    + outcome_inv H as r2. destruct r2 as [g2 ignored]. injection H as <- <-.
      eapply RemoveUnmergedStages_order; eauto.
    + injection H as <- <-. exists es1. auto.
  - intros g g' file (es & Hobjs & Hasc) H. unfold RemoveFile in H.
    rewrite Hobjs in H. outcome_inv H as r.
    destruct r as [objs|]; injection H as <-; [|exists es; auto].
    apply RemoveFile_loop_thinned in E as (es' & -> & Ht).
    exists es'. split; [reflexivity | eapply thinned_ascending; eauto].
  - intros g g' path err (es & Hobjs & Hasc) H.
    eapply RemoveUnmergedStages_order; eauto.
  - intros g g' path value err (es & Hobjs & Hasc) H.
    unfold SetSkipWorktree in H. rewrite Hobjs in H. outcome_inv H as r.
    destruct r as [objs err0].
    apply SetSkipWorktree_loop_thinned in E as (es' & -> & Ht).
    pose proof (thinned_ascending _ _ Ht Hasc) as Hasc'.
    destruct err0 as [e|]; [injection H as <- <-; exists es; auto|].
    destruct ((Version _ <=? 2) && value); injection H as <- <-;
      exists es'; auto.
Qed.

Lemma operations_keep_order_witness :
  index_sorted one_file_index /\
  AddStage empty_fs one_file_index "a" 33188 zero_sha Stage2 0 0
           (mkOpts true false)
  = Ret (mkIndex DIRC 2 2 [Some (plain_entry "a" 2); Some (plain_entry "a.txt" 0)],
         None) /\
  index_sorted
    (mkIndex DIRC 2 2 [Some (plain_entry "a" 2); Some (plain_entry "a.txt" 0)]).
Proof.
  assert (Hs : index_sorted one_file_index).
  { exists [plain_entry "a.txt" 0]. split; [reflexivity|].
    repeat constructor. }
  assert (Hrun : AddStage empty_fs one_file_index "a" 33188 zero_sha Stage2 0 0
                          (mkOpts true false)
                 = Ret (mkIndex DIRC 2 2
                          [Some (plain_entry "a" 2); Some (plain_entry "a.txt" 0)],
                        None))
    by (vm_compute; reflexivity).
  split; [exact Hs|]. split; [exact Hrun|].
  refine (proj1 operations_keep_order _ _ _ _ _ _ _ _ _ _ _ _ Hs Hrun).
  unfold Stage2. lia.
Defined.

(** ** Flags of an entry *)

Lemma bit14_testbit (a : Z) : (Z.land (Z.shiftr a 14) 1 =? 1) = Z.testbit a 14.
Proof.
  rewrite Z.shiftr_div_pow2 by lia.
  change 1 with (Z.ones 1) at 1. rewrite Z.land_ones by lia.
  pose proof (Z.testbit_spec' a 14 ltac:(lia)) as H.
  change (2 ^ 1) with 2. rewrite <- H.
  destruct (Z.testbit a 14); reflexivity.
Qed.

(** X3. [SkipWorktree] reads back what [IndexEntry.SetSkipWorktree] set,
    for every entry (with or without the extension, extended or not).
    Setting never touches the path, the stage or the name length, clearing
    leaves the flags word as it was, and in the extension only bit 14
    changes. *)
Theorem SetSkipWorktree_SkipWorktree (e : IndexEntry) (value : bool) :
  SkipWorktree (EntrySetSkipWorktree e value) = value /\
  PathName (EntrySetSkipWorktree e value) = PathName e /\
  Stage (EntrySetSkipWorktree e value) = Stage e /\
  Z.land (Flags (Fixed (EntrySetSkipWorktree e value))) 4095
  = Z.land (Flags (Fixed e)) 4095 /\
  (value = false -> Fixed (EntrySetSkipWorktree e value) = Fixed e) /\
  (forall n, n <> 14 ->
     Z.testbit (match V3 (EntrySetSkipWorktree e value) with
                | Some v => ExtFlags v
                | None => 0
                end) n
     = Z.testbit (match V3 e with Some v => ExtFlags v | None => 0 end) n).
Proof.
  pose proof (EntrySetSkipWorktree_key e value) as Hk.
  pose proof (f_equal fst Hk) as Hp. pose proof (f_equal snd Hk) as Hs.
  cbn [fst snd sort_key] in Hp, Hs.
  split; [|split; [exact Hp|split; [exact Hs|split; [|split]]]].
  - unfold SkipWorktree.
    rewrite EntrySetSkipWorktree_extended.
    unfold EntrySetSkipWorktree. cbn [V3 ExtFlags].
    destruct value; cbn [orb negb ExtFlags].
    + rewrite bit14_testbit, Z.lor_spec. change (Z.testbit 16384 14) with true.
      apply orb_true_r.
    + destruct (ExtendedFlag e); cbn [negb]; [|reflexivity].
      rewrite bit14_testbit, Z.ldiff_spec. change (Z.testbit 16384 14) with true.
      apply andb_false_r.
  - unfold EntrySetSkipWorktree. cbn [Fixed]. destruct value; [|reflexivity].
    unfold SetExtendedFlag, set_Flags. cbn [Flags].
    rewrite Z.land_lor_distr_l. change (Z.land 16384 4095) with 0.
    apply Z.lor_0_r.
  - intros ->. reflexivity.
  - intros n Hn. unfold EntrySetSkipWorktree. cbn [V3].
    assert (H14 : Z.testbit 16384 n = false).
    { destruct (Z_lt_le_dec n 0) as [Hneg|Hpos];
        [apply Z.testbit_neg_r; exact Hneg|].
      change 16384 with (2 ^ 14). rewrite Z.pow2_bits_eqb by lia.
      apply Z.eqb_neq. lia. }
    destruct value; cbn [ExtFlags].
    + rewrite Z.lor_spec, H14, orb_false_r. destruct (V3 e); reflexivity.
    + rewrite Z.ldiff_spec, H14, andb_true_r. destruct (V3 e); reflexivity.
Qed.

(** ** Lookups and removals on an index without nil entries *)

Lemma GetSha1_loop_find (es : list IndexEntry) (path : string) :
  GetSha1_loop (map Some es) path
  = Ret (match List.find (named path) es with
         | Some e => Sha1 (Fixed e)
         | None => zero_sha
         end).
Proof.
  induction es as [|e es IH]; [reflexivity|].
  cbn [map GetSha1_loop List.find]. unfold named at 1.
  destruct (PathName e =? path)%string; [reflexivity | exact IH].
Qed.

Lemma RemoveUnmergedStages_loop_filter (es : list IndexEntry) (path : string) :
  RemoveUnmergedStages_loop (map Some es) path
  = Ret (map Some (List.filter (merged_or_other path) es)).
Proof.
  induction es as [|e es IH]; [reflexivity|].
  cbn [map RemoveUnmergedStages_loop List.filter]. rewrite IH. cbn [obind].
  assert (Hm : merged_or_other path e
               = negb ((PathName e =? path)%string && negb (Stage e =? Stage0)))
    by reflexivity.
  rewrite Hm.
  destruct (PathName e =? path)%string; destruct (Stage e =? Stage0);
    reflexivity.
Qed.

(** Among the entries [RemoveUnmergedStages] keeps, the first one with the
    path is the first one with the path at stage 0. *)
Lemma find_named_merged (es : list IndexEntry) (path : string) :
  List.find (named path) (List.filter (merged_or_other path) es)
  = List.find (fun e => same_stage e path Stage0) es.
Proof.
  induction es as [|e es IH]; [reflexivity|].
  cbn [List.filter List.find].
  assert (Hm : merged_or_other path e
               = negb ((PathName e =? path)%string && negb (Stage e =? Stage0)))
    by reflexivity.
  assert (Hs : same_stage e path Stage0
               = (PathName e =? path)%string && (Stage e =? Stage0))
    by reflexivity.
  assert (Hn : named path e = (PathName e =? path)%string) by reflexivity.
  rewrite Hm, Hs.
  destruct (PathName e =? path)%string eqn:Ep;
    destruct (Stage e =? Stage0) eqn:Es; cbn [andb negb List.find];
    rewrite ?Hn, ?Ep; auto.
Qed.

Lemma find_update_entry (es : list IndexEntry) (path : string) (stage : Z)
  (new e : IndexEntry) :
  In e es -> same_stage e path stage = true ->
  same_stage new path stage = true ->
  exists es', update_entry (map Some es) path stage new = map Some es' /\
              List.find (fun x => same_stage x path stage) es' = Some new.
Proof.
  intros Hin He Hnew. induction es as [|x es IH]; [destruct Hin|].
  cbn [map update_entry]. destruct (same_stage x path stage) eqn:Ex.
  - exists (new :: es). split; [reflexivity|]. cbn [List.find].
    rewrite Hnew. reflexivity.
  - destruct Hin as [->|Hin]; [congruence|].
    destruct (IH Hin) as (es' & Hup & Hfind). exists (x :: es').
    rewrite Hup. split; [reflexivity|]. cbn [List.find]. rewrite Ex.
    exact Hfind.
Qed.

Lemma find_unique (f : IndexEntry -> bool) (l : list IndexEntry) (x : IndexEntry) :
  In x l -> f x = true -> (forall y, In y l -> f y = true -> y = x) ->
  List.find f l = Some x.
Proof.
  intros Hin Hx Huniq. destruct (List.find f l) as [y|] eqn:E.
  - apply find_some in E as [Hy Hfy]. f_equal. auto.
  - apply (find_none _ _ E) in Hin. congruence.
Qed.

Lemma replaceEntriesScan_sub (es : list IndexEntry) (path : string)
  (replace : bool) (newObjects : list (option IndexEntry)) :
  replaceEntriesScan path replace (map Some es) = Ret (inr newObjects) ->
  exists kept, newObjects = map Some kept /\
               (forall e, In e kept -> In e es) /\
               (forall e, In e es -> PathName e = path -> In e kept).
Proof.
  intros H. destruct (replaceEntriesScan_thinned _ _ _ _ H) as (kept & -> & _).
  destruct (replaceEntriesScan_kept _ _ _ _ H) as (A & B & _).
  exists kept. split; [reflexivity|]. split.
  - intros e He. apply (in_map Some) in He. apply A in He.
    apply in_map_iff in He as (e' & Heq & He'). congruence.
  - intros e He Hp. apply (in_map Some) in He.
    apply B in He; [|apply prefix_related_self; exact Hp].
    apply in_map_iff in He as (e' & Heq & He'). congruence.
Qed.

Lemma RefreshStat_kept (fs : FileSystem) (ie : IndexEntry) :
  let r := fst (RefreshStat fs ie) in
  PathName r = PathName ie /\ Flags (Fixed r) = Flags (Fixed ie) /\
  Sha1 (Fixed r) = Sha1 (Fixed ie) /\ Mode (Fixed r) = Mode (Fixed ie) /\
  V3 r = V3 ie.
Proof.
  unfold RefreshStat, FixedRefreshStat.
  destruct (FilePath fs (PathName ie)) as [err|f]; [repeat split|].
  destruct (LstatSize fs f) as [err|size]; [repeat split|].
  destruct (MTime fs f) as [err|m]; [repeat split|].
  destruct (CTime fs f) as [csec cnano]. repeat split.
Qed.

Lemma replaceEntriesScan_nil_free (path : string) (replace : bool)
  (objs newObjects : list (option IndexEntry)) :
  replaceEntriesScan path replace objs = Ret (inr newObjects) ->
  exists es, objs = map Some es.
Proof.
  revert newObjects. induction objs as [|[e|] objs IH]; intros newObjects H;
    [exists []; reflexivity| |discriminate].
  cbn [replaceEntriesScan] in H.
  assert (Hrest : exists l, replaceEntriesScan path replace objs = Ret (inr l)).
  { destruct (HasPrefix (PathName e) (path +:+ "/")).
    { destruct replace; cbn [negb] in H; [eauto | discriminate]. }
    destruct (HasPrefix path (PathName e +:+ "/")).
    { destruct replace; cbn [negb] in H; [eauto | discriminate]. }
    outcome_inv H as r. destruct r as [err|l]; [discriminate | eauto]. }
  destruct Hrest as [l Hl]. destruct (IH _ Hl) as [es ->].
  exists (e :: es). reflexivity.
Qed.

Lemma AddStage_body_stage0_nil_free (fs : FileSystem) (g g1 : Index)
  (path : string) (mode : Z) (s : list byte) (size mtime : Z)
  (opts : UpdateIndexOptions) :
  AddStage_body fs g path mode s Stage0 size mtime opts = Ret (g1, None) ->
  exists es, Objects g = map Some es.
Proof.
  unfold AddStage_body. intros H. outcome_inv H as found.
  assert (Hcheck : forall g' err',
             replaceEntriesCheck g path Stage0 opts = Ret (g', err') ->
             err' = None -> exists es, Objects g = map Some es).
  { unfold replaceEntriesCheck. rewrite Z.eqb_refl. cbn [negb].
    intros g' err' Hc Herr. outcome_inv Hc as r.
    destruct r as [e|l]; [injection Hc as <- <-; discriminate|].
    eapply replaceEntriesScan_nil_free; eauto. }
  destruct found as [entry|].
  - outcome_inv H as r. destruct r as [g' [e'|]]; [discriminate|]. eauto.
  - destruct (Add opts); cbn [negb] in H; [|discriminate].
    outcome_inv H as r. destruct r as [g' [e'|]]; [discriminate|]. eauto.
Qed.

Lemma replaceEntriesCheck_stage0_sub (g g0 : Index) (path : string)
  (opts : UpdateIndexOptions) (es : list IndexEntry) :
  Objects g = map Some es ->
  replaceEntriesCheck g path Stage0 opts = Ret (g0, None) ->
  exists kept, Objects g0 = map Some kept /\
               (forall e, In e kept -> In e es) /\
               (forall e, In e es -> PathName e = path -> In e kept).
Proof.
  unfold replaceEntriesCheck. rewrite Z.eqb_refl. cbn [negb].
  intros Hobjs Hc. rewrite Hobjs in Hc. outcome_inv Hc as r.
  destruct r as [e|l]; [discriminate|]. injection Hc as <-.
  apply replaceEntriesScan_sub in E as (kept & -> & A & B).
  exists kept. auto.
Qed.

(** X5. After [AddStage] with [Stage0] has returned without error,
    [GetSha1] of the path returns the hash that was passed, whether the
    entry existed or was created. *)
Theorem AddStage_then_GetSha1 (fs : FileSystem) (g g' : Index) (path : string)
  (mode : Z) (s : list byte) (size mtime : Z) (opts : UpdateIndexOptions) :
  AddStage fs g path mode s Stage0 size mtime opts = Ret (g', None) ->
  GetSha1 g' path = Ret s.
Proof.
  intros H. unfold AddStage in H. outcome_inv H as r. destruct r as [g1 err1].
  rewrite ?Z.eqb_refl in H. outcome_inv H as r2. destruct r2 as [g2 ignored].
  injection H as <- ->.
  destruct (AddStage_body_stage0_nil_free _ _ _ _ _ _ _ _ _ E) as [es Hobjs].
  assert (Hg1 : exists es1 new,
             Objects g1 = map Some es1 /\
             List.find (fun e => same_stage e path Stage0) es1 = Some new /\
             Sha1 (Fixed new) = s).
  { unfold AddStage_body in E. rewrite Hobjs, find_stage_total in E.
    cbn [obind] in E.
    destruct (List.find (fun e => same_stage e path Stage0) es)
      as [entry|] eqn:Ef.
    - apply find_some in Ef as [Hin Hsame].
      pose proof (proj1 (same_stage_key _ _ _) Hsame) as [Hp Hst].
      outcome_inv E as r. destruct r as [g0 [e0|]]; [discriminate|].
      destruct (replaceEntriesCheck_stage0_sub _ _ _ _ _ Hobjs E1)
        as (kept & Hobjs0 & _ & Hkeep).
      match type of E with
      | match ?r with _ => _ end = _ => set (refreshed := r) in E
      end.
      assert (Hr : sort_key (fst refreshed) = sort_key entry).
      { unfold refreshed. destruct (Exists fs _ && _); [|reflexivity].
        destruct (RefreshStat_key fs entry) as [Hp' Hfl].
        unfold sort_key, Stage. rewrite Hp', Hfl. reflexivity. }
      destruct refreshed as [entry1 [e1|]]; [discriminate|].
      cbn [fst] in Hr. injection E as <-. cbn [Objects set_Objects].
      rewrite Hobjs0.
      destruct (find_update_entry kept path Stage0
                  (overwrite entry1 s mtime size) entry
                  (Hkeep _ Hin Hp) Hsame) as (es1 & Hup & Hfind).
      { apply same_stage_sort_key.
        transitivity (sort_key entry1); [reflexivity|].
        rewrite Hr. apply same_stage_sort_key. exact Hsame. }
      exists es1, (overwrite entry1 s mtime size). auto.
    - destruct (Add opts); cbn [negb] in E; [|discriminate].
      outcome_inv E as r. destruct r as [g0 [e0|]]; [discriminate|].
      destruct (replaceEntriesCheck_stage0_sub _ _ _ _ _ Hobjs E1)
        as (kept & Hobjs0 & Hsub & _).
      set (newentry := mkEntry _ _ path) in E.
      pose proof (new_entry_key fs path Stage0 (Fixed newentry) (V3 newentry)
                    ltac:(unfold Stage0; lia) eq_refl) as Hkey.
      pose proof (RefreshStat_kept fs newentry) as (_ & _ & Hsha & _).
      change (mkEntry (Fixed newentry) (V3 newentry) path) with newentry in Hkey.
      destruct (RefreshStat fs newentry) as [newentry1 ign].
      cbn [fst] in Hkey, Hsha. rewrite Hobjs0 in E.
      change (map Some kept ++ [Some newentry1])
        with (map Some kept ++ map Some [newentry1]) in E.
      rewrite <- map_app, SortByPath_sort_entries in E. cbn [obind] in E.
      injection E as <-. cbn [Objects].
      exists (sort_entries (kept ++ [newentry1])), newentry1.
      split; [reflexivity|]. split; [|exact Hsha].
      apply find_unique.
      + eapply Permutation_in; [symmetry; apply sort_entries_perm|].
        apply in_app_iff. right. left. reflexivity.
      + apply same_stage_sort_key. exact Hkey.
      + intros y Hy Hsame.
        eapply Permutation_in in Hy; [|apply sort_entries_perm].
        apply in_app_iff in Hy as [Hy|[Hy|[]]]; [|auto].
        apply Hsub in Hy. apply (find_none _ _ Ef) in Hy. congruence. }
  destruct Hg1 as (es1 & new & Hobjs1 & Hfind & Hsha).
  unfold RemoveUnmergedStages in E0.
  rewrite Hobjs1, RemoveUnmergedStages_loop_filter in E0. cbn [obind] in E0.
  injection E0 as <- <-. unfold GetSha1. cbn [Objects].
  rewrite GetSha1_loop_find, find_named_merged, Hfind, Hsha. reflexivity.
Qed.

Lemma AddStage_then_GetSha1_witness :
  AddStage empty_fs conflict_index "f" 33188 (repeat x01 20) Stage0 0 0
           (mkOpts true false)
  = Ret (mkIndex DIRC 2 1
           [Some (mkEntry (mkFixed 0 0 0 0 0 33188 0 0 0 (repeat x01 20) 1)
                          (Some (mkV3 0)) "f")], None) /\
  GetSha1 (mkIndex DIRC 2 1
             [Some (mkEntry (mkFixed 0 0 0 0 0 33188 0 0 0 (repeat x01 20) 1)
                            (Some (mkV3 0)) "f")]) "f"
  = Ret (repeat x01 20).
Proof.
  assert (H : AddStage empty_fs conflict_index "f" 33188 (repeat x01 20)
                       Stage0 0 0 (mkOpts true false)
              = Ret (mkIndex DIRC 2 1
                       [Some (mkEntry
                                (mkFixed 0 0 0 0 0 33188 0 0 0 (repeat x01 20) 1)
                                (Some (mkV3 0)) "f")], None))
    by (vm_compute; reflexivity).
  split; [exact H|].
  exact (AddStage_then_GetSha1 _ _ _ _ _ _ _ _ _ H).
Defined.

Lemma SetSkipWorktree_SkipWorktree_witness :
  SkipWorktree (EntrySetSkipWorktree (plain_entry "a.txt" 0) false) = false /\
  Fixed (EntrySetSkipWorktree (plain_entry "a.txt" 0) false)
  = Fixed (plain_entry "a.txt" 0).
Proof.
  pose proof (SetSkipWorktree_SkipWorktree (plain_entry "a.txt" 0) false)
    as (H1 & _ & _ & _ & H5 & _).
  split; [exact H1 | exact (H5 eq_refl)].
Defined.

(** ** The first entry with a path *)

Lemma SetSkipWorktree_loop_absent (es : list IndexEntry) (path : string)
  (value : bool) :
  Forall (fun x => PathName x <> path) es ->
  SetSkipWorktree_loop (map Some es) path value = Ret (map Some es, None).
Proof.
  induction 1 as [|x es Hx _ IH]; [reflexivity|].
  cbn [map SetSkipWorktree_loop].
  apply String.eqb_neq in Hx. rewrite Hx, IH. reflexivity.
Qed.

Lemma SetSkipWorktree_loop_first (l1 l2 : list IndexEntry) (e : IndexEntry)
  (value : bool) :
  Forall (fun x => PathName x <> PathName e) l1 ->
  SetSkipWorktree_loop (map Some (l1 ++ e :: l2)) (PathName e) value
  = if Stage e =? Stage0
    then Ret (map Some (l1 ++ EntrySetSkipWorktree e value :: l2), None)
    else Ret (map Some (l1 ++ e :: l2),
              Some (Errorf "Can not set skip worktree on unmerged paths")).
Proof.
  induction 1 as [|x l1 Hx _ IH].
  - cbn [app map SetSkipWorktree_loop]. rewrite String.eqb_refl.
    destruct (Stage e =? Stage0); reflexivity.
  - cbn [app map SetSkipWorktree_loop].
    apply String.eqb_neq in Hx. rewrite Hx, IH.
    destruct (Stage e =? Stage0); reflexivity.
Qed.

(** X4. [Index.SetSkipWorktree] acts on the first entry with the path and on
    no other: when that entry is at stage 0 it alone is replaced by the
    entry with the bit set or cleared, the count is untouched and the
    version goes to 3 when it was at most 2 and the bit is being set; when
    it is at another stage the error is returned and the index is as
    before, its version included. *)
Theorem SetSkipWorktree_first_entry (g : Index) (l1 l2 : list IndexEntry)
  (e : IndexEntry) (value : bool) :
  Objects g = map Some (l1 ++ e :: l2) ->
  Forall (fun x => PathName x <> PathName e) l1 ->
  SetSkipWorktree g (PathName e) value
  = if Stage e =? Stage0
    then Ret (mkIndex (Signature g)
                (if (Version g <=? 2) && value then 3 else Version g)
                (NumberIndexEntries g)
                (map Some (l1 ++ EntrySetSkipWorktree e value :: l2)), None)
    else Ret (g, Some (Errorf "Can not set skip worktree on unmerged paths")).
Proof.
  intros Hobjs Hl1. unfold SetSkipWorktree.
  rewrite Hobjs, (SetSkipWorktree_loop_first l1 l2 e value Hl1).
  destruct (Stage e =? Stage0); cbn [obind]; [|reflexivity].
  unfold set_Objects, set_Version. cbn [Version Signature NumberIndexEntries Objects].
  destruct ((Version g <=? 2) && value); reflexivity.
Qed.

Lemma SetSkipWorktree_first_entry_witness :
  SetSkipWorktree conflict_index "f" true
  = Ret (conflict_index,
         Some (Errorf "Can not set skip worktree on unmerged paths")).
Proof.
  exact (SetSkipWorktree_first_entry conflict_index []
           [plain_entry "f" 2; plain_entry "f" 3] (plain_entry "f" 1) true
           eq_refl (List.Forall_nil _)).
Defined.

Lemma RemoveFile_loop_absent (es : list IndexEntry) (file : string) :
  Forall (fun x => PathName x <> file) es ->
  RemoveFile_loop (map Some es) file = Ret None.
Proof.
  induction 1 as [|x es Hx _ IH]; [reflexivity|].
  cbn [map RemoveFile_loop].
  apply String.eqb_neq in Hx. rewrite Hx, IH. reflexivity.
Qed.

Lemma RemoveFile_loop_first (l1 l2 : list IndexEntry) (e : IndexEntry) :
  Forall (fun x => PathName x <> PathName e) l1 ->
  RemoveFile_loop (map Some (l1 ++ e :: l2)) (PathName e)
  = Ret (Some (map Some (l1 ++ l2))).
Proof.
  induction 1 as [|x l1 Hx _ IH].
  - cbn [app map RemoveFile_loop]. rewrite String.eqb_refl. reflexivity.
  - cbn [app map RemoveFile_loop].
    apply String.eqb_neq in Hx. rewrite Hx, IH. reflexivity.
Qed.

(** X6. [RemoveFile] cuts out the first entry with the path and no other
    (later entries with the same path, at other stages, stay), and lowers
    the count by one modulo 2^32 whatever the count was; when no entry has
    the path the index is returned as it was. *)
Theorem RemoveFile_first_entry :
  (forall (g : Index) (l1 l2 : list IndexEntry) (e : IndexEntry),
      Objects g = map Some (l1 ++ e :: l2) ->
      Forall (fun x => PathName x <> PathName e) l1 ->
      RemoveFile g (PathName e)
      = Ret (mkIndex (Signature g) (Version g)
               ((NumberIndexEntries g - 1) mod 2 ^ 32)
               (map Some (l1 ++ l2)))) /\
  (forall (g : Index) (es : list IndexEntry) (file : string),
      Objects g = map Some es ->
      Forall (fun x => PathName x <> file) es ->
      RemoveFile g file = Ret g).
Proof.
  split.
  - intros g l1 l2 e Hobjs Hl1. unfold RemoveFile.
    rewrite Hobjs, (RemoveFile_loop_first l1 l2 e Hl1). reflexivity.
  - intros g es file Hobjs Hes. unfold RemoveFile.
    rewrite Hobjs, (RemoveFile_loop_absent es file Hes). reflexivity.
Qed.

Lemma RemoveFile_first_entry_witness :
  RemoveFile conflict_index "f"
  = Ret (mkIndex DIRC 2 2 [Some (plain_entry "f" 2); Some (plain_entry "f" 3)]).
Proof.
  exact (proj1 RemoveFile_first_entry conflict_index []
           [plain_entry "f" 2; plain_entry "f" 3] (plain_entry "f" 1)
           eq_refl (List.Forall_nil _)).
Defined.

Lemma filter_merged_or_other_twice (es : list IndexEntry) (path : string) :
  List.filter (merged_or_other path) (List.filter (merged_or_other path) es)
  = List.filter (merged_or_other path) es.
Proof.
  induction es as [|e es IH]; [reflexivity|].
  cbn [List.filter]. destruct (merged_or_other path e) eqn:E;
    [cbn [List.filter]; rewrite E, IH; reflexivity | exact IH].
Qed.

(** X7. [RemoveUnmergedStages] keeps, in their order, exactly the entries
    that have another path or are at stage 0, sets the count to the number
    of entries kept (modulo 2^32, whatever the count was before), leaves
    signature and version alone and returns no error; a second call
    changes nothing. *)
Theorem RemoveUnmergedStages_filter (g : Index) (es : list IndexEntry)
  (path : string) :
  Objects g = map Some es ->
  let kept := List.filter (merged_or_other path) es in
  let g' := mkIndex (Signature g) (Version g)
              (Z.of_nat (length kept) mod 2 ^ 32) (map Some kept) in
  RemoveUnmergedStages g path = Ret (g', None) /\
  RemoveUnmergedStages g' path = Ret (g', None).
Proof.
  intros Hobjs kept g'. unfold RemoveUnmergedStages.
  rewrite Hobjs, RemoveUnmergedStages_loop_filter. cbn [obind].
  rewrite length_map. fold kept. split; [reflexivity|].
  unfold g'. cbn [Objects Signature Version].
  rewrite RemoveUnmergedStages_loop_filter. cbn [obind].
  unfold kept. rewrite filter_merged_or_other_twice, length_map. reflexivity.
Qed.

Lemma RemoveUnmergedStages_filter_witness :
  RemoveUnmergedStages (mkIndex DIRC 2 7
      [Some (plain_entry "a" 0); Some (plain_entry "f" 1);
       Some (plain_entry "f" 2); Some (plain_entry "g" 3)]) "f"
  = Ret (mkIndex DIRC 2 2 [Some (plain_entry "a" 0); Some (plain_entry "g" 3)],
         None).
Proof.
  exact (proj1 (RemoveUnmergedStages_filter
                  (mkIndex DIRC 2 7
                     [Some (plain_entry "a" 0); Some (plain_entry "f" 1);
                      Some (plain_entry "f" 2); Some (plain_entry "g" 3)])
                  [plain_entry "a" 0; plain_entry "f" 1; plain_entry "f" 2;
                   plain_entry "g" 3] "f" eq_refl)).
Defined.

(** ** [AddStage] at the stages of a merge *)

Lemma find_first (f : IndexEntry -> bool) (l1 l2 : list IndexEntry)
  (e : IndexEntry) :
  Forall (fun x => f x = false) l1 -> f e = true ->
  List.find f (l1 ++ e :: l2) = Some e.
Proof.
  induction 1 as [|x l1 Hx _ IH]; intros He; cbn [app List.find].
  - rewrite He. reflexivity.
  - rewrite Hx. auto.
Qed.

Lemma update_entry_first (l1 l2 : list IndexEntry) (e new : IndexEntry)
  (path : string) (stage : Z) :
  Forall (fun x => same_stage x path stage = false) l1 ->
  same_stage e path stage = true ->
  update_entry (map Some (l1 ++ e :: l2)) path stage new
  = map Some (l1 ++ new :: l2).
Proof.
  induction 1 as [|x l1 Hx _ IH]; intros He; cbn [app map update_entry].
  - rewrite He. reflexivity.
  - rewrite Hx, IH by exact He. reflexivity.
Qed.

Lemma replaceEntriesCheck_unmerged (g : Index) (path : string) (stage : Z)
  (opts : UpdateIndexOptions) :
  stage <> Stage0 -> replaceEntriesCheck g path stage opts = Ret (g, None).
Proof.
  intros Hs. unfold replaceEntriesCheck.
  apply Z.eqb_neq in Hs. rewrite Hs. reflexivity.
Qed.

(** X8. At a stage other than 0 [AddStage] returns for every index
    without nil entries, and it returns an error exactly when no entry has
    the path and stage and [opts.Add] is off; the error is then the
    not-found message and the index is as it was. *)
Theorem AddStage_unmerged_error (fs : FileSystem) (g : Index)
  (es : list IndexEntry) (path : string) (mode : Z) (s : list byte)
  (stage size mtime : Z) (opts : UpdateIndexOptions) :
  Objects g = map Some es -> stage <> Stage0 ->
  exists g' err,
    AddStage fs g path mode s stage size mtime opts = Ret (g', err) /\
    (err <> None <->
     Add opts = false /\
     forall e, In e es -> same_stage e path stage = false) /\
    (err <> None -> g' = g /\ err = Some (Errorf (not_found_msg path))).
Proof.
  intros Hobjs Hs. unfold AddStage, AddStage_body.
  rewrite (replaceEntriesCheck_unmerged g path stage opts Hs).
  rewrite Hobjs, find_stage_total. cbn [obind].
  pose proof Hs as Hsb. apply Z.eqb_neq in Hsb. rewrite Hsb.
  destruct (List.find (fun e => same_stage e path stage) es) as [entry|] eqn:Ef.
  - rewrite andb_false_r. cbn [obind].
    eexists _, None. split; [reflexivity|]. split; [|congruence].
    split; [congruence|]. intros [_ Hall].
    apply find_some in Ef as [Hin Hsame]. rewrite (Hall _ Hin) in Hsame.
    discriminate.
  - destruct (Add opts) eqn:Ea; cbn [negb obind].
    + destruct (RefreshStat fs _) as [newentry1 ign].
      rewrite Hobjs.
      change (map Some es ++ [Some newentry1])
        with (map Some es ++ map Some [newentry1]).
      rewrite <- map_app, SortByPath_sort_entries. cbn [obind].
      eexists _, None. split; [reflexivity|]. split; [|congruence].
      split; [congruence|]. intros [Hf _]. discriminate.
    + exists g, (Some (Errorf (not_found_msg path))).
      split; [reflexivity|]. split; [|auto].
      split; [|congruence]. intros _. split; [reflexivity|].
      intros e He. apply (find_none _ _ Ef e He).
Qed.

Lemma AddStage_unmerged_error_witness :
  exists g' err,
    AddStage empty_fs one_file_index "a.txt" 33188 zero_sha Stage2 0 0
             (mkOpts false false) = Ret (g', err) /\
    (err <> None <->
     Add (mkOpts false false) = false /\
     forall e, In e [plain_entry "a.txt" 0] ->
               same_stage e "a.txt" Stage2 = false) /\
    (err <> None ->
     g' = one_file_index /\ err = Some (Errorf (not_found_msg "a.txt"))).
Proof.
  apply (AddStage_unmerged_error empty_fs one_file_index
           [plain_entry "a.txt" 0]); [reflexivity | discriminate].
Defined.

(** X9. At a stage other than 0 an entry that has the path and stage is
    overwritten where it stands: hash, modification time and size come from
    the arguments and everything else of the entry stays, the mode
    included; the mode argument and the working tree play no part, and the
    rest of the index, its count included, is as before. *)
Theorem AddStage_unmerged_overwrites (fs : FileSystem) (g : Index)
  (l1 l2 : list IndexEntry) (e : IndexEntry) (path : string) (mode : Z)
  (s : list byte) (stage size mtime : Z) (opts : UpdateIndexOptions) :
  Objects g = map Some (l1 ++ e :: l2) ->
  Forall (fun x => same_stage x path stage = false) l1 ->
  same_stage e path stage = true ->
  stage <> Stage0 ->
  AddStage fs g path mode s stage size mtime opts
  = Ret (mkIndex (Signature g) (Version g) (NumberIndexEntries g)
           (map Some (l1 ++
              mkEntry (mkFixed (Ctime (Fixed e)) (Ctimenano (Fixed e)) mtime
                         (Dev (Fixed e)) (Ino (Fixed e)) (Mode (Fixed e))
                         (Uid (Fixed e)) (Gid (Fixed e)) size s
                         (Flags (Fixed e)))
                      (V3 e) (PathName e) :: l2)), None).
Proof.
  intros Hobjs Hl1 He Hs. unfold AddStage, AddStage_body.
  rewrite (replaceEntriesCheck_unmerged g path stage opts Hs).
  rewrite Hobjs, find_stage_total, (find_first _ l1 l2 e Hl1 He).
  cbn [obind].
  pose proof Hs as Hsb. apply Z.eqb_neq in Hsb. rewrite Hsb.
  rewrite andb_false_r. cbn [obind].
  rewrite Hobjs, (update_entry_first l1 l2 e _ path stage Hl1 He).
  reflexivity.
Qed.

Lemma AddStage_unmerged_overwrites_witness :
  AddStage empty_fs conflict_index "f" 40960 (repeat x01 20) Stage2 7 9
           (mkOpts false false)
  = Ret (mkIndex DIRC 2 3
           [Some (plain_entry "f" 1);
            Some (mkEntry (mkFixed 0 0 9 0 0 33188 0 0 7 (repeat x01 20)
                                   (new_flags "f" 2))
                          (Some (mkV3 0)) "f");
            Some (plain_entry "f" 3)], None).
Proof.
  refine (AddStage_unmerged_overwrites empty_fs conflict_index
            [plain_entry "f" 1] [plain_entry "f" 3] (plain_entry "f" 2)
            "f" 40960 (repeat x01 20) Stage2 7 9 (mkOpts false false)
            eq_refl _ eq_refl _).
  - constructor; [reflexivity | constructor].
  - discriminate.
Defined.





(** ** The output of [WriteIndex] *)

Lemma length_SHA1_sum (msg : list byte) : length (SHA1.sum msg) = 20%nat.
Proof.
  unfold SHA1.sum.
  destruct (SHA1.blocks _ _ _) as [[[[a b] c] d] e].
  rewrite !length_app, !length_be_encode. reflexivity.
Qed.




Lemma write_entries_length (version : Z) (es : list IndexEntry)
  (body : list byte) :
  Forall (fun e => length (Sha1 (Fixed e)) = 20%nat) es ->
  write_entries version (map Some es) = Ret (body, None) ->
  Z.of_nat (length body) mod 8 = 0.
Proof.
  intros Hes. revert body.
  induction Hes as [|e es Hsha _ IH]; intros body H.
  - injection H as <-. reflexivity.
  - cbn [map write_entries] in H.
    remember (encode_fixed (Fixed e)) as fx eqn:Hfx in H.
    remember (bytes_of_string (PathName e)) as nm eqn:Hnm in H.
    remember (repeat x00 (Z.to_nat (write_padding e))) as pd eqn:Hpd in H.
    assert (Hstep : forall ext more,
               (length ext = if ExtendedFlag e then 2 else 0)%nat ->
               Z.of_nat (length more) mod 8 = 0 ->
               Z.of_nat (length (fx ++ ext ++ nm ++ pd ++ more)) mod 8 = 0).
    { intros ext more Hext Hmore. pose proof (write_padding_range e) as Hpad.
      rewrite Hfx, Hnm, Hpd.
      rewrite !length_app, (length_encode_fixed _ Hsha), Hext,
        length_bytes_of_string, repeat_length.
      rewrite !Nat2Z.inj_add, Z2Nat.id by lia.
      unfold write_padding in *.
      destruct (ExtendedFlag e); Z.div_mod_to_equations; lia. }
    clear Hfx Hnm Hpd.
    destruct (ExtendedFlag e) eqn:Ee.
    + destruct (V3 e) as [v|]; [|discriminate].
      destruct (version =? 2); [discriminate|].
      destruct (write_entries version (map Some es)) as [[more err]|];
        cbn [obind] in H; [|discriminate].
      injection H as <- ->.
      exact (Hstep (be_encode 2 (ExtFlags v)) more (length_be_encode _ _)
               (IH _ eq_refl)).
    + destruct (write_entries version (map Some es)) as [[more err]|];
        cbn [obind] in H; [|discriminate].
      injection H as <- ->.
      exact (Hstep [] more eq_refl (IH _ eq_refl)).
Qed.

(** X12. Every record [WriteIndex] writes fills a multiple of eight bytes,
    whatever the length of the name, so that a file written without error
    from an index without nil entries is 32 bytes (header and trailer)
    plus a multiple of eight long. *)
Theorem WriteIndex_length (g : Index) (es : list IndexEntry)
  (bytes : list byte) :
  Objects g = map Some es -> length (Signature g) = 4%nat ->
  Forall (fun e => length (Sha1 (Fixed e)) = 20%nat) es ->
  WriteIndex g = Ret (bytes, None) ->
  32 <= Z.of_nat (length bytes) /\ Z.of_nat (length bytes) mod 8 = 0.
Proof.
  intros Hobjs Hsig Hes H. unfold WriteIndex in H.
  rewrite Hobjs, SortByPath_sort_entries in H. cbn [obind] in H.
  outcome_inv H as r. destruct r as [body [err|]]; [discriminate|].
  injection H as <-.
  apply write_entries_length in E.
  2:{ eapply Permutation_Forall; [symmetry; apply sort_entries_perm | exact Hes]. }
  unfold encode_header.
  rewrite !length_app, length_SHA1_sum, !length_be_encode, Hsig.
  rewrite !Nat2Z.inj_add. Z.div_mod_to_equations. lia.
Qed.

Lemma WriteIndex_length_witness :
  WriteIndex one_file_index = Ret (written one_file_index, None) /\
  32 <= Z.of_nat (length (written one_file_index)) /\
  Z.of_nat (length (written one_file_index)) mod 8 = 0.
Proof.
  assert (H : WriteIndex one_file_index = Ret (written one_file_index, None))
    by (vm_compute; reflexivity).
  split; [exact H|].
  refine (WriteIndex_length one_file_index [plain_entry "a.txt" 0] _
            eq_refl eq_refl _ H).
  constructor; [reflexivity | constructor].
Defined.

(** ** The header check of [ReadIndex] *)

Lemma read_header_short (contents : list byte) :
  (length contents < 12)%nat ->
  fst (read_header contents) = (repeat x00 4, 0, 0).
Proof.
  intros Hlen. unfold read_header, read_full. cbn [rest].
  assert (Hgot : (length (firstn 12 contents) =? 12)%nat = false).
  { apply Nat.eqb_neq. rewrite length_firstn. lia. }
  rewrite Hgot. destruct (firstn 12 contents); reflexivity.
Qed.

Lemma read_header_long (contents : list byte) :
  (12 <= length contents)%nat ->
  fst (read_header contents)
  = (firstn 4 contents, be_decode (firstn 4 (skipn 4 contents)),
     be_decode (firstn 4 (skipn 8 contents))).
Proof.
  intros Hlen. unfold read_header, read_full. cbn [rest].
  assert (Hgot : (length (firstn 12 contents) =? 12)%nat = true).
  { apply Nat.eqb_eq. rewrite length_firstn. lia. }
  rewrite Hgot. cbn [fst].
  rewrite !skipn_firstn_comm, !firstn_firstn. reflexivity.
Qed.

Lemma ReadIndex_bad_header (contents : list byte) (sig : list byte)
  (version count : Z) :
  fst (read_header contents) = (sig, version, count) ->
  sig <> DIRC \/ ~ 2 <= version <= 4 ->
  ReadIndex (Opened contents) = Ret (None, Some InvalidIndex).
Proof.
  intros Hh Hbad. unfold ReadIndex.
  destruct (read_header contents) as [[[sig' version'] count'] r].
  cbn [fst] in Hh. injection Hh as -> -> ->.
  destruct (bytes_eqb sig DIRC) eqn:Es; cbn [negb]; [|reflexivity].
  apply bytes_eqb_eq in Es.
  destruct Hbad as [Hbad|Hbad]; [contradiction|].
  destruct (version <? 2) eqn:E1; [reflexivity|].
  destruct (4 <? version) eqn:E2; [reflexivity|].
  apply Z.ltb_ge in E1, E2. lia.
Qed.

(** X13. [ReadIndex] turns an opened file down with [InvalidIndex], and
    with no index, when the file is shorter than the twelve bytes of the
    header (an empty file included), when it does not start with "DIRC",
    or when the version in the header is not 2, 3 or 4; and it returns no
    error for any other reason. *)
Theorem ReadIndex_header_check (contents : list byte) :
  let bad :=
    (length contents < 12)%nat \/ firstn 4 contents <> DIRC \/
    ~ 2 <= be_decode (firstn 4 (skipn 4 contents)) <= 4 in
  (bad -> ReadIndex (Opened contents) = Ret (None, Some InvalidIndex)) /\
  (forall r e, ReadIndex (Opened contents) = Ret (r, Some e) -> bad).
Proof.
  cbv zeta. split.
  - intros [Hshort|Hbad].
    + eapply ReadIndex_bad_header; [apply read_header_short; exact Hshort|].
      left. discriminate.
    + destruct (Nat.lt_ge_cases (length contents) 12) as [Hshort|Hlong].
      * eapply ReadIndex_bad_header; [apply read_header_short; exact Hshort|].
        left. discriminate.
      * eapply ReadIndex_bad_header; [apply read_header_long; exact Hlong|].
        exact Hbad.
  - intros r e H.
    destruct (Nat.lt_ge_cases (length contents) 12) as [Hshort|Hlong];
      [left; exact Hshort | right].
    apply ReadIndex_error_from_header in H as (_ & _ & H).
    rewrite (read_header_long contents Hlong) in H. cbv beta iota in H.
    destruct H as [H|H]; [left; exact H | right; lia].
Qed.

Lemma ReadIndex_header_check_witness :
  ReadIndex (Opened []) = Ret (None, Some InvalidIndex).
Proof.
  apply (proj1 (ReadIndex_header_check [])). left. simpl. lia.
Defined.

Lemma WriteIndex_nil_entries (sig : list byte) (version count : Z) (n : nat) :
  WriteIndex (mkIndex sig version count (repeat None (S n))) = Panic.
Proof. destruct n as [|n]; reflexivity. Qed.

(** X14. A file whose header says version 4 passes the header check, yet
    no entry of that version can be read: [ReadIndex] returns, without an
    error, an index with the count of the header and a nil pointer for
    every entry.  When the count is not zero, looking a path up in that
    index, changing it or writing it dereferences nil. *)
Theorem ReadIndex_version4_unusable (contents : list byte) (count : Z)
  (r : Reader) :
  read_header contents = (DIRC, 4, count, r) -> 0 < count ->
  exists idx,
    ReadIndex (Opened contents) = Ret (Some idx, None) /\
    Version idx = 4 /\ NumberIndexEntries idx = count /\
    Objects idx = repeat None (Z.to_nat count) /\
    (forall path, GetSha1 idx path = Panic) /\
    (forall path value, SetSkipWorktree idx path value = Panic) /\
    (forall path, RemoveFile idx path = Panic) /\
    (forall path, RemoveUnmergedStages idx path = Panic) /\
    (forall fs path mode s stage size mtime opts,
        AddStage fs idx path mode s stage size mtime opts = Panic) /\
    WriteIndex idx = Panic.
Proof.
  intros Hh Hc. eexists. split; [apply (ReadIndex_version4_all_nil _ _ _ Hh)|].
  destruct (Z.to_nat count) as [|n] eqn:En; [lia|].
  cbn [Version NumberIndexEntries Objects].
  repeat split; try reflexivity.
  apply WriteIndex_nil_entries.
Qed.

Lemma ReadIndex_version4_unusable_witness :
  exists idx,
    ReadIndex (Opened version4_header) = Ret (Some idx, None) /\
    Version idx = 4 /\ NumberIndexEntries idx = 1 /\
    Objects idx = [None] /\
    WriteIndex idx = Panic.
Proof.
  destruct (ReadIndex_version4_unusable version4_header 1 (mkReader 12 []))
    as (idx & H1 & H2 & H3 & H4 & _ & _ & _ & _ & _ & H5);
    [reflexivity | lia |].
  exists idx. auto.
Defined.

(** ** The map views of the index *)

Lemma find_app_last (f : IndexEntry -> bool) (l : list IndexEntry)
  (e : IndexEntry) :
  List.find f (l ++ [e])
  = match List.find f l with
    | Some x => Some x
    | None => if f e then Some e else None
    end.
Proof.
  induction l as [|x l IH]; cbn [app List.find]; [reflexivity|].
  destruct (f x); [reflexivity | exact IH].
Qed.

Lemma GetMap_loop_lookup (es : list IndexEntry) (r : gmap string IndexEntry) :
  exists m, GetMap_loop (map Some es) r = Ret m /\
            forall path, m !! path
                         = match List.find (named path) (rev es) with
                           | Some e => Some e
                           | None => r !! path
                           end.
Proof.
  revert r. induction es as [|e es IH]; intros r.
  - exists r. split; reflexivity.
  - cbn [map GetMap_loop rev].
    destruct (IH (<[PathName e := e]> r)) as (m & Hm & Hl).
    exists m. split; [exact Hm|]. intros path.
    rewrite Hl, find_app_last.
    destruct (List.find (named path) (rev es)); [reflexivity|].
    unfold named. destruct (String.eqb_spec (PathName e) path) as [<-|Hne].
    + apply lookup_insert_eq.
    + apply lookup_insert_ne. exact Hne.
Qed.

Lemma find_named_name (path : string) (l : list IndexEntry) (e : IndexEntry) :
  List.find (named path) l = Some e -> In e l /\ PathName e = path.
Proof.
  intros H. apply find_some in H as [Hin Hn].
  split; [exact Hin | apply String.eqb_eq; exact Hn].
Qed.

(** X15. [GetMap] of an index without nil entries maps a path to the last
    entry with that path in the index, and [Contains] of that map holds
    of a path exactly when some entry of the index has the path or lies
    below it as a directory. *)
Theorem GetMap_Contains (g : Index) (es : list IndexEntry) :
  Objects g = map Some es ->
  exists im,
    GetMap g = Ret im /\
    (forall path, im !! path = List.find (named path) (rev es)) /\
    (forall path,
        HasDir im path = true <->
        exists e, In e es /\ HasPrefix (PathName e) (path +:+ "/") = true) /\
    (forall path,
        Contains im path = true <->
        exists e, In e es /\
                  (PathName e = path \/
                   HasPrefix (PathName e) (path +:+ "/") = true)).
Proof.
  intros Hobjs. unfold GetMap. rewrite Hobjs.
  destruct (GetMap_loop_lookup es ∅) as (im & Him & Hl).
  exists im. split; [exact Him|].
  assert (Hlook : forall path, im !! path = List.find (named path) (rev es)).
  { intros path. rewrite Hl.
    destruct (List.find (named path) (rev es)); [reflexivity|].
    apply lookup_empty. }
  assert (Hdir : forall path,
             HasDir im path = true <->
             exists e, In e es /\ HasPrefix (PathName e) (path +:+ "/") = true).
  { intros path. unfold HasDir. rewrite existsb_exists. split.
    - intros ([k e] & Hin & Hp). cbn [snd] in Hp.
      apply list_elem_of_In, elem_of_map_to_list in Hin.
      rewrite Hlook in Hin. apply find_named_name in Hin as [Hin _].
      exists e. split; [apply in_rev; exact Hin | exact Hp].
    - intros (e & Hin & Hp).
      destruct (List.find (named (PathName e)) (rev es)) as [e'|] eqn:Ef.
      + pose proof (find_named_name _ _ _ Ef) as [_ Hn].
        exists (PathName e, e'). split.
        * apply list_elem_of_In, elem_of_map_to_list. rewrite Hlook. exact Ef.
        * cbn [snd]. rewrite Hn. exact Hp.
      + apply in_rev in Hin. apply (find_none _ _ Ef) in Hin.
        unfold named in Hin. rewrite String.eqb_refl in Hin. discriminate. }
  split; [exact Hlook|]. split; [exact Hdir|].
  intros path. unfold Contains. rewrite Hlook.
  destruct (List.find (named path) (rev es)) as [e|] eqn:Ef.
  - apply find_named_name in Ef as [Hin Hn].
    split; [|reflexivity]. intros _. exists e.
    split; [apply in_rev; exact Hin | left; exact Hn].
  - rewrite Hdir. split.
    + intros (e & Hin & Hp). exists e. auto.
    + intros (e & Hin & [Hn|Hp]); [|exists e; auto].
      apply in_rev in Hin. apply (find_none _ _ Ef) in Hin.
      unfold named in Hin. rewrite Hn, String.eqb_refl in Hin. discriminate.
Qed.

Lemma GetMap_Contains_witness :
  exists im,
    GetMap dir_index = Ret im /\
    im !! "dir/a" = Some (plain_entry "dir/a" 0) /\
    im !! "dir" = None /\
    (Contains im "dir" = true <->
     exists e, In e [plain_entry "dir/a" 0] /\
               (PathName e = "dir" \/
                HasPrefix (PathName e) ("dir" +:+ "/") = true)).
Proof.
  destruct (GetMap_Contains dir_index [plain_entry "dir/a" 0] eq_refl)
    as (im & H1 & H2 & _ & H4).
  exists im. split; [exact H1|]. split; [apply H2|]. split; [apply H2|].
  apply H4.
Defined.
Lemma GetStageMap_loop_lookup (es : list IndexEntry)
  (r : gmap (string * Z) IndexEntry) :
  exists m, GetStageMap_loop (map Some es) r = Ret m /\
            forall path stage,
              m !! (path, stage)
              = match List.find (fun e => same_stage e path stage) (rev es) with
                | Some e => Some e
                | None => r !! (path, stage)
                end.
Proof.
  revert r. induction es as [|e es IH]; intros r.
  - exists r. split; reflexivity.
  - cbn [map GetStageMap_loop rev].
    destruct (IH (<[(PathName e, Stage e) := e]> r)) as (m & Hm & Hl).
    exists m. split; [exact Hm|]. intros path stage.
    rewrite Hl, find_app_last.
    destruct (List.find _ (rev es)); [reflexivity|].
    destruct (same_stage e path stage) eqn:Es.
    + apply same_stage_key in Es as [<- <-]. apply lookup_insert_eq.
    + apply lookup_insert_ne. intros Hk. injection Hk as <- <-.
      unfold same_stage in Es. rewrite String.eqb_refl, Z.eqb_refl in Es.
      discriminate.
Qed.

Lemma ascending_key_inj (es : list IndexEntry) (x y : IndexEntry) :
  ascending es -> In x es -> In y es -> sort_key x = sort_key y -> x = y.
Proof.
  intros Hasc. pose proof (ascending_distinct es Hasc) as Hd. clear Hasc.
  induction es as [|e es IH]; [intros []|].
  cbn [map] in Hd. apply List.NoDup_cons_iff in Hd as [Hnin Hd].
  intros [<-|Hx] [<-|Hy] Hk.
  - reflexivity.
  - exfalso. apply Hnin. rewrite Hk. apply in_map. exact Hy.
  - exfalso. apply Hnin. rewrite <- Hk. apply in_map. exact Hx.
  - auto.
Qed.

Lemma find_ascending_rev (es : list IndexEntry) (path : string) (stage : Z) :
  ascending es ->
  List.find (fun e => same_stage e path stage) (rev es)
  = List.find (fun e => same_stage e path stage) es.
Proof.
  intros Hasc.
  destruct (List.find (fun e => same_stage e path stage) es) as [e|] eqn:Ef.
  - pose proof Ef as Ef'. apply find_some in Ef' as [Hin He].
    apply find_unique; [apply in_rev in Hin; exact Hin | exact He |].
    intros y Hy Hsame. apply in_rev in Hy.
    apply (ascending_key_inj es _ _ Hasc Hy Hin).
    apply same_stage_sort_key in He, Hsame. congruence.
  - destruct (List.find _ (rev es)) as [e|] eqn:Er; [|reflexivity].
    apply find_some in Er as [Hin He]. apply in_rev in Hin.
    apply (find_none _ _ Ef) in Hin. congruence.
Qed.

(** X16. [GetStageMap] of an index without nil entries maps a path and
    stage to the last entry of the index that has them; in an index whose
    entries ascend strictly that is the only such entry, so the map holds
    exactly the entries of the index, each under its own path and
    stage. *)
Theorem GetStageMap_lookup (g : Index) (es : list IndexEntry) :
  Objects g = map Some es ->
  exists m,
    GetStageMap g = Ret m /\
    (forall path stage,
        m !! (path, stage)
        = List.find (fun e => same_stage e path stage) (rev es)) /\
    (ascending es ->
     forall path stage e,
       m !! (path, stage) = Some e <->
       In e es /\ PathName e = path /\ Stage e = stage).
Proof.
  intros Hobjs. unfold GetStageMap. rewrite Hobjs.
  destruct (GetStageMap_loop_lookup es ∅) as (m & Hm & Hl).
  exists m. split; [exact Hm|].
  assert (Hlook : forall path stage,
             m !! (path, stage)
             = List.find (fun e => same_stage e path stage) (rev es)).
  { intros path stage. rewrite Hl.
    destruct (List.find _ (rev es)); [reflexivity | apply lookup_empty]. }
  split; [exact Hlook|].
  intros Hasc path stage e. rewrite Hlook, (find_ascending_rev _ _ _ Hasc).
  split.
  - intros Hf. apply find_some in Hf as [Hin He].
    apply same_stage_key in He. tauto.
  - intros (Hin & Hp & Hs). apply find_unique; [exact Hin | |].
    + apply same_stage_key. auto.
    + intros y Hy Hsame. apply (ascending_key_inj es _ _ Hasc Hy Hin).
      apply same_stage_key in Hsame as [Hyp Hys].
      unfold sort_key. congruence.
Qed.

Lemma GetStageMap_lookup_witness :
  exists m,
    GetStageMap conflict_index = Ret m /\
    m !! ("f", Stage2) = Some (plain_entry "f" 2) /\
    m !! ("f", Stage0) = None.
Proof.
  destruct (GetStageMap_lookup conflict_index
              [plain_entry "f" 1; plain_entry "f" 2; plain_entry "f" 3]
              eq_refl) as (m & H1 & H2 & _).
  exists m. split; [exact H1|]. split; apply H2.
Defined.
Lemma Stage_range (e : IndexEntry) : 0 <= Stage e <= 3.
Proof.
  assert (H : Stage e = Z.shiftr (Flags (Fixed e)) 12 mod 4).
  { unfold Stage. change 3 with (Z.ones 2). apply Z.land_ones. lia. }
  rewrite H. pose proof (Z.mod_pos_bound (Z.shiftr (Flags (Fixed e)) 12) 4).
  lia.
Qed.

Lemma unmerged_agree_step (r : gmap string UnmergedPath)
  (sm : gmap (string * Z) IndexEntry) (e : IndexEntry) :
  unmerged_agree r sm ->
  unmerged_agree
    (if negb (Stage e =? Stage0)
     then <[PathName e := set_stage match r !! PathName e with
                                    | Some u => u
                                    | None => mkUnmerged None None None
                                    end e]> r
     else r)
    (<[(PathName e, Stage e) := e]> sm).
Proof.
  intros Hag path. pose proof (Stage_range e) as Hr.
  destruct (Stage e =? Stage0) eqn:E0; cbn [negb].
  - apply Z.eqb_eq in E0. specialize (Hag path).
    rewrite !lookup_insert_ne by (rewrite E0; intros H; injection H; discriminate).
    exact Hag.
  - apply Z.eqb_neq in E0. unfold Stage0 in E0.
    destruct (String.eqb_spec (PathName e) path) as [<-|Hp].
    + rewrite lookup_insert_eq. specialize (Hag (PathName e)).
      assert (Hk : Stage e = Stage1 \/ Stage e = Stage2 \/ Stage e = Stage3)
        by (unfold Stage1, Stage2, Stage3; lia).
      unfold set_stage.
      destruct Hk as [Hk|[Hk|Hk]]; rewrite Hk;
        cbn [Z.eqb Stage1 Stage2 Stage3 Pos.eqb];
        rewrite lookup_insert_eq;
        rewrite !lookup_insert_ne by (intros H; injection H; discriminate);
        destruct (r !! PathName e) as [u0|];
        cbn [UStage1 UStage2 UStage3];
        intuition eauto.
    + rewrite lookup_insert_ne by exact Hp. specialize (Hag path).
      rewrite !lookup_insert_ne by (intros H; injection H; congruence).
      exact Hag.
Qed.

Lemma GetUnmerged_loop_agree (es : list IndexEntry)
  (r : gmap string UnmergedPath) (sm : gmap (string * Z) IndexEntry) :
  unmerged_agree r sm ->
  exists r' sm',
    GetUnmerged_loop (map Some es) r = Ret r' /\
    GetStageMap_loop (map Some es) sm = Ret sm' /\
    unmerged_agree r' sm'.
Proof.
  revert r sm. induction es as [|e es IH]; intros r sm Hag.
  - exists r, sm. auto.
  - cbn [map GetUnmerged_loop GetStageMap_loop].
    pose proof (unmerged_agree_step r sm e Hag) as Hstep.
    destruct (negb (Stage e =? Stage0)); apply IH; exact Hstep.
Qed.

(** X17. [GetUnmerged] and [GetStageMap] agree on every index without
    nil entries: a path is in the map of [GetUnmerged] exactly when the
    stage map has it at stage 1, 2 or 3, and the three pointers kept for
    it are what the stage map has at these stages; entries at stage 0
    leave no trace in it. *)
Theorem GetUnmerged_GetStageMap (g : Index) (es : list IndexEntry) :
  Objects g = map Some es ->
  exists r sm,
    GetUnmerged g = Ret r /\ GetStageMap g = Ret sm /\
    forall path,
      (r !! path = None <->
       sm !! (path, Stage1) = None /\ sm !! (path, Stage2) = None /\
       sm !! (path, Stage3) = None) /\
      (forall u, r !! path = Some u ->
                 UStage1 u = sm !! (path, Stage1) /\
                 UStage2 u = sm !! (path, Stage2) /\
                 UStage3 u = sm !! (path, Stage3)).
Proof.
  intros Hobjs. unfold GetUnmerged, GetStageMap. rewrite Hobjs.
  destruct (GetUnmerged_loop_agree es ∅ ∅) as (r & sm & Hr & Hsm & Hag).
  { intros path. rewrite !lookup_empty. auto. }
  exists r, sm. split; [exact Hr|]. split; [exact Hsm|].
  intros path. specialize (Hag path).
  destruct (r !! path) as [u|].
  - destruct Hag as (H1 & H2 & H3 & Hsome). split.
    + split; [discriminate|]. intros (N1 & N2 & N3).
      rewrite N1, N2, N3 in Hsome.
      destruct Hsome as [[x Hx]|[[x Hx]|[x Hx]]]; discriminate.
    + intros u' Hu. injection Hu as <-. auto.
  - split; [tauto | discriminate].
Qed.

Lemma GetUnmerged_GetStageMap_witness :
  exists r sm,
    GetUnmerged deleted_by_them = Ret r /\
    GetStageMap deleted_by_them = Ret sm /\
    (r !! "f" = None <->
     sm !! ("f", Stage1) = None /\ sm !! ("f", Stage2) = None /\
     sm !! ("f", Stage3) = None).
Proof.
  destruct (GetUnmerged_GetStageMap deleted_by_them
              [plain_entry "f" 1; plain_entry "f" 2] eq_refl)
    as (r & sm & H1 & H2 & H3).
  exists r, sm. split; [exact H1|]. split; [exact H2|]. apply H3.
Defined.

(** ** Writing a symbolic ref and reading it back *)

Lemma SymbolicRefGet_ref (TrimSpace : string -> string) (rest : list byte) :
  SymbolicRefGet TrimSpace (RefContents (bytes_of_string "ref: " ++ rest))
  = Ret (TrimSpace (string_of_bytes rest)).
Proof.
  unfold SymbolicRefGet, slice_upto, slice_from, ReadAll.
  cbn [arr len].
  change (bytes_of_string "ref: ") with [x72; x65; x66; x3a; x20].
  cbn [app length Nat.leb firstn obind skipn].
  rewrite firstn_O, skipn_O.
  change (string_of_bytes [x72; x65; x66; x3a; x20] =? "ref: ")%string
    with true.
  cbn [negb]. rewrite firstn_app, Nat.sub_diag, firstn_all, firstn_O.
  rewrite app_nil_r. reflexivity.
Qed.

Lemma bytes_of_string_append (a b : string) :
  bytes_of_string (a +:+ b) = bytes_of_string a ++ bytes_of_string b.
Proof.
  unfold bytes_of_string, list_byte_of_string.
  rewrite <- map_app. f_equal.
  induction a as [|c a IH]; [reflexivity|].
  simpl. f_equal. exact IH.
Qed.

(** X18. [SymbolicRefUpdate] returns the empty RefSpec in every case and
    makes no use of the reflog message.  When the value does not start
    with "refs/" no file is touched.  When it does and the file can be
    created, that file (and no other) is replaced by "ref: " followed by
    the printed value, and [SymbolicRefGet] of the same name then returns
    the printed value, trimmed. *)
Theorem SymbolicRefUpdate_then_Get (TrimSpace RefSpecString format_s
    format_plain : string -> string) (creatable : string -> bool)
  (files : gmap string (list byte)) (reflogmessage symname refvalue : string) :
  let '(ret, files', _) :=
    SymbolicRefUpdate RefSpecString format_s format_plain creatable files
                      reflogmessage symname refvalue in
  ret = "" /\
  (forall other_message,
      SymbolicRefUpdate RefSpecString format_s format_plain creatable files
                        other_message symname refvalue
      = SymbolicRefUpdate RefSpecString format_s format_plain creatable files
                          reflogmessage symname refvalue) /\
  (HasPrefix (RefSpecString refvalue) "refs/" = false -> files' = files) /\
  (HasPrefix (RefSpecString refvalue) "refs/" = true ->
   creatable symname = true ->
   files' !! symname
   = Some (bytes_of_string "ref: " ++ bytes_of_string (format_s refvalue)) /\
   (forall other, other <> symname -> files' !! other = files !! other) /\
   SymbolicRefGet TrimSpace (open_ref files' symname)
   = Ret (TrimSpace (format_s refvalue))).
Proof.
  unfold SymbolicRefUpdate.
  destruct (HasPrefix (RefSpecString refvalue) "refs/") eqn:Hp; cbn [negb].
  - destruct (creatable symname) eqn:Hc; cbn [negb].
    + split; [reflexivity|]. split; [reflexivity|]. split; [discriminate|].
      intros _ _. rewrite bytes_of_string_append. split; [|split].
      * apply lookup_insert_eq.
      * intros other Hne. apply lookup_insert_ne. congruence.
      * unfold open_ref. rewrite lookup_insert_eq.
        rewrite SymbolicRefGet_ref, string_of_bytes_of_string. reflexivity.
    + split; [reflexivity|]. split; [reflexivity|]. split; [discriminate|].
      discriminate.
  - split; [reflexivity|]. split; [reflexivity|]. split; [reflexivity|].
    discriminate.
Qed.

Lemma SymbolicRefUpdate_then_Get_witness :
  SymbolicRefGet (fun s => s)
    (open_ref (<["HEAD" := bytes_of_string ("ref: " +:+ "refs/heads/master")]> ∅)
              "HEAD")
  = Ret "refs/heads/master".
Proof.
  pose proof (SymbolicRefUpdate_then_Get (fun s => s) (fun s => s)
                (fun s => s) (fun s => s) (fun _ => true) ∅ ""
                "HEAD" "refs/heads/master") as H.
  cbv beta iota delta [SymbolicRefUpdate] in H.
  change (HasPrefix "refs/heads/master" "refs/") with true in H.
  cbv beta iota delta [negb] in H.
  destruct H as (_ & _ & _ & H). exact (proj2 (proj2 (H eq_refl eq_refl))).
Defined.

(** ** Refreshing and comparing the stat of an entry *)

Lemma FixedRefreshStat_fixpoint (fs : FileSystem) (i : FixedIndexEntry)
  (f : string) (size fmtime : Z) :
  LstatSize fs f = inr size -> MTime fs f = inr fmtime ->
  (FixedRefreshStat fs i f = (i, None) <->
   Mtime i = fmtime /\ Fsize i = size mod 2 ^ 32 /\
   (Ctime i, Ctimenano i) = CTime fs f /\ Ino i = INode fs f).
Proof.
  intros Hl Hm. unfold FixedRefreshStat. rewrite Hl, Hm.
  destruct (CTime fs f) as [csec cnano].
  destruct i as [ctime ctimenano mtime dev ino mode uid gid fsize sha flags].
  cbn [Ctime Ctimenano Mtime Dev Ino Mode Uid Gid Fsize Sha1 Flags].
  split.
  - intros H. injection H as -> -> -> -> ->. auto.
  - intros (-> & -> & H & ->). injection H as -> ->. reflexivity.
Qed.

(** X19. For a file that is not a symbolic link, [CompareStat] returns
    nil exactly when [RefreshStat] would succeed and leave the entry as it
    is; so after a refresh that succeeded the comparison succeeds, and
    what it compares are modification time, size modulo 2^32, change time
    and inode, the fields a refresh writes. *)
Theorem CompareStat_RefreshStat (IsSymlink : string -> bool)
  (Readlink : string -> error + string) (fs : FileSystem)
  (i : FixedIndexEntry) (f : string) :
  IsSymlink f = false ->
  (CompareStat IsSymlink Readlink fs i f = None <->
   FixedRefreshStat fs i f = (i, None)) /\
  (forall i', FixedRefreshStat fs i f = (i', None) ->
              CompareStat IsSymlink Readlink fs i' f = None).
Proof.
  intros Hsym.
  assert (Hiff : forall j,
             CompareStat IsSymlink Readlink fs j f = None <->
             FixedRefreshStat fs j f = (j, None)).
  { intros j. destruct (LstatSize fs f) as [err|size] eqn:Hl.
    { unfold CompareStat, FixedRefreshStat. rewrite Hl.
      split; discriminate. }
    destruct (MTime fs f) as [err|fmtime] eqn:Hm.
    { unfold CompareStat, FixedRefreshStat. rewrite Hl, Hm.
      split; discriminate. }
    rewrite (FixedRefreshStat_fixpoint fs j f size fmtime Hl Hm).
    unfold CompareStat. rewrite Hl, Hm, Hsym.
    destruct (CTime fs f) as [csec cnano].
    destruct (Z.eqb_spec (Mtime j) fmtime) as [E1|E1]; cbn [negb];
      [|split; [discriminate | tauto]].
    destruct (Z.eqb_spec (Fsize j) (size mod 2 ^ 32)) as [E2|E2]; cbn [negb];
      [|split; [discriminate | tauto]].
    destruct (Z.eqb_spec (Ctime j) csec) as [E3|E3]; cbn [negb orb];
      [|split; [discriminate | intros (_ & _ & H & _); congruence]].
    destruct (Z.eqb_spec (Ctimenano j) cnano) as [E4|E4]; cbn [negb];
      [|split; [discriminate | intros (_ & _ & H & _); congruence]].
    destruct (Z.eqb_spec (Ino j) (INode fs f)) as [E5|E5]; cbn [negb];
      [|split; [discriminate | tauto]].
    split; [|reflexivity]. intros _. repeat split; congruence. }
  split; [apply Hiff|].
  intros i' H. apply Hiff.
  unfold FixedRefreshStat in *.
  destruct (LstatSize fs f) as [err|size]; [discriminate|].
  destruct (MTime fs f) as [err|fmtime]; [discriminate|].
  destruct (CTime fs f) as [csec cnano]. injection H as <-. reflexivity.
Qed.

Lemma CompareStat_RefreshStat_witness :
  CompareStat (fun _ => false) (fun _ => inl EOF) one_file_fs
              (mkFixed 1500000000 42 1500000000 0 99 33188 0 0 7 zero_sha 5)
              "a.txt" = None.
Proof.
  refine (proj2 (CompareStat_RefreshStat (fun _ => false) (fun _ => inl EOF)
                   one_file_fs
                   (mkFixed 0 0 0 0 0 33188 0 0 0 zero_sha 5) "a.txt" eq_refl)
            _ _).
  reflexivity.
Defined.

(** ** checkout-index with [--stage=all]: what is printed *)

Lemma append_assoc (a b c : string) : (a +:+ b) +:+ c = a +:+ (b +:+ c).
Proof.
  induction a as [|x a IH]; [reflexivity|].
  change (String x ((a +:+ b) +:+ c) = String x (a +:+ (b +:+ c))).
  f_equal. exact IH.
Qed.






(** X21. Under [--stage=all] a file whose path has an entry at stage 0 is
    passed over: for a list of such files the loop makes no temporary
    file, changes nothing in the world and prints nothing to standard
    output; with [--quiet] nothing goes to standard error either. *)
Theorem checkout_files_merged (World : Type) (sys : System World)
  (opts : CheckoutIndexOptions) (stageMap : gmap (string * Z) IndexEntry)
  (delim : string) (files : list string) (p : Proc World) :
  Forall (fun file =>
            exists indexpath,
              sysIndexPath World sys file = inr indexpath /\
              stageMap !! (indexpath, Stage0) <> None) files ->
  exists p',
    checkout_files World sys opts stageMap delim files p = (Ret tt, p') /\
    world World p' = world World p /\ stdout World p' = stdout World p /\
    (OptQuiet opts = true -> stderr World p' = stderr World p).
Proof.
  intros Hfiles. revert p.
  induction Hfiles as [|file files (indexpath & Hip & Hs0) _ IH]; intros p.
  - exists p. cbn. auto.
  - cbn [checkout_files]. rewrite Hip. unfold checkout_stage_all.
    destruct (stageMap !! (indexpath, Stage0)) as [e0|]; [|contradiction].
    destruct (OptQuiet opts) eqn:Hq; cbn [negb].
    + unfold bind at 1. cbn [ret]. apply IH.
    + unfold bind at 1. unfold eprint at 1.
      destruct (IH (mkProc World (world World p) (stdout World p)
                      (stderr World p +:+ ("git checkout-index: " +:+ indexpath
                         +:+ " does not exist at stage 0" +:+ newline))))
        as (p' & Hrun & Hw & Ho & _).
      exists p'. split; [exact Hrun|]. cbn in Hw, Ho.
      split; [exact Hw|]. split; [exact Ho | discriminate].
Qed.

Lemma checkout_files_merged_witness :
  exists p',
    checkout_files nat counting_system stage_all_opts
      (<[("a.txt", Stage0) := plain_entry "a.txt" 0]> ∅) newline ["a.txt"]
      (mkProc nat 0%nat "" "") = (Ret tt, p') /\
    world nat p' = 0%nat /\ stdout nat p' = "".
Proof.
  destruct (checkout_files_merged nat counting_system stage_all_opts
              (<[("a.txt", Stage0) := plain_entry "a.txt" 0]> ∅) newline
              ["a.txt"] (mkProc nat 0%nat "" "")) as (p' & H1 & H2 & H3 & _).
  - constructor; [|constructor]. exists "a.txt". split; [reflexivity|].
    vm_compute. discriminate.
  - exists p'. auto.
Defined.

(** ** The branch HEAD points to *)

Lemma split_slash_not_nil (s : string) : split_slash s <> [].
Proof.
  destruct s as [|c s]; cbn [split_slash]; [discriminate|].
  destruct (Ascii.eqb c "/"); [discriminate|].
  destruct (split_slash s); discriminate.
Qed.

Lemma join_split_slash (s : string) :
  join_slash (split_slash s) = s /\
  Forall (fun piece => no_slash piece = true) (split_slash s).
Proof.
  induction s as [|c s [IHj IHf]]; [split; [reflexivity | repeat constructor]|].
  cbn [split_slash]. destruct (Ascii.eqb_spec c "/") as [->|Hc].
  - split; [|constructor; [reflexivity | exact IHf]].
    pose proof (split_slash_not_nil s) as Hne.
    destruct (split_slash s) as [|piece more]; [contradiction|].
    change (join_slash ("" :: piece :: more))
      with (String "/" (join_slash (piece :: more))).
    rewrite IHj. reflexivity.
  - pose proof (split_slash_not_nil s) as Hne.
    destruct (split_slash s) as [|piece more]; [contradiction|].
    apply List.Forall_cons_iff in IHf as [Hp Hm]. split.
    + destruct more as [|piece' more].
      * cbn [join_slash] in *. rewrite IHj. reflexivity.
      * change (join_slash (String c piece :: piece' :: more))
          with (String c (join_slash (piece :: piece' :: more))).
        rewrite IHj. reflexivity.
    + constructor; [|exact Hm]. cbn [no_slash].
      apply Ascii.eqb_neq in Hc. rewrite Hc, Hp. reflexivity.
Qed.

Lemma split_slash_piece (a s : string) :
  no_slash a = true ->
  split_slash (a +:+ String "/" s) = a :: split_slash s.
Proof.
  induction a as [|c a IH]; intros Ha; [reflexivity|].
  cbn [no_slash] in Ha. apply andb_true_iff in Ha as [Hc Ha].
  apply negb_true_iff in Hc.
  change (String c a +:+ String "/" s) with (String c (a +:+ String "/" s)).
  cbn [split_slash]. rewrite Hc, (IH Ha). reflexivity.
Qed.

Lemma split_slash_last (a : string) :
  no_slash a = true -> split_slash a = [a].
Proof.
  induction a as [|c a IH]; intros Ha; [reflexivity|].
  cbn [no_slash] in Ha. apply andb_true_iff in Ha as [Hc Ha].
  apply negb_true_iff in Hc.
  cbn [split_slash]. rewrite Hc, (IH Ha). reflexivity.
Qed.

Lemma GetHeadBranch_ref (TrimSpace : string -> string) (rest : list byte) :
  GetHeadBranch TrimSpace (bytes_of_string "ref: " ++ rest)
  = match split_slash (string_of_bytes rest) with
    | [r0; r1; r2] =>
        if negb (String.eqb r0 "refs") || negb (String.eqb r1 "heads")
        then Panic
        else Ret (TrimSpace r2)
    | _ => Panic
    end.
Proof.
  unfold GetHeadBranch, slice_upto, slice_from, ReadAll.
  cbn [arr len].
  change (bytes_of_string "ref: ") with [x72; x65; x66; x3a; x20].
  cbn [app length Nat.leb firstn obind skipn].
  rewrite firstn_O, skipn_O.
  change (string_of_bytes [x72; x65; x66; x3a; x20] =? "ref: ")%string
    with true.
  cbn [negb]. rewrite firstn_app, Nat.sub_diag, firstn_all, firstn_O.
  rewrite app_nil_r. reflexivity.
Qed.

Lemma GetHeadBranch_other (TrimSpace : string -> string)
  (contents : list byte) :
  firstn 5 contents <> bytes_of_string "ref: " ->
  GetHeadBranch TrimSpace contents = Panic.
Proof.
  intros Hne. unfold GetHeadBranch, slice_upto.
  pose proof (ReadAll_capacity contents) as Hcap.
  destruct (5 <=? length (arr (ReadAll contents)))%nat eqn:E;
    [|apply Nat.leb_gt in E; lia].
  cbn [obind]. unfold ReadAll at 1. cbn [arr].
  rewrite string_of_bytes_eqb, ReadAll_prefix.
  destruct (bytes_eqb (firstn 5 contents) (bytes_of_string "ref: ")) eqn:Hp;
    [|reflexivity].
  apply bytes_eqb_eq in Hp. contradiction.
Qed.

Lemma bytes_of_string_of_bytes (bs : list byte) :
  bytes_of_string (string_of_bytes bs) = bs.
Proof. apply list_byte_of_string_of_list_byte. Qed.

(** X22. [GetHeadBranch] returns only for a HEAD that reads "ref:
    refs/heads/" followed by a name without a slash, and then returns that
    name trimmed; for every other content (an empty or unreadable HEAD, a
    detached HEAD, a ref outside refs/heads, a branch name with a slash in
    it) it panics. *)
Theorem GetHeadBranch_returns (TrimSpace : string -> string)
  (contents : list byte) :
  (forall branch,
      GetHeadBranch TrimSpace contents = Ret branch <->
      exists name,
        contents = bytes_of_string "ref: refs/heads/" ++ bytes_of_string name /\
        no_slash name = true /\ branch = TrimSpace name) /\
  ((forall name,
       contents = bytes_of_string "ref: refs/heads/" ++ bytes_of_string name ->
       no_slash name = false) ->
   GetHeadBranch TrimSpace contents = Panic).
Proof.
  assert (Hiff : forall branch,
             GetHeadBranch TrimSpace contents = Ret branch <->
             exists name,
               contents
               = bytes_of_string "ref: refs/heads/" ++ bytes_of_string name /\
               no_slash name = true /\ branch = TrimSpace name).
  { intros branch. split.
    - intros H.
      assert (Hpre : firstn 5 contents = bytes_of_string "ref: ").
      { destruct (bytes_eqb (firstn 5 contents) (bytes_of_string "ref: "))
          eqn:Hb; [apply bytes_eqb_eq in Hb; exact Hb|].
        rewrite (GetHeadBranch_other TrimSpace contents) in H;
          [discriminate|].
        intros Heq. apply bytes_eqb_eq in Heq. congruence. }
      rewrite <- (firstn_skipn 5 contents), Hpre in H |- *.
      rewrite GetHeadBranch_ref in H.
      pose proof (join_split_slash (string_of_bytes (skipn 5 contents)))
        as [Hj Hf].
      destruct (split_slash (string_of_bytes (skipn 5 contents)))
        as [|r0 [|r1 [|r2 [|r3 more]]]]; try discriminate.
      destruct (String.eqb_spec r0 "refs") as [->|]; [|discriminate].
      destruct (String.eqb_spec r1 "heads") as [->|]; [|discriminate].
      cbn [negb orb] in H. injection H as <-.
      exists r2. split; [|split; [|reflexivity]].
      + apply (f_equal bytes_of_string) in Hj.
        rewrite bytes_of_string_of_bytes in Hj. rewrite <- Hj.
        cbn [join_slash].
        change ("refs" +:+ String "/" ("heads" +:+ String "/" r2))
          with ("refs/heads/" +:+ r2).
        rewrite bytes_of_string_append. reflexivity.
      + apply List.Forall_cons_iff in Hf as [_ Hf].
        apply List.Forall_cons_iff in Hf as [_ Hf].
        apply List.Forall_cons_iff in Hf as [Hf _]. exact Hf.
    - intros (name & -> & Hname & ->).
      change (bytes_of_string "ref: refs/heads/")
        with (bytes_of_string "ref: " ++ bytes_of_string "refs/heads/").
      rewrite <- app_assoc, GetHeadBranch_ref, <- bytes_of_string_append.
      rewrite string_of_bytes_of_string.
      change ("refs/heads/" +:+ name)
        with ("refs" +:+ String "/" ("heads" +:+ String "/" name)).
      rewrite (split_slash_piece "refs") by reflexivity.
      rewrite (split_slash_piece "heads") by reflexivity.
      rewrite (split_slash_last name Hname). reflexivity. }
  split; [exact Hiff|].
  intros Hall. destruct (GetHeadBranch TrimSpace contents) as [branch|] eqn:E;
    [|reflexivity].
  destruct (proj1 (Hiff branch) eq_refl) as (name & Hc & Hname & _).
  rewrite (Hall name Hc) in Hname. discriminate.
Qed.

Lemma GetHeadBranch_returns_witness :
  GetHeadBranch (fun s => s) [] = Panic.
Proof.
  apply (proj2 (GetHeadBranch_returns (fun s => s) [])).
  intros name H. discriminate.
Defined.

(** ** Names read from standard input *)

Lemma read_strings_tail (delim : ascii) (tail : string) :
  lacks delim tail = true -> read_strings delim tail = ([], tail).
Proof.
  induction tail as [|c tail IH]; intros H; [reflexivity|].
  cbn [lacks] in H. apply andb_true_iff in H as [Hc H].
  apply negb_true_iff in Hc. cbn [read_strings]. rewrite (IH H), Hc.
  reflexivity.
Qed.

Lemma read_strings_piece (delim : ascii) (name rest : string) :
  lacks delim name = true ->
  read_strings delim (name +:+ String delim rest)
  = (name :: fst (read_strings delim rest), snd (read_strings delim rest)).
Proof.
  induction name as [|c name IH]; intros H.
  - change ("" +:+ String delim rest) with (String delim rest).
    cbn [read_strings]. destruct (read_strings delim rest) as [pieces remaining].
    rewrite Ascii.eqb_refl. reflexivity.
  - cbn [lacks] in H. apply andb_true_iff in H as [Hc H].
    apply negb_true_iff in Hc.
    change (String c name +:+ String delim rest)
      with (String c (name +:+ String delim rest)).
    cbn [read_strings]. rewrite (IH H), Hc. reflexivity.
Qed.

Lemma read_strings_terminated (delim : ascii) (names : list string)
  (tail : string) :
  Forall (fun name => lacks delim name = true) names ->
  lacks delim tail = true ->
  read_strings delim (terminated delim names +:+ tail) = (names, tail).
Proof.
  intros Hnames Htail. induction Hnames as [|name names Hname _ IH].
  - apply read_strings_tail. exact Htail.
  - cbn [terminated]. rewrite append_assoc.
    change (String delim (terminated delim names) +:+ tail)
      with (String delim (terminated delim names +:+ tail)).
    rewrite (read_strings_piece delim name _ Hname), IH. reflexivity.
Qed.

(** X23. With [--stdin], the names checked out are the pieces of the
    input that end in the delimiter (newline, or NUL with [-z]), in their
    order and one call each; whatever follows the last delimiter is
    dropped, so an input without any delimiter checks nothing out.  The
    errors of the single calls are printed and not returned: when the
    function returns with a reader given, it returns nil. *)
Theorem CheckoutIndexFromReader_names (World : Type)
  (checkout : list string -> M World (option error)) (nullTerminate : bool)
  (names : list string) (tail : string) (p : Proc World) :
  let delim := if nullTerminate then ascii_of_nat 0 else ascii_of_nat 10 in
  Forall (fun name => lacks delim name = true) names ->
  lacks delim tail = true ->
  CheckoutIndexFromReaderUncommited World checkout
    (Some (terminated delim names +:+ tail)) nullTerminate p
  = bind World (checkout_each World checkout names)
      (fun _ => ret World None) p /\
  CheckoutIndexFromReaderUncommited World checkout (Some tail) nullTerminate p
  = (Ret None, p) /\
  (forall input r p',
      CheckoutIndexFromReaderUncommited World checkout (Some input)
        nullTerminate p = (Ret r, p') -> r = None).
Proof.
  intros delim Hnames Htail. unfold CheckoutIndexFromReaderUncommited.
  fold delim. split; [|split].
  - rewrite (read_strings_terminated delim names tail Hnames Htail).
    reflexivity.
  - rewrite (read_strings_tail delim tail Htail). reflexivity.
  - intros input r p' H. unfold bind in H.
    destruct (checkout_each World checkout _ p) as [[[]|] p1];
      [|discriminate].
    cbn in H. injection H as <- _. reflexivity.
Qed.

Lemma CheckoutIndexFromReader_names_witness :
  CheckoutIndexFromReaderUncommited nat (fun _ => ret nat None)
    (Some "a.txt") false (mkProc nat 0%nat "" "")
  = (Ret None, mkProc nat 0%nat "" "").
Proof.
  refine (proj1 (proj2 (CheckoutIndexFromReader_names nat
                          (fun _ => ret nat None) false [] "a.txt"
                          (mkProc nat 0%nat "" "") _ _))).
  - constructor.
  - reflexivity.
Defined.

(** ** Writing a sorted index and reading it back *)

Lemma insert_sorted_last (x : IndexEntry) (acc : list IndexEntry) :
  Forall (fun y => Less x y = false) acc -> insert_sorted x acc = acc ++ [x].
Proof.
  induction 1 as [|y acc Hy _ IH]; [reflexivity|].
  cbn [insert_sorted app]. rewrite Hy, IH. reflexivity.
Qed.

Lemma ascending_before (a b : list IndexEntry) (x : IndexEntry) :
  ascending (a ++ x :: b) -> Forall (fun y => Less x y = false) a.
Proof.
  unfold ascending. induction a as [|y a IH]; intros H; [constructor|].
  cbn [app] in H. apply StronglySorted_inv in H as [Hs Hall].
  constructor; [|apply IH; exact Hs].
  rewrite List.Forall_forall in Hall. apply Less_asym, Hall.
  apply in_app_iff. right. left. reflexivity.
Qed.

Lemma sort_entries_ascending (es : list IndexEntry) :
  ascending es -> sort_entries es = es.
Proof.
  unfold sort_entries.
  assert (H : forall l acc,
             ascending (acc ++ l) ->
             fold_left (fun acc x => insert_sorted x acc) l acc = acc ++ l).
  { induction l as [|x l IH]; intros acc Hasc; cbn [fold_left].
    - rewrite app_nil_r. reflexivity.
    - rewrite (insert_sorted_last x acc (ascending_before acc l x Hasc)).
      rewrite IH; rewrite <- app_assoc; [reflexivity | exact Hasc]. }
  intros Hasc. apply (H es []). exact Hasc.
Qed.

Lemma map_Some_inj (a b : list IndexEntry) : map Some a = map Some b -> a = b.
Proof.
  revert b. induction a as [|x a IH]; intros [|y b] H; try discriminate;
    [reflexivity|].
  cbn [map] in H. injection H as -> H. f_equal. auto.
Qed.

Lemma entry_bytes_on_disk (e : IndexEntry) :
  entry_bytes (on_disk e) = entry_bytes e.
Proof.
  unfold entry_bytes, ext_bytes, write_padding, on_disk, ExtendedFlag.
  cbn [Fixed V3 PathName].
  destruct (FixedExtendedFlag (Fixed e)); reflexivity.
Qed.

Lemma wf_entry_on_disk (version : Z) (e : IndexEntry) :
  wf_entry version e -> wf_entry version (on_disk e).
Proof.
  intros (Hf & Hs & He). split; [exact Hf|]. split; [exact Hs|].
  intros Hext. change (ExtendedFlag (on_disk e)) with (ExtendedFlag e) in Hext.
  unfold on_disk. cbn [V3]. rewrite Hext. apply He. exact Hext.
Qed.

Lemma ascending_on_disk (es : list IndexEntry) :
  ascending es -> ascending (map on_disk es).
Proof.
  unfold ascending. induction 1 as [|x es Hs IH Hall]; cbn [map]; constructor;
    [exact IH|].
  apply List.Forall_map. exact Hall.
Qed.

Lemma WriteIndex_sorted (g : Index) (es : list IndexEntry) :
  wf_index g es -> ascending es ->
  WriteIndex g = Ret (index_body g es ++ SHA1.sum (index_body g es), None).
Proof.
  intros Hwf Hasc.
  destruct (WriteIndex_wf g es Hwf) as (sorted & Hsort & _ & Hw).
  destruct Hwf as (Hobjs & _).
  rewrite Hobjs, SortByPath_sort_entries, (sort_entries_ascending es Hasc)
    in Hsort.
  injection Hsort as Hsort. apply map_Some_inj in Hsort. subst sorted.
  exact Hw.
Qed.

(** X24. An index without nil entries that is well formed (signature,
    version 2 or 3, fields in range, names shorter than 0xFFF, the
    extended flag only in version 3 and with its extension) and whose
    entries ascend strictly is written in the order it has and read back
    entry by entry: fixed part, path and skip-worktree bit of every entry
    are as before, the count is the number of entries, and the extension
    of an entry whose extended flag is clear comes back nil.  Writing the
    index read back gives the same bytes again. *)
Theorem WriteIndex_ReadIndex_sorted (g : Index) (es : list IndexEntry) :
  wf_index g es -> ascending es ->
  exists bytes back,
    WriteIndex g = Ret (bytes, None) /\
    ReadIndex (Opened bytes) = Ret (Some back, None) /\
    back = mkIndex DIRC (Version g) (Z.of_nat (length es))
             (map (fun e => Some (on_disk e)) es) /\
    (forall e, Fixed (on_disk e) = Fixed e /\ PathName (on_disk e) = PathName e /\
               SkipWorktree (on_disk e) = SkipWorktree e) /\
    WriteIndex back = Ret (bytes, None).
Proof.
  intros Hwf Hasc. pose proof (WriteIndex_sorted g es Hwf Hasc) as Hw.
  destruct Hwf as (Hobjs & Hsig & Hv & Hes & Hcount).
  eexists _, _. split; [exact Hw|]. split.
  { apply ReadIndex_body; assumption. }
  split; [reflexivity|]. split.
  { intros e. split; [reflexivity|]. split; [reflexivity|].
    unfold SkipWorktree, on_disk.
    change (ExtendedFlag (mkEntry (Fixed e) _ (PathName e)))
      with (ExtendedFlag e).
    cbn [V3]. destruct (ExtendedFlag e); [reflexivity|].
    cbn [negb]. destruct (V3 e); reflexivity. }
  set (back := mkIndex DIRC (Version g) (Z.of_nat (length es))
                 (map (fun e => Some (on_disk e)) es)).
  assert (Hwf' : wf_index back (map on_disk es)).
  { unfold wf_index, back. cbn [Objects Signature Version].
    split; [rewrite map_map; reflexivity|]. split; [reflexivity|].
    split; [exact Hv|]. split.
    - apply List.Forall_map. eapply List.Forall_impl; [|exact Hes].
      intros e. apply wf_entry_on_disk.
    - rewrite length_map. exact Hcount. }
  rewrite (WriteIndex_sorted back (map on_disk es) Hwf'
             (ascending_on_disk es Hasc)).
  assert (Hbody : index_body back (map on_disk es) = index_body g es).
  { unfold index_body, back. cbn [Signature Version].
    rewrite Hsig, length_map, map_map. f_equal. f_equal.
    apply map_ext. intros e. apply entry_bytes_on_disk. }
  rewrite Hbody. reflexivity.
Qed.

Lemma WriteIndex_ReadIndex_sorted_witness :
  exists bytes back,
    WriteIndex one_file_index = Ret (bytes, None) /\
    ReadIndex (Opened bytes) = Ret (Some back, None) /\
    back = mkIndex DIRC 2 1 [Some (on_disk (plain_entry "a.txt" 0))] /\
    WriteIndex back = Ret (bytes, None).
Proof.
  destruct (WriteIndex_ReadIndex_sorted one_file_index [plain_entry "a.txt" 0])
    as (bytes & back & H1 & H2 & H3 & _ & H5).
  - split; [reflexivity|]. split; [reflexivity|]. split; [left; reflexivity|].
    split; [|simpl; lia].
    constructor; [|constructor]. apply plain_entry_wf. simpl. lia.
  - repeat constructor.
  - exists bytes, back. auto.
Defined.

(** ** The arguments of update-ref *)

Lemma startAt_loop_plain (args : list string) (idx startAt : nat) :
  Forall (fun a => is_m a = false) args ->
  startAt_loop idx args startAt = startAt.
Proof.
  intros H. revert idx. induction H as [|a args Ha _ IH]; intros idx;
    [reflexivity|].
  cbn [startAt_loop]. unfold is_m in Ha. rewrite Ha. apply IH.
Qed.

Lemma startAt_loop_app (a b : list string) (idx startAt : nat) :
  startAt_loop idx (a ++ b) startAt
  = startAt_loop (idx + length a) b (startAt_loop idx a startAt).
Proof.
  revert idx startAt. induction a as [|x a IH]; intros idx startAt.
  - cbn [app length startAt_loop]. rewrite Nat.add_0_r. reflexivity.
  - cbn [app length startAt_loop]. rewrite IH. f_equal. lia.
Qed.

Lemma startAt_loop_last (args : list string) (idx startAt : nat) :
  (Forall (fun a => is_m a = false) args /\
   startAt_loop idx args startAt = startAt) \/
  (exists a b, args = a ++ "-m" :: b /\ Forall (fun x => is_m x = false) b /\
               startAt_loop idx args startAt = (idx + length a + 2)%nat).
Proof.
  revert idx startAt. induction args as [|x args IH]; intros idx startAt.
  - left. split; [constructor | reflexivity].
  - cbn [startAt_loop].
    destruct (IH (S idx) (if (x =? "-m")%string then (idx + 2)%nat else startAt))
      as [[Hall Hs]|(a & b & -> & Hb & Hs)].
    + destruct (String.eqb_spec x "-m") as [->|Hx].
      * right. exists [], args. split; [reflexivity|]. split; [exact Hall|].
        rewrite Hs. cbn [length]. lia.
      * left. split; [|exact Hs]. constructor; [|exact Hall].
        unfold is_m. apply String.eqb_neq. exact Hx.
    + right. exists (x :: a), b. split; [reflexivity|]. split; [exact Hb|].
      rewrite Hs. cbn [length]. lia.
Qed.

(** X25. [UpdateRef] gets past its argument handling only when exactly a
    ref and a value are given, neither of them "-m", either alone or
    straight after a "-m" and its reason, where the reason is not "-m"
    itself: any arguments before that "-m" are dropped unseen.  Every
    other argument list panics, among them three plain arguments (an old
    value), a "-m" in last place, and a "-m" whose reason is "-m". *)
Theorem UpdateRef_args_returns (args : list string) (ref newValue : string) :
  UpdateRef_args args = Ret (ref, newValue) <->
  is_m ref = false /\ is_m newValue = false /\
  (args = [ref; newValue] \/
   exists before reason,
     is_m reason = false /\ args = before ++ ["-m"; reason; ref; newValue]).
Proof.
  unfold UpdateRef_args. split.
  - intros H.
    destruct (length args <? startAt_loop 0 args 0)%nat eqn:El; [discriminate|].
    destruct (startAt_loop_last args 0 0) as [[Hall Hs]|(a & b & Ha & Hb & Hs)].
    + rewrite Hs in H. cbn [skipn] in H.
      destruct args as [|x [|y [|z args]]]; try discriminate.
      injection H as -> ->.
      apply List.Forall_cons_iff in Hall as [Hx Hall].
      apply List.Forall_cons_iff in Hall as [Hy _]. auto.
    + rewrite Hs in H. subst args.
      replace (0 + length a + 2)%nat with (2 + length a)%nat in H by lia.
      rewrite <- skipn_skipn, skipn_app, skipn_all, Nat.sub_diag in H.
      cbn [app skipn] in H.
      destruct b as [|reason [|x [|y [|z b]]]]; try discriminate.
      injection H as -> ->.
      apply List.Forall_cons_iff in Hb as [Hr Hb].
      apply List.Forall_cons_iff in Hb as [Hx Hb].
      apply List.Forall_cons_iff in Hb as [Hy _].
      split; [exact Hx|]. split; [exact Hy|]. right.
      exists a, reason. split; [exact Hr | reflexivity].
  - intros (Hr & Hv & [->|(before & reason & Hreason & ->)]).
    + cbn [startAt_loop]. unfold is_m in Hr, Hv. rewrite Hr, Hv. reflexivity.
    + rewrite startAt_loop_app. cbn [startAt_loop].
      unfold is_m in Hr, Hv, Hreason.
      change ("-m" =? "-m")%string with true. rewrite Hreason, Hr, Hv.
      rewrite length_app. cbn [length].
      destruct (length before + 4 <? 0 + length before + 2)%nat eqn:El;
        [apply Nat.ltb_lt in El; lia|].
      replace (0 + length before + 2)%nat with (2 + length before)%nat by lia.
      rewrite <- skipn_skipn, skipn_app, skipn_all, Nat.sub_diag.
      reflexivity.
Qed.

Lemma UpdateRef_args_returns_witness :
  UpdateRef_args ["-m"; "a reason"; "refs/heads/master"; "0123"]
  = Ret ("refs/heads/master", "0123").
Proof.
  apply (proj2 (UpdateRef_args_returns _ _ _)).
  split; [reflexivity|]. split; [reflexivity|]. right.
  exists [], "a reason". split; reflexivity.
Defined.

(** ** The nearest enclosing repository *)

Lemma findGitDir_loop_nearest (isdir : string -> bool) (pieces : list string)
  (n : nat) :
  (findGitDir_loop isdir pieces n = "" /\
   forall j, (1 <= j <= n)%nat ->
             isdir (join_slash (firstn j pieces) +:+ "/.git") = false) \/
  (exists i, (1 <= i <= n)%nat /\
             findGitDir_loop isdir pieces n
             = join_slash (firstn i pieces) +:+ "/.git" /\
             isdir (join_slash (firstn i pieces) +:+ "/.git") = true /\
             forall j, (i < j <= n)%nat ->
                       isdir (join_slash (firstn j pieces) +:+ "/.git") = false).
Proof.
  induction n as [|n IH].
  - left. split; [reflexivity|]. intros j Hj. lia.
  - cbn [findGitDir_loop].
    destruct (isdir (join_slash (firstn (S n) pieces) +:+ "/.git")) eqn:E.
    + right. exists (S n). split; [lia|]. split; [reflexivity|].
      split; [exact E|]. intros j Hj. lia.
    + destruct IH as [[Hr Hall]|(i & Hi & Hr & Hd & Hall)].
      * left. split; [exact Hr|]. intros j Hj.
        destruct (Nat.eq_dec j (S n)) as [->|Hne]; [exact E|].
        apply Hall. lia.
      * right. exists i. split; [lia|]. split; [exact Hr|].
        split; [exact Hd|]. intros j Hj.
        destruct (Nat.eq_dec j (S n)) as [->|Hne]; [exact E|].
        apply Hall. lia.
Qed.

(** X26. [findGitDir] returns the [.git] of the nearest directory, going
    up from the working directory slash by slash, that holds a directory
    of that name: the result is that directory's path followed by
    "/.git", no directory further down the path has one, and when none at
    all has one (or the working directory is not known) the result is the
    empty GitDir. *)
Theorem findGitDir_nearest (isdir : string -> bool) (startPath : string) :
  let n := length (split_slash startPath) in
  ancestor startPath n = startPath /\
  ((findGitDir isdir (inr startPath) = "" /\
    forall j, (1 <= j <= n)%nat ->
              isdir (ancestor startPath j +:+ "/.git") = false) \/
   (exists i, (1 <= i <= n)%nat /\
              findGitDir isdir (inr startPath)
              = ancestor startPath i +:+ "/.git" /\
              isdir (ancestor startPath i +:+ "/.git") = true /\
              forall j, (i < j <= n)%nat ->
                        isdir (ancestor startPath j +:+ "/.git") = false)) /\
  (forall err, findGitDir isdir (inl err) = "").
Proof.
  cbv zeta.
  assert (Hfull : ancestor startPath (length (split_slash startPath))
                  = startPath).
  { unfold ancestor. rewrite firstn_all. apply join_split_slash. }
  split; [exact Hfull|]. split; [|reflexivity].
  unfold findGitDir, ancestor in *.
  pose proof (split_slash_not_nil startPath) as Hne.
  destruct (isdir (startPath +:+ "/.git")) eqn:E.
  - right. exists (length (split_slash startPath)).
    split; [destruct (split_slash startPath); [contradiction | cbn [length]; lia]|].
    rewrite Hfull. split; [reflexivity|]. split; [exact E|].
    intros j Hj. lia.
  - apply findGitDir_loop_nearest.
Qed.

Lemma findGitDir_nearest_witness :
  findGitDir (fun d => (d =? "/home/.git")%string) (inr "/home/me/src")
  = "/home/.git".
Proof.
  destruct (findGitDir_nearest (fun d => (d =? "/home/.git")%string)
              "/home/me/src") as (_ & [[H _]|(i & Hi & H & Hd & _)] & _).
  - vm_compute in H. discriminate.
  - rewrite H. clear H. apply String.eqb_eq in Hd. rewrite Hd. reflexivity.
Defined.

(** ** [AddStage] at stage 0 on an entry that is there *)

Lemma overwrite_fields (e : IndexEntry) (s : list byte) (mtime size : Z) :
  Sha1 (Fixed (overwrite e s mtime size)) = s /\
  Mtime (Fixed (overwrite e s mtime size)) = mtime /\
  Fsize (Fixed (overwrite e s mtime size)) = size /\
  Mode (Fixed (overwrite e s mtime size)) = Mode (Fixed e) /\
  Flags (Fixed (overwrite e s mtime size)) = Flags (Fixed e) /\
  V3 (overwrite e s mtime size) = V3 e /\
  PathName (overwrite e s mtime size) = PathName e.
Proof. repeat split. Qed.

(** X27. When [AddStage] with [Stage0] succeeds on a path that had an
    entry at stage 0, the entry found under the path afterwards has the
    hash, the modification time and the size of the call, also when the
    stat of the file was refreshed on the way, and the mode, flags and
    extension it had before: the mode argument is not used. *)
Theorem AddStage_stage0_overwrites (fs : FileSystem) (g g' : Index)
  (es : list IndexEntry) (old : IndexEntry) (path : string) (mode : Z)
  (s : list byte) (size mtime : Z) (opts : UpdateIndexOptions) :
  Objects g = map Some es ->
  List.find (fun e => same_stage e path Stage0) es = Some old ->
  AddStage fs g path mode s Stage0 size mtime opts = Ret (g', None) ->
  exists es' new,
    Objects g' = map Some es' /\
    List.find (named path) es' = Some new /\
    Stage new = Stage0 /\
    Sha1 (Fixed new) = s /\ Mtime (Fixed new) = mtime /\
    Fsize (Fixed new) = size /\
    Mode (Fixed new) = Mode (Fixed old) /\
    Flags (Fixed new) = Flags (Fixed old) /\ V3 new = V3 old.
Proof.
  intros Hobjs Hfind H. unfold AddStage in H.
  outcome_inv H as r. destruct r as [g1 err1].
  rewrite ?Z.eqb_refl in H. outcome_inv H as r2. destruct r2 as [g2 ignored].
  injection H as <- ->.
  unfold AddStage_body in E. rewrite Hobjs, find_stage_total, Hfind in E.
  cbn [obind] in E.
  pose proof (find_some _ _ Hfind) as [Hin Hsame].
  pose proof (proj1 (same_stage_key _ _ _) Hsame) as [Hp Hst].
  outcome_inv E as r. destruct r as [g0 [e0|]]; [discriminate|].
  destruct (replaceEntriesCheck_stage0_sub _ _ _ _ _ Hobjs E1)
    as (kept & Hobjs0 & _ & Hkeep).
  match type of E with
  | match ?r with _ => _ end = _ => set (refreshed := r) in E
  end.
  assert (Hr : PathName (fst refreshed) = PathName old /\
               Flags (Fixed (fst refreshed)) = Flags (Fixed old) /\
               Mode (Fixed (fst refreshed)) = Mode (Fixed old) /\
               V3 (fst refreshed) = V3 old).
  { unfold refreshed. destruct (Exists fs _ && _); [|auto].
    pose proof (RefreshStat_kept fs old) as (A & B & _ & C & D). auto. }
  destruct refreshed as [entry1 [e1|]]; [discriminate|].
  cbn [fst] in Hr. destruct Hr as (Hp1 & Hf1 & Hm1 & Hv1).
  injection E as <-.
  pose proof (overwrite_fields entry1 s mtime size)
    as (Fs & Fm & Fz & Fmode & Fflags & Fv & Fp).
  set (new := overwrite entry1 s mtime size) in *.
  assert (Hnew : same_stage new path Stage0 = true).
  { apply same_stage_key. split; [congruence|].
    unfold Stage in *. congruence. }
  destruct (find_update_entry kept path Stage0 new old
              (Hkeep _ Hin Hp) Hsame Hnew) as (es1 & Hup & Hf).
  unfold RemoveUnmergedStages in E0. cbn [Objects set_Objects] in E0.
  rewrite Hobjs0, Hup, RemoveUnmergedStages_loop_filter in E0.
  cbn [obind] in E0. injection E0 as <- _.
  exists (List.filter (merged_or_other path) es1), new.
  cbn [Objects]. split; [reflexivity|].
  split; [rewrite find_named_merged; exact Hf|].
  split; [apply same_stage_key in Hnew; tauto|].
  repeat split; congruence.
Qed.

Lemma AddStage_stage0_overwrites_witness :
  exists es' new,
    map Some [mkEntry (mkFixed 0 0 9 0 0 33188 0 0 7 (repeat x01 20)
                         (new_flags "a.txt" 0))
                      (Some (mkV3 0)) "a.txt"]
    = map Some es' /\
    List.find (named "a.txt") es' = Some new /\
    Sha1 (Fixed new) = repeat x01 20 /\ Mtime (Fixed new) = 9 /\
    Fsize (Fixed new) = 7 /\ Mode (Fixed new) = 33188.
Proof.
  destruct (AddStage_stage0_overwrites empty_fs one_file_index
              (mkIndex DIRC 2 1
                 [Some (mkEntry (mkFixed 0 0 9 0 0 33188 0 0 7 (repeat x01 20)
                                   (new_flags "a.txt" 0))
                                (Some (mkV3 0)) "a.txt")])
              [plain_entry "a.txt" 0] (plain_entry "a.txt" 0) "a.txt" 40960
              (repeat x01 20) 7 9 (mkOpts false false))
    as (es' & new & H1 & H2 & _ & H3 & H4 & H5 & H6 & _).
  - reflexivity.
  - reflexivity.
  - vm_compute. reflexivity.
  - exists es', new. cbn [Objects] in H1.
    split; [exact H1|]. split; [exact H2|]. split; [exact H3|].
    split; [exact H4|]. split; [exact H5 | exact H6].
Defined.
